(** * The document enrichment pipeline: text normalizer, response
      sanitization and the three generator contracts

    A shallow embedding of [text_cleaner.py], [receive_json.py],
    [enrich_from_json.py] and [image_generation.py].

    Python strings are sequences of code points: a character is an [N], a
    string a [list N].  The regular expressions of the sources are kept as
    syntax trees and run by a backtracking matcher with Python's priorities
    (greedy and lazy repetition, leftmost match), on which [re.sub] and
    [re.search] are defined. *)

From Stdlib Require Import String Ascii NArith Bool Arith List Lia.
Import ListNotations.
Open Scope N_scope.

(** ** Characters and strings *)

Definition char := N.
Definition text := list char.

Definition NL : char := 10.
Definition SPACE : char := 32.
Definition PIPE : char := 124.
Definition BACKTICK : char := 96.
Definition EURO : char := 8364.
Definition EM_DASH : char := 8212.
(** [REPLACEMENT_CHAR = "\uFFFD"] *)
Definition REPLACEMENT_CHAR : char := 65533.

(** [str.isspace] for one character, which is also what [\s] matches in a
    [str] pattern and what [str.strip()] removes: the code points CPython's
    [_PyUnicode_IsWhitespace] lists. *)
Definition is_space (c : char) : bool :=
  ((9 <=? c) && (c <=? 13)) || ((28 <=? c) && (c <=? 32))
  || (c =? 133) || (c =? 160) || (c =? 5760)
  || ((8192 <=? c) && (c <=? 8202))
  || (c =? 8232) || (c =? 8233) || (c =? 8239) || (c =? 8287) || (c =? 12288).

Definition ascii_digit (c : char) : bool := (48 <=? c) && (c <=? 57).
Definition ascii_upper (c : char) : bool := (65 <=? c) && (c <=? 90).
Definition ascii_lower (c : char) : bool := (97 <=? c) && (c <=? 122).
Definition ascii_word (c : char) : bool :=
  ascii_digit c || ascii_upper c || ascii_lower c || (c =? 95).

(** The Unicode tables behind [\d] (category Nd) and [\w] (alphanumerics and
    the underscore) are data of the interpreter, not of this repository:
    they are a parameter, with the facts about them that the proofs use. *)
Class UnicodeClasses := {
  is_digit : char -> bool;
  is_word : char -> bool;
  digit_ascii : forall c, c < 128 -> is_digit c = ascii_digit c;
  word_ascii : forall c, c < 128 -> is_word c = ascii_word c;
  digit_is_word : forall c, is_digit c = true -> is_word c = true;
  space_not_word : forall c, is_space c = true -> is_word c = false;
  euro_not_word : is_word EURO = false;
  dash_not_word : is_word EM_DASH = false;
  replacement_not_word : is_word REPLACEMENT_CHAR = false
}.

(** Case folding of the letters the patterns spell ([b], [r], [e], [u]):
    their only case variants are the ASCII capitals. *)
Definition lower (c : char) : char := if ascii_upper c then c + 32 else c.
Definition upper (c : char) : char := if ascii_lower c then c - 32 else c.

(** *** Python string literals

    [py] reads a literal with the escapes [\n], [\t], [\\], [\xHH] and
    [\uHHHH]; every other character stands for itself. *)

Definition hex_digit (a : ascii) : N :=
  let n := N_of_ascii a in
  if ascii_digit n then n - 48
  else if (97 <=? n) && (n <=? 102) then n - 87
  else if (65 <=? n) && (n <=? 70) then n - 55
  else 0.

Fixpoint py_chars (l : list ascii) : text :=
  match l with
  | [] => []
  | "\"%char :: "n"%char :: l' => NL :: py_chars l'
  | "\"%char :: "t"%char :: l' => 9 :: py_chars l'
  | "\"%char :: "\"%char :: l' => 92 :: py_chars l'
  | "\"%char :: "x"%char :: a :: b :: l' =>
      (16 * hex_digit a + hex_digit b) :: py_chars l'
  | "\"%char :: "u"%char :: a :: b :: c :: d :: l' =>
      (4096 * hex_digit a + 256 * hex_digit b + 16 * hex_digit c + hex_digit d)
        :: py_chars l'
  | a :: l' => N_of_ascii a :: py_chars l'
  end.

Definition py (s : string) : text := py_chars (list_ascii_of_string s).

(** *** [str.strip], [str.split], [str.join], [startswith], [endswith] *)

Fixpoint lstrip_by (p : char -> bool) (t : text) : text :=
  match t with
  | c :: t' => if p c then lstrip_by p t' else t
  | [] => []
  end.

Definition rstrip_by (p : char -> bool) (t : text) : text :=
  rev (lstrip_by p (rev t)).

Definition strip_by (p : char -> bool) (t : text) : text :=
  rstrip_by p (lstrip_by p t).

(** [s.strip()], [s.rstrip()] *)
Definition strip : text -> text := strip_by is_space.
Definition rstrip : text -> text := rstrip_by is_space.
(** [s.strip("\n")] *)
Definition strip_newlines : text -> text := strip_by (N.eqb NL).

(** [s.split(sep)] for a one-character separator: never an empty list. *)
Fixpoint split (sep : char) (t : text) : list text :=
  match t with
  | [] => [[]]
  | c :: t' =>
      if c =? sep then [] :: split sep t'
      else match split sep t' with
           | l :: ls => (c :: l) :: ls
           | [] => [[c]]
           end
  end.

(** [sep.join(parts)] *)
Fixpoint join (sep : text) (parts : list text) : text :=
  match parts with
  | [] => []
  | [l] => l
  | l :: ls => l ++ sep ++ join sep ls
  end.

Definition startswith (t : text) (c : char) : bool :=
  match t with
  | x :: _ => x =? c
  | [] => false
  end.

Definition endswith (t : text) (c : char) : bool := startswith (rev t) c.

(** ** Regular expressions *)

Inductive regex :=
| Lit (c : char)              (* a literal character *)
| Cls (p : char -> bool)      (* a class: \s \d \w [.,] [\s\S] *)
| Bnd                         (* \b *)
| Cat (r1 r2 : regex)         (* r1 r2 *)
| Opt (r : regex)             (* r?   greedy *)
| Star (r : regex)            (* r*   greedy *)
| Lazy (r : regex)            (* r*?  lazy *)
| Grp (i : nat) (r : regex).  (* (r), capture group number i *)

(** A sequence of pieces, [r+], and a literal word *)
Fixpoint Seq (rs : list regex) : regex :=
  match rs with
  | [] => Opt (Cls (fun _ => false))
  | [r] => r
  | r :: rs' => Cat r (Seq rs')
  end.

Definition Plus (r : regex) : regex := Cat r (Star r).

Definition Word (w : text) : regex := Seq (map Lit w).

(** A position of the matcher: the character before the cursor (for [\b]),
    the text from the cursor on, and the groups captured so far. *)
Record mstate := MState {
  before : option char;
  rest : text;
  groups : list (nat * text)
}.

Definition advance (c : char) (t : text) (s : mstate) : mstate :=
  MState (Some c) t (groups s).

Definition capture (i : nat) (s s' : mstate) : mstate :=
  MState (before s') (rest s')
         ((i, firstn (length (rest s) - length (rest s')) (rest s)) :: groups s').

Fixpoint group (i : nat) (gs : list (nat * text)) : text :=
  match gs with
  | [] => []
  | (j, t) :: gs' => if Nat.eqb i j then t else group i gs'
  end.

(** A replacement template: literal text and group references [\1]. *)
Inductive titem := TLit (t : text) | TGrp (i : nat).

Fixpoint expand (tpl : list titem) (gs : list (nat * text)) : text :=
  match tpl with
  | [] => []
  | TLit t :: tpl' => t ++ expand tpl' gs
  | TGrp i :: tpl' => group i gs ++ expand tpl' gs
  end.

Section Matcher.
Context {U : UnicodeClasses}.

(** [\b]: exactly one of the two neighbours is a word character. *)
Definition at_boundary (s : mstate) : bool :=
  xorb (match before s with Some c => is_word c | None => false end)
       (match rest s with c :: _ => is_word c | [] => false end).

(** Greedy repetition: one more round first (it has to consume), then stop. *)
Fixpoint star_greedy (step : mstate -> list mstate) (fuel : nat) (s : mstate)
  : list mstate :=
  match fuel with
  | O => [s]
  | S n =>
      flat_map (fun s' =>
                  if (length (rest s') <? length (rest s))%nat
                  then star_greedy step n s' else [])
               (step s) ++ [s]
  end.

(** Lazy repetition: stop first, then one more round. *)
Fixpoint star_lazy (step : mstate -> list mstate) (fuel : nat) (s : mstate)
  : list mstate :=
  match fuel with
  | O => [s]
  | S n =>
      s :: flat_map (fun s' =>
                       if (length (rest s') <? length (rest s))%nat
                       then star_lazy step n s' else [])
                    (step s)
  end.

(** All the ways [r] matches at [s], in the order a backtracking matcher
    tries them; [ic] is [re.IGNORECASE]. *)
Fixpoint rmatch (ic : bool) (r : regex) (s : mstate) : list mstate :=
  match r with
  | Lit c =>
      match rest s with
      | x :: t =>
          if (if ic then lower x =? lower c else x =? c)
          then [advance x t s] else []
      | [] => []
      end
  | Cls p =>
      match rest s with
      | x :: t => if p x then [advance x t s] else []
      | [] => []
      end
  | Bnd => if at_boundary s then [s] else []
  | Cat r1 r2 => flat_map (rmatch ic r2) (rmatch ic r1 s)
  | Opt r' => rmatch ic r' s ++ [s]
  | Star r' => star_greedy (rmatch ic r') (length (rest s)) s
  | Lazy r' => star_lazy (rmatch ic r') (length (rest s)) s
  | Grp i r' => map (capture i s) (rmatch ic r' s)
  end.

(** The match found at one position: the first in priority order. *)
Definition match_at (ic : bool) (r : regex) (prev : option char) (t : text)
  : option mstate :=
  hd_error (rmatch ic r (MState prev t [])).

(** [re.sub(r, tpl, t)]: scan from the left; at a match write the
    replacement and go on after it, otherwise copy one character.
    [skip] counts the characters of a match still to pass over.  (An
    empty match writes the replacement and copies the next character.) *)
Fixpoint sub_scan (ic : bool) (r : regex) (tpl : list titem)
         (prev : option char) (skip : nat) (t : text) : text :=
  match skip with
  | S k =>
      match t with
      | c :: t' => sub_scan ic r tpl (Some c) k t'
      | [] => []
      end
  | O =>
      match match_at ic r prev t with
      | Some m =>
          let out := expand tpl (groups m) in
          match t with
          | c :: t' =>
              match (length t - length (rest m))%nat with
              | O => out ++ c :: sub_scan ic r tpl (Some c) 0 t'
              | S k => out ++ sub_scan ic r tpl (Some c) k t'
              end
          | [] => out
          end
      | None =>
          match t with
          | c :: t' => c :: sub_scan ic r tpl (Some c) 0 t'
          | [] => []
          end
      end
  end.

Definition re_sub (ic : bool) (r : regex) (tpl : list titem) (t : text) : text :=
  sub_scan ic r tpl None 0 t.

(** [re.search(r, t)]: the match at the leftmost position that has one. *)
Fixpoint search_from (ic : bool) (r : regex) (prev : option char) (t : text)
  : option mstate :=
  match match_at ic r prev t with
  | Some m => Some m
  | None =>
      match t with
      | c :: t' => search_from ic r (Some c) t'
      | [] => None
      end
  end.

Definition re_search (ic : bool) (r : regex) (t : text) : option mstate :=
  search_from ic r None t.

End Matcher.

(** ** [text_cleaner.py] *)

Section TextCleaner.
Context {U : UnicodeClasses}.

Definition ws : regex := Cls is_space.

(** [r"<br\s*/?>"] *)
Definition BR_PATTERN : regex :=
  Seq [Lit 60; Lit 98; Lit 114; Star ws; Opt (Lit 47); Lit 62].

(** [rf"(\w)\s*{re.escape(REPLACEMENT_CHAR)}\s*(\w)"] *)
Definition BETWEEN_WORDS : regex :=
  Seq [Grp 1 (Cls is_word); Star ws; Lit REPLACEMENT_CHAR; Star ws;
       Grp 2 (Cls is_word)].

(** [rf"(\d)\s*{re.escape(REPLACEMENT_CHAR)}\s*"] *)
Definition AFTER_DIGIT : regex :=
  Seq [Grp 1 (Cls is_digit); Star ws; Lit REPLACEMENT_CHAR; Star ws].

(** [rf"\s*{re.escape(REPLACEMENT_CHAR)}\s*"] *)
Definition STANDALONE : regex :=
  Seq [Star ws; Lit REPLACEMENT_CHAR; Star ws].

(** [r"\beur\b"] *)
Definition EUR_TOKEN : regex := Seq [Bnd; Lit 101; Lit 117; Lit 114; Bnd].

(** [[.,]] *)
Definition is_separator (c : char) : bool := (c =? 46) || (c =? 44).

(** [\d+(?:[.,]\d+)?] *)
Definition AMOUNT : regex :=
  Cat (Plus (Cls is_digit)) (Opt (Cat (Cls is_separator) (Plus (Cls is_digit)))).

(** [r"(\d+(?:[.,]\d+)?)\s*\u20AC\s*"] *)
Definition AMOUNT_EURO : regex :=
  Seq [Grp 1 AMOUNT; Star ws; Lit EURO; Star ws].

(** [r"\n{3,}"] *)
Definition BLANK_RUN : regex := Seq [Lit NL; Lit NL; Lit NL; Star (Lit NL)].

(** Step 1: HTML line breaks become newlines. *)
Definition html_breaks (t : text) : text :=
  re_sub true BR_PATTERN [TLit [NL]] t.

(** Step 2: the replacement character, by its neighbours. *)
Definition fix_replacement (t : text) : text :=
  let t := re_sub false BETWEEN_WORDS
                  [TGrp 1; TLit [SPACE; EM_DASH; SPACE]; TGrp 2] t in
  let t := re_sub false AFTER_DIGIT [TGrp 1; TLit [EURO; SPACE]] t in
  re_sub false STANDALONE [TLit [SPACE; EM_DASH; SPACE]] t.

(** Step 3: currency. *)
Definition normalize_currency (t : text) : text :=
  let t := re_sub true EUR_TOKEN [TLit (py "EUR")] t in
  re_sub false AMOUNT_EURO [TGrp 1; TLit (py " EUR ")] t.

(** Step 4: the loop over [lines]; [merged] is the list built so far. *)
Definition is_continuation (line : text) : bool :=
  let stripped := strip line in
  endswith stripped PIPE && negb (startswith stripped PIPE).

Definition merge_step (merged : list text) (line : text) : list text :=
  let stripped := strip line in
  if endswith stripped PIPE && negb (startswith stripped PIPE)
     && negb (Nat.eqb (length merged) 0)
  then removelast merged ++ [last merged [] ++ [SPACE] ++ stripped]
  else merged ++ [line].

Definition merge_lines (lines : list text) : list text :=
  fold_left merge_step lines [].

(** Step 5: right-trim the lines, collapse blank runs, trim newlines. *)
Definition normalize_whitespace (merged : list text) : text :=
  let lines := map rstrip merged in
  let t := join [NL] lines in
  let t := re_sub false BLANK_RUN [TLit [NL; NL]] t in
  strip_newlines t.

(** The text as it reaches the line loop (steps 1 to 3). *)
Definition repaired (raw : text) : text :=
  normalize_currency (fix_replacement (html_breaks raw)).

Definition normalize_for_llm (raw : text) : text :=
  match raw with
  | [] => raw
  | _ => normalize_whitespace (merge_lines (split NL (repaired raw)))
  end.

End TextCleaner.

(** ** The world outside: errors, requests, JSON values *)

Inductive exn :=
| ValueError (msg : string)
| JSONDecodeError               (* a subclass of ValueError *)
| TypeError (msg : string)
| AttributeError (msg : string)
| ExternalError (code : N).     (* whatever the client library raises *)

Inductive result (A : Type) :=
| Ok (a : A)
| Raise (e : exn).
Arguments Ok {A} a.
Arguments Raise {A} e.

(** [except ValueError] catches these. *)
Definition is_value_error (e : exn) : bool :=
  match e with
  | ValueError _ | JSONDecodeError => true
  | _ => false
  end.

(** One call of [generate_content]. *)
Record request := Request {
  req_api_key : text;
  req_model : string;
  req_contents : text;
  req_config : string
}.

(** A computation: the requests it submitted, in order, and how it ended. *)
Definition io (A : Type) : Type := (list request * result A)%type.

Definition ret {A} (a : A) : io A := ([], Ok a).
Definition raise {A} (e : exn) : io A := ([], Raise e).
Definition bind {A B} (m : io A) (k : A -> io B) : io B :=
  match m with
  | (log, Ok a) => let (log', r) := k a in (log ++ log', r)
  | (log, Raise e) => (log, Raise e)
  end.
Definition lift {A} (r : result A) : io A := ([], r).

Notation "x <- m ;; k" := (bind m (fun x => k))
  (at level 61, m at next level, right associativity).

Definition requests {A} (m : io A) : list request := fst m.
Definition outcome {A} (m : io A) : result A := snd m.

#[warnings="-register-all"]
Inductive json :=
| JNull
| JBool (b : bool)
| JNumber (lexeme : text)
| JString (s : text)
| JArray (xs : list json)
| JObject (members : list (text * json)).

Definition is_object (v : json) : bool :=
  match v with
  | JObject _ => true
  | _ => false
  end.

Fixpoint text_eqb (a b : text) : bool :=
  match a, b with
  | [], [] => true
  | x :: a', y :: b' => (x =? y) && text_eqb a' b'
  | _, _ => false
  end.

Fixpoint is_prefix (a b : text) : bool :=
  match a, b with
  | [], _ => true
  | x :: a', y :: b' => (x =? y) && is_prefix a' b'
  | _ :: _, [] => false
  end.

(** [a in b] for two strings *)
Fixpoint is_substring (a b : text) : bool :=
  is_prefix a b ||
  match b with
  | [] => false
  | _ :: b' => is_substring a b'
  end.

(** [key in out] for a string [key], by the type of [out]: a key of a dict,
    an element of a list, a substring of a string; other values are not
    containers. *)
Definition py_in (key : text) (out : json) : result bool :=
  match out with
  | JObject members => Ok (existsb (fun kv => text_eqb (fst kv) key) members)
  | JArray xs =>
      Ok (existsb (fun x => match x with
                            | JString s => text_eqb s key
                            | _ => false
                            end) xs)
  | JString s => Ok (is_substring key s)
  | _ => Raise (TypeError "argument is not iterable")
  end.

(** The image model's answer, as [generate_image] reads it:
    [response.candidates], [candidates[0].content], [content.parts],
    [part.inline_data], [inline_data.data].  Each of them is optional in
    the client library: [None] where the answer leaves it out. *)
Definition bytes := list Byte.byte.
Record blob := Blob { data : option bytes }.
Record part := Part { inline_data : option blob }.
Record content_value := Content { parts : option (list part) }.
Record candidate := Candidate { content : option content_value }.
Record image_response := ImageResponse { candidates : option (list candidate) }.

(** What the client library does with a request: it answers, or it raises
    an exception of its own. *)
Inductive reply (A : Type) :=
| Answer (a : A)
| Failure (code : N).
Arguments Answer {A} a.
Arguments Failure {A} code.

(** What a call finds around it: the environment variable, and the two
    generators.  [response.text] is [None] or a string. *)
Record world := World {
  GEMINI_API_KEY : option text;
  text_generator : request -> reply (option text);
  image_generator : request -> reply image_response
}.

(** Submitting a request: it is logged, and the generator decides. *)
Definition submit {A} (generator : request -> reply A) (rq : request) : io A :=
  ([rq], match generator rq with
         | Answer a => Ok a
         | Failure code => Raise (ExternalError code)
         end).

Definition is_empty {A} (l : list A) : bool :=
  match l with
  | [] => true
  | _ => false
  end.

(** ** A reader and a writer for JSON text

    [json.loads] and [json.dumps] belong to the standard library; the
    contracts below take them as parameters.  This reader of the JSON
    grammar (numbers kept as their lexemes) and this writer instantiate them
    where a concrete run is needed. *)

Module PyJson.

Definition json_ws (c : char) : bool :=
  (c =? 32) || (c =? 9) || (c =? 10) || (c =? 13).

Definition skip_ws (t : text) : text := lstrip_by json_ws t.

Fixpoint span (p : char -> bool) (t : text) : text * text :=
  match t with
  | c :: t' => if p c then let (a, b) := span p t' in (c :: a, b) else ([], t)
  | [] => ([], [])
  end.

Definition expect (w : text) (t : text) : option text :=
  if is_prefix w t then Some (skipn (length w) t) else None.

Definition hex_value (c : char) : option N :=
  if ascii_digit c then Some (c - 48)
  else if (97 <=? c) && (c <=? 102) then Some (c - 87)
  else if (65 <=? c) && (c <=? 70) then Some (c - 55)
  else None.

Definition hex4 (a b c d : char) : option N :=
  match hex_value a, hex_value b, hex_value c, hex_value d with
  | Some x, Some y, Some z, Some u => Some (4096 * x + 256 * y + 16 * z + u)
  | _, _, _, _ => None
  end.

Definition simple_escape (c : char) : option char :=
  if c =? 34 then Some 34 else if c =? 92 then Some 92
  else if c =? 47 then Some 47 else if c =? 98 then Some 8
  else if c =? 102 then Some 12 else if c =? 110 then Some 10
  else if c =? 114 then Some 13 else if c =? 116 then Some 9
  else None.

(** The characters of a string after its opening quote, and what follows
    the closing quote. *)
Fixpoint string_body (t : text) : option (text * text) :=
  match t with
  | [] => None
  | 34 :: t' => Some ([], t')
  | 92 :: 117 :: a :: b :: c :: d :: t' =>
      match hex4 a b c d, string_body t' with
      | Some u, Some (s, r) => Some (u :: s, r)
      | _, _ => None
      end
  | 92 :: e :: t' =>
      match simple_escape e, string_body t' with
      | Some c, Some (s, r) => Some (c :: s, r)
      | _, _ => None
      end
  | c :: t' =>
      if (c <? 32) || (c =? 92) then None
      else match string_body t' with
           | Some (s, r) => Some (c :: s, r)
           | None => None
           end
  end.

(** [-? int frac? exp?]: the lexeme and the rest. *)
Definition number (t : text) : option (text * text) :=
  let (sign, t1) := match t with 45 :: t' => ([45], t') | _ => ([], t) end in
  let (int, t2) := span ascii_digit t1 in
  match int with
  | [] => None
  | 48 :: _ :: _ => None
  | _ =>
      let (frac, t3) :=
        match t2 with
        | 46 :: t' => let (ds, r) := span ascii_digit t' in
                      match ds with [] => ([], t2) | _ => (46 :: ds, r) end
        | _ => ([], t2)
        end in
      let (exp, t4) :=
        match t3 with
        | e :: t' =>
            if (e =? 101) || (e =? 69) then
              let (sg, t'') := match t' with
                               | 43 :: r => ([43], r)
                               | 45 :: r => ([45], r)
                               | _ => ([], t')
                               end in
              let (ds, r) := span ascii_digit t'' in
              match ds with [] => ([], t3) | _ => (e :: sg ++ ds, r) end
            else ([], t3)
        | [] => ([], t3)
        end in
      Some (sign ++ int ++ frac ++ exp, t4)
  end.

Section Containers.
Variable value : text -> option (json * text).

(** After [[] and a first element: [, value]* []] *)
Fixpoint elements (fuel : nat) (acc : list json) (t : text)
  : option (json * text) :=
  match fuel with
  | O => None
  | S f =>
      match skip_ws t with
      | 93 :: r => Some (JArray (rev acc), r)
      | 44 :: r =>
          match value r with
          | Some (v, r') => elements f (v :: acc) r'
          | None => None
          end
      | _ => None
      end
  end.

Definition member (t : text) : option ((text * json) * text) :=
  match skip_ws t with
  | 34 :: t1 =>
      match string_body t1 with
      | Some (k, t2) =>
          match skip_ws t2 with
          | 58 :: t3 =>
              match value t3 with
              | Some (v, r) => Some ((k, v), r)
              | None => None
              end
          | _ => None
          end
      | None => None
      end
  | _ => None
  end.

Fixpoint members (fuel : nat) (acc : list (text * json)) (t : text)
  : option (json * text) :=
  match fuel with
  | O => None
  | S f =>
      match skip_ws t with
      | 125 :: r => Some (JObject (rev acc), r)
      | 44 :: r =>
          match member r with
          | Some (kv, r') => members f (kv :: acc) r'
          | None => None
          end
      | _ => None
      end
  end.

End Containers.

Fixpoint value (fuel : nat) (t : text) : option (json * text) :=
  match fuel with
  | O => None
  | S f =>
      match skip_ws t with
      | (110 :: _) as t1 =>
          option_map (fun r => (JNull, r)) (expect (py "null") t1)
      | (116 :: _) as t1 =>
          option_map (fun r => (JBool true, r)) (expect (py "true") t1)
      | (102 :: _) as t1 =>
          option_map (fun r => (JBool false, r)) (expect (py "false") t1)
      | 34 :: t1 =>
          match string_body t1 with
          | Some (s, r) => Some (JString s, r)
          | None => None
          end
      | 91 :: t1 =>
          match skip_ws t1 with
          | 93 :: r => Some (JArray [], r)
          | _ =>
              match value f t1 with
              | Some (v, r) => elements (value f) (length r) [v] r
              | None => None
              end
          end
      | 123 :: t1 =>
          match skip_ws t1 with
          | 125 :: r => Some (JObject [], r)
          | _ =>
              match member (value f) t1 with
              | Some (kv, r) => members (value f) (length r) [kv] r
              | None => None
              end
          end
      | t1 =>
          match number t1 with
          | Some (lexeme, r) => Some (JNumber lexeme, r)
          | None => None
          end
      end
  end.

Definition loads (t : text) : option json :=
  match value (S (length t)) t with
  | Some (v, r) => if is_empty (skip_ws r) then Some v else None
  | None => None
  end.

(** [json.dumps(v, indent=2, ensure_ascii=False)] *)
Definition escape (c : char) : text :=
  if c =? 34 then [92; 34] else if c =? 92 then [92; 92]
  else if c =? 10 then [92; 110] else if c =? 13 then [92; 114]
  else if c =? 9 then [92; 116] else [c].

Definition quoted (s : text) : text := [34] ++ flat_map escape s ++ [34].

Definition pad (n : nat) : text := repeat SPACE n.

Fixpoint dumps_at (indent : nat) (v : json) : text :=
  match v with
  | JNull => py "null"
  | JBool true => py "true"
  | JBool false => py "false"
  | JNumber lexeme => lexeme
  | JString s => quoted s
  | JArray [] => py "[]"
  | JArray (x :: xs) =>
      [91; NL] ++ pad (indent + 2) ++ dumps_at (indent + 2) x
      ++ (fix more (l : list json) : text :=
            match l with
            | [] => []
            | y :: l' =>
                [44; NL] ++ pad (indent + 2) ++ dumps_at (indent + 2) y
                ++ more l'
            end) xs
      ++ [NL] ++ pad indent ++ [93]
  | JObject [] => py "{}"
  | JObject ((k, x) :: kvs) =>
      [123; NL] ++ pad (indent + 2) ++ quoted k ++ [58; SPACE]
      ++ dumps_at (indent + 2) x
      ++ (fix more (l : list (text * json)) : text :=
            match l with
            | [] => []
            | (k', y) :: l' =>
                [44; NL] ++ pad (indent + 2) ++ quoted k' ++ [58; SPACE]
                ++ dumps_at (indent + 2) y ++ more l'
            end) kvs
      ++ [NL] ++ pad indent ++ [125]
  end.

Definition dumps (v : json) : text := dumps_at 0 v.

End PyJson.

(** ** [receive_json.py] *)

Module ReceiveJson.
Section Contract.
Context {U : UnicodeClasses}.
(** [json.loads]: [None] stands for [json.JSONDecodeError]. *)
Variable json_loads : text -> option json.

Definition MODEL_ID : string := "gemini-2.5-pro".

Definition STRUCTURED_PROMPT : text :=
  py (String.concat EmptyString
    [ "You are extracting structured data from a document that contains a men";
      "u and one event.\n";
      "\n";
      "Output only valid JSON, with no markdown, no code fences, and no expla";
      "nation. Your response must be parseable by json.loads().\n";
      "Only actual ingredients should be stored in the variable 'ingredients'";
      " (this means that, for example, 'sweet banana' should be changed to ju";
      "st 'banana', 'tasty beef' should be changed to 'beef', etc.). However,";
      " something like 'apple juice' should remain the same because this is a";
      "n actual ingredient.\n";
      "For the 'event, the variable 'description' needs to contain only the m";
      "ost important information and it should be concise but still informati";
      "ve. The people should be informed in short about what the event is abo";
      "ut and thethings they need to do.\n";
      "Use this exact structure (use null for missing fields, omit optional k";
      "eys if entirely unknown):\n";
      "\n";
      "{\n";
      "  \x22menu_items\x22: [\n";
      "    {\n";
      "      \x22name\x22: \x22string or null\x22,\n";
      "      \x22category\x22: \x22string or null\x22,\n";
      "      \x22price\x22: number or null,\n";
      "      \x22ingredients\x22: \x22string or null\x22,\n";
      "      \x22currency\x22: \x22string or null\x22\n";
      "    }\n";
      "  ],\n";
      "  \x22event\x22: {\n";
      "    \x22title\x22: \x22string or null\x22,\n";
      "    \x22date\x22: \x22string or null\x22,\n";
      "    \x22time\x22: \x22string or null\x22,\n";
      "    \x22description\x22: \x22string or null\x22,\n";
      "    \x22location\x22: \x22string or null\x22\n";
      "  }\n";
      "}\n";
      "\n";
      "Rules:\n";
      "- Use only information that appears in the document. Do not invent or ";
      "hallucinate any data.\n";
      "- For menu items: category should be something like \x22Cocktails";
      "\x22, \x22Food\x22, etc. if present; otherwise a reasonable category o";
      "r null.\n";
      "- For price: use a number only (e.g. 14 for \x2214 EUR\x22). Use null ";
      "if price is missing or non-numeric (e.g. \x22price varies\x22).\n";
      "- For date: prefer YYYY-MM-DD when possible; otherwise keep the origin";
      "al format as string.\n";
      "- If there is no event in the document, set \x22event\x22 to {\x22titl";
      "e\x22: null, \x22date\x22: null, \x22description\x22: null, \x22locati";
      "on\x22: null}.\n";
      "- If there are no menu items, set \x22menu_items\x22 to [].\n";
      "- If there is a word in the final JSON which looks incomplete like it ";
      "was cut off, you can complete that specific word\n";
      "\n";
      "Document text:\n";
      "\n" ]%string).

Definition KEY_NOT_SET : exn :=
  ValueError "Gemini API key not set. Set GEMINI_API_KEY in your environment.".
Definition EMPTY_RESPONSE : exn :=
  ValueError "Gemini returned an empty response.".
Definition NOT_VALID_JSON : exn :=
  ValueError "Gemini response was not valid JSON".

Definition _get_api_key (w : world) : result text :=
  match GEMINI_API_KEY w with
  | None => Raise KEY_NOT_SET
  | Some key =>
      if is_empty key || is_empty (strip key) then Raise KEY_NOT_SET
      else Ok (strip key)
  end.

(** [r"```(?:json)?\s*([\s\S]*?)\s*```"] *)
Definition FENCE : regex :=
  Seq [Lit BACKTICK; Lit BACKTICK; Lit BACKTICK; Opt (Word (py "json"));
       Star (Cls is_space);
       Grp 1 (Lazy (Cls (fun c => is_space c || negb (is_space c))));
       Star (Cls is_space);
       Lit BACKTICK; Lit BACKTICK; Lit BACKTICK].

Definition _strip_json_block (raw : text) : text :=
  let raw := strip raw in
  match re_search false FENCE raw with
  | Some m => strip (group 1 (groups m))
  | None => raw
  end.

Definition extract_structured_data (w : world) (cleaned_text : text) : io json :=
  key <- lift (_get_api_key w) ;;
  let generation_config := "response_mime_type: application/json"%string in
  let prompt := STRUCTURED_PROMPT ++ cleaned_text in
  let rq := Request key MODEL_ID prompt generation_config in
  response_text <- submit (text_generator w) rq ;;
  match response_text with
  | None | Some [] => raise EMPTY_RESPONSE
  | Some t =>
      let t := _strip_json_block t in
      match json_loads t with
      | Some v => ret v
      | None => raise NOT_VALID_JSON
      end
  end.

End Contract.
End ReceiveJson.

(** ** [enrich_from_json.py] *)

Module EnrichFromJson.
Section Contract.
Context {U : UnicodeClasses}.
Variable json_loads : text -> option json.
(** [json.dumps(json_data, indent=2, ensure_ascii=False)] *)
Variable json_dumps : json -> text.

Definition MODEL_ID : string := "gemini-2.5-pro".

Definition ENRICH_PROMPT : text :=
  py (String.concat EmptyString
    [ "You are given a JSON object describing a menu and an event (e.g. for a";
      " bar or restaurant).\n";
      "\n";
      "Generate two things. Output only valid JSON, no markdown or explanatio";
      "n:\n";
      "\n";
      "{\n";
      "  \x22marketing_summary\x22: \x22A short marketing-style summary in 2";
      "\u20134 sentences that promotes the venue, menu, and event. Engaging a";
      "nd concise.\x22,\n";
      "  \x22image_prompt\x22: \x22A detailed image prompt suitable for an im";
      "age generation model (e.g. for a poster or social media card). Describ";
      "e the scene, style, mood, and key elements (food, drinks, event) in on";
      "e paragraph. The prompt should be informative but at the same time it ";
      "shouldn't include unnecessary details.\x22\n";
      "}\n";
      "\n";
      "Rules:\n";
      "- Base everything only on the provided JSON. Do not invent menu items ";
      "or event details.\n";
      "- marketing_summary: 2\u20134 sentences, promotional tone.\n";
      "- image_prompt: One paragraph, concrete and visual (style, colors, com";
      "position, key items).\n";
      "\n";
      "Input JSON:\n";
      "\n" ]%string).

Definition KEY_NOT_SET : exn :=
  ValueError
    "Gemini API key not set. Set GEMINI_API_KEY in your environment or .env.".
Definition EMPTY_RESPONSE : exn :=
  ValueError "Gemini returned an empty response.".
Definition MISSING_KEYS : exn :=
  ValueError "Response must contain 'marketing_summary' and 'image_prompt'.".

Definition _get_api_key (w : world) : result text :=
  match GEMINI_API_KEY w with
  | None => Raise KEY_NOT_SET
  | Some key =>
      if is_empty key || is_empty (strip key) then Raise KEY_NOT_SET
      else Ok (strip key)
  end.

Definition FENCE : regex :=
  Seq [Lit BACKTICK; Lit BACKTICK; Lit BACKTICK; Opt (Word (py "json"));
       Star (Cls is_space);
       Grp 1 (Lazy (Cls (fun c => is_space c || negb (is_space c))));
       Star (Cls is_space);
       Lit BACKTICK; Lit BACKTICK; Lit BACKTICK].

Definition _strip_json_block (raw : text) : text :=
  let raw := strip raw in
  match re_search false FENCE raw with
  | Some m => strip (group 1 (groups m))
  | None => raw
  end.

(** [if "marketing_summary" not in out or "image_prompt" not in out] *)
Definition lacks_a_key (out : json) : result bool :=
  match py_in (py "marketing_summary") out with
  | Raise e => Raise e
  | Ok false => Ok true
  | Ok true =>
      match py_in (py "image_prompt") out with
      | Raise e => Raise e
      | Ok b => Ok (negb b)
      end
  end.

Definition generate_summary_and_prompt (w : world) (json_data : json) : io json :=
  key <- lift (_get_api_key w) ;;
  let config := "response_mime_type: application/json"%string in
  let prompt := ENRICH_PROMPT ++ json_dumps json_data in
  let rq := Request key MODEL_ID prompt config in
  response_text <- submit (text_generator w) rq ;;
  match response_text with
  | None | Some [] => raise EMPTY_RESPONSE
  | Some t =>
      let t := _strip_json_block t in
      match json_loads t with
      | None => raise JSONDecodeError
      | Some out =>
          missing <- lift (lacks_a_key out) ;;
          if missing then raise MISSING_KEYS else ret out
      end
  end.

End Contract.
End EnrichFromJson.

(** ** [image_generation.py] *)

Module ImageGeneration.

Definition MODEL_ID : string := "gemini-3-pro-image-preview".

Definition KEY_NOT_SET : exn :=
  ValueError
    "Gemini API key not set. Set GEMINI_API_KEY in your environment or .env.".
Definition PROMPT_EMPTY : exn := ValueError "Prompt must be non-empty.".

Definition _get_api_key (w : world) : result text :=
  match GEMINI_API_KEY w with
  | None => Raise KEY_NOT_SET
  | Some key =>
      if is_empty key || is_empty (strip key) then Raise KEY_NOT_SET
      else Ok (strip key)
  end.

(** The loop over [response.candidates[0].content.parts]: the first part
    whose inline data is there and not empty. *)
Fixpoint first_inline_data (ps : list part) : option bytes :=
  match ps with
  | [] => None
  | p :: ps' =>
      match inline_data p with
      | Some b =>
          match data b with
          | Some ((_ :: _) as raw) => Some raw
          | _ => first_inline_data ps'
          end
      | None => first_inline_data ps'
      end
  end.

(** [response.candidates[0].content.parts] where [content] is [None], and
    the [for] loop over [parts] where that is [None]. *)
Definition NO_CONTENT : exn :=
  AttributeError "'NoneType' object has no attribute 'parts'".
Definition NO_PARTS : exn := TypeError "'NoneType' object is not iterable".

Definition generate_image (w : world) (prompt : text) : io (option bytes) :=
  if is_empty prompt || is_empty (strip prompt) then raise PROMPT_EMPTY
  else
    key <- lift (_get_api_key w) ;;
    let rq := Request key MODEL_ID (strip prompt)
                      "response_modalities: IMAGE" in
    response <- submit (image_generator w) rq ;;
    match candidates response with
    | None | Some [] => ret None
    | Some (c :: _) =>
        match content c with
        | None => raise NO_CONTENT
        | Some ct =>
            match parts ct with
            | None => raise NO_PARTS
            | Some ps => ret (first_inline_data ps)
            end
        end
    end.

End ImageGeneration.

(** ** Concrete worlds and inputs for running the contracts *)

(** A world whose generators give the same answer to every request. *)
Definition scripted_world (key : option text) (response_text : option text)
           (image : image_response) : world :=
  World key (fun _ => Answer response_text) (fun _ => Answer image).

Definition NO_IMAGE : image_response := ImageResponse None.

(** A record with no menu items and an event of nulls. *)
Definition EMPTY_RECORD : json :=
  JObject [(py "menu_items", JArray []);
           (py "event", JObject [(py "title", JNull); (py "date", JNull)])].

(** A dict has the key. *)
Definition has_key (key : text) (members : list (text * json)) : Prop :=
  exists v, In (key, v) members.

(** [s] is empty or has whitespace only. *)
Definition whitespace_only (s : text) : bool := forallb is_space s.

(** The API key is absent, empty or whitespace-only. *)
Definition key_missing (w : world) : bool :=
  match GEMINI_API_KEY w with
  | None => true
  | Some key => whitespace_only key
  end.

(** A part that carries no inline binary data. *)
Definition no_inline_data (p : part) : Prop :=
  inline_data p = None \/
  exists b, inline_data p = Some b /\ (data b = None \/ data b = Some []).

(** The text [s] inside a fenced block: the opening fence with its tag
    ([json] or nothing), a newline, [s], a newline, the closing fence. *)
Definition FENCE_MARK : text := [BACKTICK; BACKTICK; BACKTICK].

Definition fenced (tag : text) (s : text) : text :=
  FENCE_MARK ++ tag ++ [NL] ++ s ++ [NL] ++ FENCE_MARK.

Definition has_fence (s : text) : bool := is_substring FENCE_MARK s.

From Stdlib Require Import ZArith.

(** ** Runs with effects

    The callers of the contracts print, read and write files and talk to
    dialogs.  A run is the list of the effects it had, in order, and how it
    ended: with a value or with an exception. *)

Inductive ended (X A : Type) :=
| Returned (a : A)
| Raised (x : X).
Arguments Returned {X A} a.
Arguments Raised {X A} x.

Definition proc (E X A : Type) : Type := (list E * ended X A)%type.

Section Runs.
Context {E X : Type}.

Definition done {A} (a : A) : proc E X A := ([], Returned a).
Definition fail {A} (x : X) : proc E X A := ([], Raised x).
Definition emit (e : E) : proc E X unit := ([e], Returned tt).
Definition andthen {A B} (m : proc E X A) (k : A -> proc E X B) : proc E X B :=
  match m with
  | (log, Returned a) => let (log', r) := k a in (log ++ log', r)
  | (log, Raised x) => (log, Raised x)
  end.
Definition effects {A} (m : proc E X A) : list E := fst m.
Definition ending {A} (m : proc E X A) : ended X A := snd m.

End Runs.

Notation "x <~ m ;; k" := (andthen m (fun x => k))
  (at level 61, m at next level, right associativity).
Notation "m ;;; k" := (andthen m (fun _ => k))
  (at level 61, right associativity).

(** The message boxes of the three windows: [messagebox.showwarning],
    [showerror] and [showinfo], each with its title and message. *)
Inductive box :=
| ShowWarning (title message : text)
| ShowError (title message : text)
| ShowInfo (title message : text).

(** A callback of a window: its effects, the state of the window it
    leaves, and the exception that leaves it uncaught, if any. *)
Definition callback (E X S : Type) : Type := (list E * S * option X)%type.

Definition effects_of {E X S} (c : callback E X S) : list E := fst (fst c).
Definition state_of {E X S} (c : callback E X S) : S := snd (fst c).
Definition escaped {E X S} (c : callback E X S) : option X := snd c.

(** What [widget.get("1.0", tk.END)] returns of a text widget with
    [content]: the content and the newline the widget ends with. *)
Definition widget_get (content : text) : text := content ++ [NL].

(** ** [enrich_from_json.py]: [load_json] and [main] *)

Module EnrichMain.

(** What ends a run of [main] besides the exceptions of the contracts. *)
Inductive crash :=
| Exn (e : exn)
| KeyError (key : text).

(** The file picker [main] opens when it has no path: [tkinter] cannot be
    imported, or the dialog raises, or it answers with a string (empty when
    the user cancels). *)
Inductive picker :=
| ImportError
| DialogRaises (e : exn)
| Selected (path_str : text).

Section Cli.
Context {U : UnicodeClasses}.
Variable json_loads : text -> option json.
Variable json_dumps : json -> text.

Variable path : Type.

(** What [main] finds around it.  Of [pathlib]: [Path(s)], [str(p)] as an
    f-string prints it, and [p / name]; [str(e)] of an exception, and what
    [print] shows of a value that is no string; the file system, where
    [open_read] is [open(p, encoding="utf-8")] and the read of [json.load],
    and [mkdir] and [write] give the exception the call raises, if any. *)
Record machine := Machine {
  gemini : world;
  file_picker : picker;
  Path : text -> path;
  path_str : path -> text;
  joinpath : path -> text -> path;
  exn_str : exn -> text;
  value_repr : json -> text;
  path_exists : path -> bool;
  open_read : path -> result text;
  mkdir : path -> option exn;
  write : path -> text -> option exn
}.

Inductive effect :=
| Sent (rq : request)                   (* [generate_content] *)
| Stderr (line : text)                  (* [print(line, file=sys.stderr)] *)
| Stdout (line : text)                  (* [print(line)] *)
| Mkdir (dir : path)                    (* [mkdir(parents=True, exist_ok=True)] *)
| WriteText (file : path) (data : text). (* [write_text(data, encoding="utf-8")] *)

Definition ROOT_NOT_OBJECT : exn := ValueError "JSON root must be an object.".
Definition KEYS_REQUIRED : exn :=
  ValueError "JSON must contain 'menu_items' and 'event'.".

(** [key in data] for a dict *)
Definition has_member (key : text) (members : list (text * json)) : bool :=
  existsb (fun kv => text_eqb (fst kv) key) members.

Definition load_json (m : machine) (p : path) : result json :=
  match open_read m p with
  | Raise e => Raise e
  | Ok content =>
      match json_loads content with
      | None => Raise JSONDecodeError
      | Some data =>
          match data with
          | JObject members =>
              if negb (has_member (py "menu_items") members)
                 || negb (has_member (py "event") members)
              then Raise KEYS_REQUIRED
              else Ok data
          | _ => Raise ROOT_NOT_OBJECT
          end
      end
  end.

(** A contract's run as a run of [main]. *)
Definition of_io {A} (m : io A) : proc effect crash A :=
  (map Sent (requests m),
   match outcome m with
   | Ok a => Returned a
   | Raise e => Raised (Exn e)
   end).

(** [result[key]]: of a dict the value stored last under the key; a list
    and a string take no string index; the other values take none. *)
Definition getitem (v : json) (key : text) : proc effect crash json :=
  match v with
  | JObject members =>
      match find (fun kv => text_eqb (fst kv) key) (rev members) with
      | Some kv => done (snd kv)
      | None => fail (KeyError key)
      end
  | JArray _ => fail (Exn (TypeError "list indices must be integers or slices, not str"))
  | JString _ => fail (Exn (TypeError "string indices must be integers"))
  | _ => fail (Exn (TypeError "object is not subscriptable"))
  end.

(** [print(value)] *)
Definition print (m : machine) (v : json) : proc effect crash unit :=
  emit (Stdout match v with
               | JString s => s
               | _ => value_repr m v
               end).

(** [file.write_text(value, encoding="utf-8")]: a value that is no string
    is refused before the file is opened. *)
Definition write_text (m : machine) (file : path) (v : json)
  : proc effect crash unit :=
  match v with
  | JString s =>
      ([WriteText file s],
       match write m file s with
       | None => Returned tt
       | Some e => Raised (Exn e)
       end)
  | _ => fail (Exn (TypeError "data must be str"))
  end.

Definition make_dir (m : machine) (dir : path) : proc effect crash unit :=
  ([Mkdir dir],
   match mkdir m dir with
   | None => Returned tt
   | Some e => Raised (Exn e)
   end).

Definition NO_FILE_SELECTED : text := py "No file selected.".
Definition TKINTER_REQUIRED : text :=
  py "Error: json_file is required when tkinter is not available.".

(** After the [try] block: the two outputs are printed and, with an output
    directory, written. *)
Definition report (m : machine) (output_dir : option path) (result : json)
  : proc effect crash N :=
  summary <~ getitem result (py "marketing_summary") ;;
  image_prompt <~ getitem result (py "image_prompt") ;;
  emit (Stdout (py "--- Marketing summary ---")) ;;;
  print m summary ;;;
  emit (Stdout (py "\n--- Image prompt ---")) ;;;
  print m image_prompt ;;;
  match output_dir with
  | Some dir =>
      make_dir m dir ;;;
      write_text m (joinpath m dir (py "summary.txt")) summary ;;;
      write_text m (joinpath m dir (py "image_prompt.txt")) image_prompt ;;;
      emit (Stdout (py "\nSaved to "
                    ++ path_str m (joinpath m dir (py "summary.txt"))
                    ++ py " and "
                    ++ path_str m (joinpath m dir (py "image_prompt.txt")))) ;;;
      done 0
  | None => done 0
  end.

(** [main], from the parsed arguments [args.json_file] and
    [args.output_dir] on. *)
Definition main (m : machine) (json_file output_dir : option path)
  : proc effect crash N :=
  match
    match json_file with
    | Some p => inl p
    | None =>
        match file_picker m with
        | ImportError => inr ([Stderr TKINTER_REQUIRED], Returned 1)
        | DialogRaises e => inr ([], Raised (Exn e))
        | Selected answer =>
            if is_empty answer
            then inr ([Stderr NO_FILE_SELECTED], Returned 1)
            else inl (Path m answer)
        end
    end
  with
  | inr stop => stop
  | inl json_path =>
      if negb (path_exists m json_path)
      then ([Stderr (py "Error: file not found: " ++ path_str m json_path)],
            Returned 1)
      else
        match of_io (data <- lift (load_json m json_path) ;;
                     EnrichFromJson.generate_summary_and_prompt
                       json_loads json_dumps (gemini m) data) with
        | (log, Raised (Exn e)) =>
            if is_value_error e
            then (log ++ [Stderr (py "Error: " ++ exn_str m e)], Returned 1)
            else (log, Raised (Exn e))
        | (log, Raised x) => (log, Raised x)
        | (log, Returned result) =>
            let (log', r) := report m output_dir result in (log ++ log', r)
        end
  end.

End Cli.

Arguments gemini {path} m.
Arguments file_picker {path} m.
Arguments Path {path} m _.
Arguments path_str {path} m _.
Arguments joinpath {path} m _ _.
Arguments exn_str {path} m _.
Arguments value_repr {path} m _.
Arguments path_exists {path} m _.
Arguments open_read {path} m _.
Arguments mkdir {path} m _.
Arguments write {path} m _ _.
Arguments Sent {path} rq.
Arguments Stderr {path} line.
Arguments Stdout {path} line.
Arguments Mkdir {path} dir.
Arguments WriteText {path} file data.
Arguments load_json json_loads {path} m p.
Arguments of_io {path A} m.
Arguments getitem {path} v key.
Arguments print {path} m v.
Arguments write_text {path} m file v.
Arguments make_dir {path} m dir.
Arguments report {path} m output_dir result.
Arguments main {U} json_loads json_dumps {path} m json_file output_dir.

End EnrichMain.

(** ** [pdf_extractor.py] *)

Module PdfExtractor.

(** The exceptions [main] tells apart: it catches the first two. *)
Inductive error :=
| FileNotFoundError (msg : text)
| ValueError (msg : text)
| OtherError (code : N).

Section Extractor.
Variable path : Type.

(** [pathlib] and the file system, and the converter
    [pymupdf4llm.to_markdown(str(path), page_separators=..,
    show_progress=..)]. *)
Record system := System {
  resolve : path -> path;
  path_str : path -> text;
  suffix : path -> text;
  path_exists : path -> bool;
  is_file : path -> bool;
  to_markdown : text -> bool -> bool -> ended error text;
  write : path -> text -> option error
}.

Inductive effect :=
| ToMarkdown (file : text) (page_separators show_progress : bool)
| WriteText (file : path) (data : text)
| Stderr (line : text)                  (* [print(line, file=sys.stderr)] *)
| Stdout (data : text).                 (* [print(data, end="")] *)

(** [s.lower()], compared with [".pdf"]: the only characters it turns into
    [p], [d] or [f] are the ASCII capitals. *)
Definition str_lower (s : text) : text := map lower s.

(** [pdf_path] is the path [Path(pdf_path)] stands for, [output_path] the
    one of [Path(output_path)]. *)
Definition extract_text (s : system) (pdf_path : path)
           (output_path : option path) (page_separators show_progress : bool)
  : proc effect error text :=
  let p := resolve s pdf_path in
  if negb (path_exists s p)
  then fail (FileNotFoundError (py "PDF file not found: " ++ path_str s p))
  else if negb (is_file s p)
  then fail (ValueError (py "Path is not a file: " ++ path_str s p))
  else if negb (text_eqb (str_lower (suffix s p)) (py ".pdf"))
  then fail (ValueError (py "File is not a PDF (extension: " ++ suffix s p
                         ++ py "): " ++ path_str s p))
  else
    text <~ ([ToMarkdown (path_str s p) page_separators show_progress],
             to_markdown s (path_str s p) page_separators show_progress) ;;
    match output_path with
    | Some o =>
        let out := resolve s o in
        ([WriteText out text],
         match write s out text with
         | None => Returned tt
         | Some e => Raised e
         end) ;;;
        done text
    | None => done text
    end.

(** [except (FileNotFoundError, ValueError) as e]: [str(e)] of an exception
    the clause catches. *)
Definition caught (e : error) : option text :=
  match e with
  | FileNotFoundError msg | ValueError msg => Some msg
  | OtherError _ => None
  end.

(** [main], from the parsed arguments on. *)
Definition main (s : system) (input_pdf : path) (output : option path)
           (page_separators progress : bool) : proc effect error N :=
  match extract_text s input_pdf output page_separators progress with
  | (log, Raised e) =>
      match caught e with
      | Some msg => (log ++ [Stderr (py "Error: " ++ msg)], Returned 1)
      | None => (log, Raised e)
      end
  | (log, Returned text) =>
      match output with
      | None => (log ++ [Stdout text], Returned 0)
      | Some _ => (log, Returned 0)
      end
  end.

End Extractor.

Arguments resolve {path} s _.
Arguments path_str {path} s _.
Arguments suffix {path} s _.
Arguments path_exists {path} s _.
Arguments is_file {path} s _.
Arguments to_markdown {path} s _ _ _.
Arguments write {path} s _ _.
Arguments ToMarkdown {path} file page_separators show_progress.
Arguments WriteText {path} file data.
Arguments Stderr {path} line.
Arguments Stdout {path} data.
Arguments extract_text {path} s pdf_path output_path page_separators show_progress.
Arguments main {path} s input_pdf output page_separators progress.

End PdfExtractor.

(** ** [ui_json_generation.py]: the heading styles *)

Module UiJsonGeneration.

Definition HASH : char := 35.

(** The calls on the text widget: [tag_configure(f"h{level}",
    font=(family, size, "bold"))] and [tag_add(f"h{level}", f"{i}.0",
    f"{i}.end")]. *)
Inductive styling :=
| TagConfigure (level : nat) (family : text) (size : Z)
| TagAdd (level : nat) (i : nat).

(** The loop [for c in stripped] that counts the leading [#]. *)
Fixpoint count_hashes (stripped : text) : nat :=
  match stripped with
  | c :: t => if c =? HASH then S (count_hashes t) else O
  | [] => O
  end.

(** The body of the loop over the lines: the level of the tag the line
    gets, if it gets one. *)
Definition heading_level (line : text) : option nat :=
  let stripped := lstrip_by is_space line in
  if negb (startswith stripped HASH) then None
  else
    let level := count_hashes stripped in
    if (1 <=? level)%nat && (level <=? 6)%nat
       && (level <? length stripped)%nat
       && (nth level stripped 0 =? SPACE)
    then Some level
    else None.

(** [for i, line in enumerate(lines, start=i)] *)
Fixpoint tag_lines (i : nat) (lines : list text) : list styling :=
  match lines with
  | [] => []
  | line :: rest =>
      match heading_level line with
      | Some level => [TagAdd level i]
      | None => []
      end ++ tag_lines (S i) rest
  end.

(** [base_family] and [base_size] are those of [TkDefaultFont], [content]
    is what [widget.get("1.0", tk.END)] returns. *)
Definition _apply_heading_styles (base_family : text) (base_size : Z)
           (content : text) : list styling :=
  map (fun level =>
         TagConfigure level base_family (base_size + (7 - Z.of_nat level))%Z)
      (seq 1 6)
  ++ tag_lines 1 (split NL content).

(** *** The callbacks of the window *)

Section Window.
Context {U : UnicodeClasses}.
Variable json_loads : text -> option json.
Variable json_dumps : json -> text.
Variable path : Type.

(** What the callbacks find around them: [Path(s)], the file system and
    the converter, [TkDefaultFont], the generator, [str(e)], and
    [open(path, "w", encoding="utf-8")] with its [write]. *)
Record desk := Desk {
  Path : text -> path;
  files : PdfExtractor.system path;
  base_family : text;
  base_size : Z;
  gemini : world;
  exn_str : exn -> text;
  write_file : text -> text -> option exn
}.

(** The window: the path variable and the content of the result area. *)
Record app := App {
  selected_path : text;
  result_text : text
}.

Inductive effect :=
| Box (b : box)
| Update                             (* [root.update()] *)
| Pdf (e : PdfExtractor.effect path) (* what [extract_text] did *)
| Styled (calls : list styling)      (* what [_apply_heading_styles] did *)
| Sent (rq : request)                (* [generate_content] *)
| Window (title content : text)      (* the new window and its text area *)
| WriteFile (file : text) (data : text).

Definition EXTRACTING : text := py "Extracting\u2026".

(** [answer] is what [filedialog.askopenfilename] returns. *)
Definition choose_file (answer : text) (a : app) : app :=
  if is_empty answer then a else App answer (result_text a).

Definition do_extract (d : desk) (a : app)
  : callback effect PdfExtractor.error app :=
  let path := strip (selected_path a) in
  if is_empty path
  then ([Box (ShowWarning (py "No file")
                          (py "Please select a PDF file first."))], a, None)
  else
    let extracting := App (selected_path a) EXTRACTING in
    match PdfExtractor.extract_text (files d) (Path d path) None false false
    with
    | (log, Returned text) =>
        let text := normalize_for_llm text in
        (Update :: map Pdf log
         ++ [Styled (_apply_heading_styles (base_family d) (base_size d)
                                           (widget_get text))],
         App (selected_path a) text, None)
    | (log, Raised e) =>
        match PdfExtractor.caught e with
        | Some msg =>
            (Update :: map Pdf log ++ [Box (ShowError (py "Error") msg)],
             extracting, None)
        | None => (Update :: map Pdf log, extracting, Some e)
        end
    end.

(** Both handlers ([except ValueError], [except Exception]) show the same
    box: nothing leaves the callback. *)
Definition do_get_json (d : desk) (a : app) : list effect :=
  let text := strip (widget_get (result_text a)) in
  if is_empty text
  then [Box (ShowWarning
               (py "No text")
               (py "Extract text from a PDF first, then click Get JSON."))]
  else
    match ReceiveJson.extract_structured_data json_loads (gemini d) text with
    | (log, Ok data) =>
        map Sent log ++ [Window (py "Structured JSON") (json_dumps data)]
    | (log, Raise e) =>
        map Sent log ++ [Box (ShowError (py "Error") (exn_str d e))]
    end.

(** The button of the new window; [answer] is what
    [filedialog.asksaveasfilename] returns, [area] the content of the text
    area. *)
Definition save_json (d : desk) (answer area : text)
  : list effect * option exn :=
  if is_empty answer then ([], None)
  else
    match write_file d answer (widget_get area) with
    | None =>
        ([WriteFile answer (widget_get area);
          Box (ShowInfo (py "Saved") (py "Saved to " ++ answer))], None)
    | Some e => ([WriteFile answer (widget_get area)], Some e)
    end.

End Window.

Arguments Path {path} d _.
Arguments files {path} d.
Arguments base_family {path} d.
Arguments base_size {path} d.
Arguments gemini {path} d.
Arguments exn_str {path} d _.
Arguments write_file {path} d _ _.
Arguments Box {path} b.
Arguments Update {path}.
Arguments Pdf {path} e.
Arguments Styled {path} calls.
Arguments Sent {path} rq.
Arguments Window {path} title content.
Arguments WriteFile {path} file data.
Arguments do_extract {U path} d a.
Arguments do_get_json {U} json_loads json_dumps {path} d a.
Arguments save_json {path} d answer area.

End UiJsonGeneration.

(** ** [ui_enrich.py] *)

Module UiEnrich.
Section Window.
Context {U : UnicodeClasses}.
Variable json_loads : text -> option json.
Variable json_dumps : json -> text.
Variable path : Type.

(** The two text areas of the window. *)
Inductive area := SummaryArea | PromptArea.

(** What the callbacks find around them: the machine of [load_json] and
    the contract, the string a text widget shows for a value that is no
    string, and [str(e)] of the [TclError] an area raises when [insert] is
    given [None] (the argument list of the Tcl call ends at a [None], and
    the call lacks its text). *)
Record desk := Desk {
  machine : EnrichMain.machine path;
  widget_str : json -> text;
  tcl_error_str : area -> text
}.

(** The window: the path variable and the contents of the two areas. *)
Record app := App {
  selected_path : text;
  summary_text : text;
  prompt_text : text
}.

Inductive effect :=
| Box (b : box)
| Update                             (* [root.update()] *)
| Sent (rq : request)
| AskDirectory                       (* [filedialog.askdirectory] *)
| WriteText (file : path) (data : text).

Definition GENERATING : text := py "Generating\u2026".

(** [str(e)] *)
Definition crash_str (d : desk) (x : EnrichMain.crash) : text :=
  match x with
  | EnrichMain.Exn e => EnrichMain.exn_str (machine d) e
  | EnrichMain.KeyError key => [39] ++ key ++ [39]
  end.

(** What the [try] block of [do_generate] raises: what ends the contract
    or [result[key]], or the [TclError] of an area. *)
Inductive failure :=
| Crash (x : EnrichMain.crash)
| TclError (w : area).

Definition failure_str (d : desk) (f : failure) : text :=
  match f with
  | Crash x => crash_str d x
  | TclError w => tcl_error_str d w
  end.

(** What an empty text widget holds after [insert(tk.END, value)] of a
    value that is not [None]. *)
Definition widget_text (d : desk) (v : json) : text :=
  match v with
  | JString s => s
  | _ => widget_str d v
  end.

(** [widget.insert(tk.END, value)] into the empty area [w] *)
Definition inserted (d : desk) (w : area) (v : json) : ended failure text :=
  match v with
  | JNull => Raised (TclError w)
  | _ => Returned (widget_text d v)
  end.

(** [result[key]] *)
Definition index (result : json) (key : text)
  : ended EnrichMain.crash json :=
  ending (@EnrichMain.getitem path result key).

(** [answer] is what [filedialog.askopenfilename] returns. *)
Definition choose_file (answer : text) (a : app) : app :=
  if is_empty answer then a
  else App answer (summary_text a) (prompt_text a).

(** Both handlers show the same box: nothing leaves the callback. *)
Definition do_generate (d : desk) (a : app) : list effect * app :=
  let m := machine d in
  let path_str := strip (selected_path a) in
  if is_empty path_str
  then ([Box (ShowWarning (py "No file")
                          (py "Please select a JSON file first."))], a)
  else
    let path := EnrichMain.Path m path_str in
    if negb (EnrichMain.path_exists m path)
    then ([Box (ShowError (py "Error")
                          (py "File not found: "
                           ++ EnrichMain.path_str m path))], a)
    else
      let failed (x : failure) := Box (ShowError (py "Error")
                                                 (failure_str d x)) in
      match
        data <- lift (EnrichMain.load_json json_loads m path) ;;
        EnrichFromJson.generate_summary_and_prompt
          json_loads json_dumps (EnrichMain.gemini m) data
      with
      | (log, Raise e) =>
          (Update :: map Sent log ++ [failed (Crash (EnrichMain.Exn e))],
           App (selected_path a) GENERATING [])
      | (log, Ok result) =>
          match index result (py "marketing_summary") with
          | Raised x =>
              (Update :: map Sent log ++ [failed (Crash x)],
               App (selected_path a) [] [])
          | Returned summary =>
              match inserted d SummaryArea summary with
              | Raised x =>
                  (Update :: map Sent log ++ [failed x],
                   App (selected_path a) [] [])
              | Returned summary_shown =>
                  match index result (py "image_prompt") with
                  | Raised x =>
                      (Update :: map Sent log ++ [failed (Crash x)],
                       App (selected_path a) summary_shown [])
                  | Returned image_prompt =>
                      match inserted d PromptArea image_prompt with
                      | Raised x =>
                          (Update :: map Sent log ++ [failed x],
                           App (selected_path a) summary_shown [])
                      | Returned prompt_shown =>
                          (Update :: map Sent log,
                           App (selected_path a) summary_shown prompt_shown)
                      end
                  end
              end
          end
      end.

(** [file.write_text(data, encoding="utf-8")] *)
Definition write_text (d : desk) (file : path) (data : text)
  : list effect * option exn :=
  ([WriteText file data], EnrichMain.write (machine d) file data).

(** [answer] is what [filedialog.askdirectory] returns, if it is asked. *)
Definition do_save (d : desk) (answer : text) (a : app)
  : list effect * option exn :=
  let m := machine d in
  let summary := strip (widget_get (summary_text a)) in
  let image_prompt := strip (widget_get (prompt_text a)) in
  if is_empty summary && is_empty image_prompt
  then ([Box (ShowWarning (py "Nothing to save") (py "Generate first."))],
        None)
  else if is_empty answer then ([AskDirectory], None)
  else
    let out := EnrichMain.Path m answer in
    let saved := Box (ShowInfo (py "Saved")
                               (py "Saved to " ++ EnrichMain.path_str m out)) in
    let first :=
      if is_empty summary then ([], None)
      else write_text d (EnrichMain.joinpath m out (py "summary.txt"))
                      summary in
    match first with
    | (log, Some e) => (AskDirectory :: log, Some e)
    | (log, None) =>
        let second :=
          if is_empty image_prompt then ([], None)
          else write_text d (EnrichMain.joinpath m out (py "image_prompt.txt"))
                          image_prompt in
        match second with
        | (log', Some e) => (AskDirectory :: log ++ log', Some e)
        | (log', None) => (AskDirectory :: log ++ log' ++ [saved], None)
        end
    end.

End Window.

Arguments machine {path} d.
Arguments widget_str {path} d _.
Arguments Box {path} b.
Arguments Update {path}.
Arguments Sent {path} rq.
Arguments AskDirectory {path}.
Arguments WriteText {path} file data.
Arguments tcl_error_str {path} d _.
Arguments crash_str {path} d x.
Arguments failure_str {path} d f.
Arguments widget_text {path} d v.
Arguments inserted {path} d w v.
Arguments do_generate {U} json_loads json_dumps {path} d a.
Arguments write_text {path} d file data.
Arguments do_save {path} d answer a.

End UiEnrich.

(** ** [ui_image_generation.py] *)

Module UiImageGeneration.
Section Window.
(** A [PhotoImage]. *)
Variable photo : Type.

(** What the callbacks find around them: the generator, [str(e)], the
    block that opens the image with PIL, scales it to at most 500 pixels a
    side and makes the [PhotoImage] (it gives the photo, or [str(e)] of the
    exception it raises), and [Path(path).write_bytes]. *)
Record desk := Desk {
  gemini : world;
  exn_str : exn -> text;
  display : bytes -> ended text photo;
  write_bytes : text -> bytes -> option exn
}.

(** The window: the two variables of [main], and what the label shows. *)
Record app := App {
  current_photo : option photo;
  current_image_bytes : option bytes;
  label_image : option photo;
  label_text : text
}.

Inductive effect :=
| Box (b : box)
| Update                             (* [root.update()] *)
| Sent (rq : request)
| AskSaveAsFilename                  (* [filedialog.asksaveasfilename] *)
| WriteBytes (file : text) (data : bytes).

Definition PLACEHOLDER : text := py "Generate an image to see it here.".
Definition GENERATING : text := py "Generating\u2026".

(** [s.lower()], searched for [quota] and [resource_exhausted]: no other
    character than an ASCII capital becomes one of their letters. *)
Definition str_lower (s : text) : text := map lower s.

(** The title of the error box for an exception that is no [ValueError]. *)
Definition error_title (err_msg : text) : text :=
  if is_substring (py "429") err_msg
     || is_substring (py "quota") (str_lower err_msg)
     || is_substring (py "resource_exhausted") (str_lower err_msg)
  then py "Quota exceeded"
  else py "Error".

(** [content] is what the prompt area holds.  Nothing leaves the
    callback. *)
Definition do_generate (d : desk) (content : text) (a : app)
  : list effect * app :=
  let prompt := strip (widget_get content) in
  if is_empty prompt
  then ([Box (ShowWarning (py "Empty prompt")
                          (py "Please enter a text prompt."))], a)
  else
    match ImageGeneration.generate_image (gemini d) prompt with
    | (log, Raise e) =>
        let err_msg := exn_str d e in
        let title := if is_value_error e then py "Error"
                     else error_title err_msg in
        (Update :: map Sent log ++ [Box (ShowError title err_msg)],
         App (current_photo a) (current_image_bytes a) None PLACEHOLDER)
    | (log, Ok image_bytes) =>
        match image_bytes with
        | None | Some [] =>
            (Update :: map Sent log
             ++ [Box (ShowInfo
                        (py "No image")
                        (py "The model did not return an image (e.g. safety filter)."))],
             App None None None PLACEHOLDER)
        | Some image_bytes =>
            match display d image_bytes with
            | Returned shown =>
                (Update :: map Sent log,
                 App (Some shown) (Some image_bytes) (Some shown) [])
            | Raised msg =>
                (Update :: map Sent log
                 ++ [Box (ShowError (py "Error")
                                    (py "Could not display image: " ++ msg))],
                 App None None None PLACEHOLDER)
            end
        end
    end.

(** [answer] is what [filedialog.asksaveasfilename] returns, if it is
    asked. *)
Definition do_save (d : desk) (answer : text) (a : app)
  : list effect * option exn :=
  match current_image_bytes a with
  | None | Some [] =>
      ([Box (ShowWarning (py "Nothing to save")
                         (py "Generate an image first."))], None)
  | Some image_bytes =>
      if is_empty answer then ([AskSaveAsFilename], None)
      else
        match write_bytes d answer image_bytes with
        | Some e => ([AskSaveAsFilename; WriteBytes answer image_bytes], Some e)
        | None =>
            ([AskSaveAsFilename; WriteBytes answer image_bytes;
              Box (ShowInfo (py "Saved") (py "Saved to " ++ answer))], None)
        end
  end.

End Window.

Arguments gemini {photo} d.
Arguments exn_str {photo} d _.
Arguments display {photo} d _.
Arguments write_bytes {photo} d _ _.
Arguments App {photo} current_photo current_image_bytes label_image label_text.
Arguments current_photo {photo} a.
Arguments current_image_bytes {photo} a.
Arguments label_image {photo} a.
Arguments label_text {photo} a.
Arguments do_generate {photo} d content a.
Arguments do_save {photo} d answer a.

End UiImageGeneration.

(** ** Notions the properties are stated with *)

(** The character before the cursor once [w] has been passed. *)
Fixpoint last_or (prev : option char) (w : text) : option char :=
  match w with
  | [] => prev
  | c :: w' => last_or (Some c) w'
  end.

(** How a literal [c] of a pattern compares with a character [x]. *)
Definition lit_eq (ic : bool) (c x : char) : bool :=
  if ic then lower x =? lower c else x =? c.

(** The characters a match of [r] can consume. *)
Fixpoint alpha (ic : bool) (r : regex) (x : char) : bool :=
  match r with
  | Lit c => lit_eq ic c x
  | Cls p => p x
  | Bnd => false
  | Cat r1 r2 => alpha ic r1 x || alpha ic r2 x
  | Opt r' | Star r' | Lazy r' | Grp _ r' => alpha ic r' x
  end.

(** Every match of [r] consumes a character that satisfies [q]. *)
Fixpoint demands (ic : bool) (q : char -> bool) (r : regex) : Prop :=
  match r with
  | Lit c => forall x, lit_eq ic c x = true -> q x = true
  | Cls p => forall x, p x = true -> q x = true
  | Cat r1 r2 => demands ic q r1 \/ demands ic q r2
  | Grp _ r' => demands ic q r'
  | _ => False
  end.

(** No capture group inside. *)
Fixpoint group_free (r : regex) : bool :=
  match r with
  | Lit _ | Cls _ | Bnd => true
  | Cat r1 r2 => group_free r1 && group_free r2
  | Opt r' | Star r' | Lazy r' => group_free r'
  | Grp _ _ => false
  end.
(** What one result of the matcher says about the text it passed over. *)
Definition run (P : char -> bool) (s s' : mstate) (w : text) : Prop :=
  rest s = w ++ rest s' /\ before s' = last_or (before s) w
  /\ forallb P w = true.

(** A character the class refuses, or the end of the text. *)
Definition stops (q : char -> bool) (t : text) : Prop :=
  match t with
  | c :: _ => q c = false
  | [] => True
  end.

(** The positions a lazy [.*?] walks through before it has passed [a]. *)
Fixpoint walk (p : option char) (a t : text) (g : list (nat * text))
  : list mstate :=
  match a with
  | [] => []
  | x :: a' => MState p (a ++ t) g :: walk (Some x) a' t g
  end.

Section AmountDefs.
Context {U : UnicodeClasses}.

(** A run of digits: not empty. *)
Definition digits (t : text) : Prop := t <> [] /\ forallb is_digit t = true.

(** The optional decimal part. *)
Definition decimals (frac : option (char * text)) : Prop :=
  match frac with
  | None => True
  | Some (sep, ds) => is_separator sep = true /\ digits ds
  end.

(** The amount as text. *)
Definition amount (int : text) (frac : option (char * text)) : text :=
  int ++ match frac with
         | None => []
         | Some (sep, ds) => sep :: ds
         end.

End AmountDefs.

Section WordBefore.
Context {U : UnicodeClasses}.

(** The character before the cursor is a word character. *)
Definition word_before (prev : option char) : bool :=
  match prev with
  | Some c => is_word c
  | None => false
  end.

End WordBefore.

(** The pieces of the fence pattern: [[\s\S]], the closing fence, the
    blanks before it, and all that follows the opening fence and its tag. *)
Definition ANY (c : char) : bool := is_space c || negb (is_space c).

Definition CLOSE : regex :=
  Cat (Lit BACKTICK) (Cat (Lit BACKTICK) (Lit BACKTICK)).
Definition BLANKS_CLOSE : regex := Cat (Star (Cls is_space)) CLOSE.
Definition INSIDE : regex :=
  Cat (Star (Cls is_space)) (Cat (Grp 1 (Lazy (Cls ANY))) BLANKS_CLOSE).

(** The literal characters of a replacement template. *)
Fixpoint literals (tpl : list titem) : text :=
  match tpl with
  | [] => []
  | TLit t :: tpl' => t ++ literals tpl'
  | TGrp _ :: tpl' => literals tpl'
  end.

(** What [s'] has captured was captured in [s] already or is text of [s]. *)
Definition groups_from (s s' : mstate) : Prop :=
  forall i c, In c (group i (groups s')) ->
              In c (group i (groups s)) \/ In c (rest s).

(** No line ends in a blank: a whitespace character other than the
    newline is followed by a character that is not a newline. *)
Fixpoint trimmed (t : text) : bool :=
  match t with
  | [] => true
  | c :: t' =>
      (negb (is_space c && negb (c =? NL))
       || match t' with
          | [] => false
          | d :: _ => negb (d =? NL)
          end)
      && trimmed t'
  end.

(** No run of three newlines, [k] newlines standing right before [t]. *)
Fixpoint short_runs (k : nat) (t : text) : bool :=
  match t with
  | [] => true
  | c :: t' =>
      if c =? NL then (k <? 2)%nat && short_runs (S k) t'
      else short_runs 0 t'
  end.

(** The number of newlines [t] starts with. *)
Fixpoint lead (t : text) : nat :=
  match t with
  | c :: t' => if c =? NL then S (lead t') else O
  | [] => O
  end.

(** A line as step 5 leaves it: no newline inside, no blank at its end. *)
Definition neat (l : text) : Prop :=
  ~ In NL l /\ stops is_space (rev l).

Section CollapseDef.
Context {U : UnicodeClasses}.
(** The scan of [re.sub(r"\n{3,}", "\n\n", _)] from a position on. *)
Definition collapse_from (prev : option char) (t : text) : text :=
  sub_scan false BLANK_RUN [TLit [NL; NL]] prev 0 t.
End CollapseDef.

Section EuroDefs.
Context {U : UnicodeClasses}.

(** The visible characters of a text. *)
Definition visible (t : text) : text := filter (fun c => negb (is_space c)) t.

(** No euro sign stands right behind a digit, blanks apart; [ld] says that
    the last visible character before [t] is a digit. *)
Fixpoint euro_clean (ld : bool) (t : text) : bool :=
  match t with
  | [] => true
  | c :: t' =>
      if is_space c then euro_clean ld t'
      else negb (ld && (c =? EURO)) && euro_clean (is_digit c) t'
  end.

(** The next visible character is the euro sign. *)
Definition euro_next (t : text) : bool :=
  match lstrip_by is_space t with
  | c :: _ => c =? EURO
  | [] => false
  end.

End EuroDefs.

Section WordDefs.
Context {U : UnicodeClasses}.

(** The words of a text: its maximal runs of word characters.  [cur] is
    the word being read. *)
Definition flush (cur : text) : list text :=
  match cur with
  | [] => []
  | _ => [cur]
  end.

Fixpoint words_aux (cur t : text) : list text :=
  match t with
  | [] => flush cur
  | c :: t' =>
      if is_word c then words_aux (cur ++ [c]) t'
      else flush cur ++ words_aux [] t'
  end.

Definition words (t : text) : list text := words_aux [] t.

Definition nonword (c : char) : bool := negb (is_word c).

(** A word that reads [eur] in some letter case is spelled [EUR]. *)
Definition eur_like (w : text) : bool := text_eqb (map lower w) (py "eur").

Definition upper_ok (w : text) : Prop := eur_like w = true -> w = py "EUR".

End WordDefs.

(** An effect of [main] that changes the file system. *)
Definition writes_files {path} (e : EnrichMain.effect path) : bool :=
  match e with
  | EnrichMain.Mkdir _ | EnrichMain.WriteText _ _ => true
  | _ => false
  end.

(** A machine for running [main]: paths are strings, every path exists and
    holds [file], the picker is not available, and creating directories and
    writing succeed. *)
Definition scripted_machine (w : world) (file : result text)
  : EnrichMain.machine text :=
  EnrichMain.Machine text w EnrichMain.ImportError
    (fun s => s) (fun p => p) (fun dir name => dir ++ [47] ++ name)
    (fun _ => py "(message)") PyJson.dumps
    (fun _ => true) (fun _ => file) (fun _ => None) (fun _ _ => None).

(** A record as [load_json] accepts it, as text. *)
Definition EMPTY_RECORD_TEXT : text :=
  py "{\x22menu_items\x22: [], \x22event\x22: {}}".

(** A system for running the extractor: paths are strings and resolve to
    themselves, the suffix is the last four characters, [exists] lists the
    files there are, and the converter answers [markdown]. *)
Definition scripted_system (exists_ : list text) (markdown : text)
  : PdfExtractor.system text :=
  PdfExtractor.System text
    (fun p => p) (fun p => p)
    (fun p => skipn (length p - 4) p)
    (fun p => existsb (text_eqb p) exists_)
    (fun p => existsb (text_eqb p) exists_)
    (fun _ _ _ => Returned markdown)
    (fun _ _ => None).

(** A Markdown heading as the styles take it: blanks, [level] hashes, a
    space, and the rest of the line. *)
Definition heading_line (level : nat) (line : text) : Prop :=
  exists w rest,
    line = w ++ repeat UiJsonGeneration.HASH level ++ SPACE :: rest
    /\ forallb is_space w = true.


(** A desk for running the first window: paths are strings, the files are
    those of [system], and the generator is [w]. *)
Definition scripted_desk (system : PdfExtractor.system text) (w : world)
  : UiJsonGeneration.desk text :=
  UiJsonGeneration.Desk text (fun s => s) system (py "Helvetica") 10%Z w
    (fun _ => py "(message)") (fun _ _ => None).

(** A desk for running the second window, on a scripted machine. *)
Definition scripted_enrich_desk (w : world) (file : result text)
  : UiEnrich.desk text :=
  UiEnrich.Desk text (scripted_machine w file) PyJson.dumps
    (fun _ => py "wrong # args").

(** A desk for running the third window: the photo of an image is its
    length, and writing succeeds. *)
Definition scripted_image_desk (w : world) : UiImageGeneration.desk nat :=
  UiImageGeneration.Desk nat w (fun _ => py "(message)")
    (fun raw => Returned (length raw)) (fun _ _ => None).

(** A value that is no container: [null], a boolean or a number. *)
Definition scalar (v : json) : bool :=
  match v with
  | JNull | JBool _ | JNumber _ => true
  | _ => false
  end.

(** What [key in v] finds for a list (an element) and a string (a
    substring). *)
Definition named_in (key : text) (v : json) : Prop :=
  match v with
  | JArray xs => In (JString key) xs
  | JString s => is_substring key s = true
  | _ => False
  end.

(** An HTML line break as step 1 takes it: [<br], whitespace, a [/] or
    none, and [>], the letters in either case. *)
Definition br_tag (tag : text) : Prop :=
  exists b r w slash,
    tag = [60; b; r] ++ w ++ slash ++ [62]
    /\ lower b = 98 /\ lower r = 114
    /\ forallb is_space w = true
    /\ (slash = [] \/ slash = [47]).

Section MarkerDefs.
Context {U : UnicodeClasses}.

(** The last visible character of [x] is a digit, a word character. *)
Definition digit_before (x : text) : bool :=
  match rev (rstrip x) with
  | d :: _ => is_digit d
  | [] => false
  end.

Definition wordchar_before (x : text) : bool :=
  match rev (rstrip x) with
  | c :: _ => is_word c
  | [] => false
  end.

(** The first visible character of [y] is a word character. *)
Definition word_after (y : text) : bool :=
  match lstrip_by is_space y with
  | c :: _ => is_word c
  | [] => false
  end.

End MarkerDefs.

Section SettledDefs.
Context {U : UnicodeClasses}.

(** The pattern of step 1 matches somewhere in [t]. *)
Definition has_break (t : text) : bool :=
  match re_search true BR_PATTERN t with
  | Some _ => true
  | None => false
  end.

(** A line of [t] after its first that step 4 appends to the line before
    it. *)
Definition has_continuation (t : text) : bool :=
  existsb is_continuation (tl (split NL t)).

End SettledDefs.

(** * Properties *)

(** The tables restricted to ASCII (what [re.ASCII] would use): an instance
    of the parameter, for running the definitions on concrete inputs. *)

Ltac bool_lia :=
  repeat match goal with
         | H : _ = true |- _ =>
             first [ apply andb_true_iff in H; destruct H
                   | apply orb_true_iff in H; destruct H
                   | apply N.leb_le in H | apply N.eqb_eq in H
                   | apply N.ltb_lt in H ]
         | H : _ = false |- _ =>
             first [ apply andb_false_iff in H; destruct H
                   | apply orb_false_iff in H; destruct H
                   | apply N.leb_gt in H | apply N.eqb_neq in H
                   | apply N.ltb_ge in H ]
         end;
  try lia.

Lemma is_space_not_ascii_word c : is_space c = true -> ascii_word c = false.
Proof.
  unfold is_space, ascii_word, ascii_digit, ascii_upper, ascii_lower.
  intros H. destruct (_ || _ || _ || (c =? 95)) eqn:E; [|reflexivity].
  exfalso. bool_lia.
Qed.

#[export] Instance ascii_classes : UnicodeClasses := {|
  is_digit := ascii_digit;
  is_word := ascii_word;
  digit_ascii := fun c _ => eq_refl;
  word_ascii := fun c _ => eq_refl;
  digit_is_word := fun c H =>
    ltac:(unfold ascii_word; rewrite H; reflexivity);
  space_not_word := is_space_not_ascii_word;
  euro_not_word := eq_refl;
  dash_not_word := eq_refl;
  replacement_not_word := eq_refl
|}.

(** ** Trimming *)

Lemma lstrip_by_nil p t : lstrip_by p t = [] <-> forallb p t = true.
Proof.
  induction t as [|c t IH]; simpl; [tauto|].
  destruct (p c); simpl; [exact IH|].
  split; discriminate.
Qed.

Lemma lstrip_by_head p t c t' : lstrip_by p t = c :: t' -> p c = false.
Proof.
  induction t as [|x t IH]; simpl; [discriminate|].
  destruct (p x) eqn:E; [exact IH|].
  intros H; injection H as -> _; exact E.
Qed.

Lemma forallb_rev {A} (p : A -> bool) l : forallb p (rev l) = forallb p l.
Proof.
  induction l as [|x l IH]; simpl; [reflexivity|].
  rewrite forallb_app, IH; simpl. rewrite andb_true_r. apply andb_comm.
Qed.

Lemma strip_by_nil p t : strip_by p t = [] <-> forallb p t = true.
Proof.
  unfold strip_by, rstrip_by. split.
  - intros H. apply (f_equal (@rev char)) in H. rewrite rev_involutive in H.
    simpl in H. apply lstrip_by_nil in H. rewrite forallb_rev in H.
    destruct (lstrip_by p t) as [|c t'] eqn:E; [now apply lstrip_by_nil|].
    apply lstrip_by_head in E. simpl in H. rewrite E in H. discriminate.
  - intros H. apply lstrip_by_nil in H. rewrite H. reflexivity.
Qed.

Lemma blank_test s :
  is_empty s || is_empty (strip s) = whitespace_only s.
Proof.
  unfold whitespace_only, strip.
  destruct s as [|c s]; [reflexivity|]. cbn [is_empty orb].
  destruct (forallb is_space (c :: s)) eqn:E.
  - apply strip_by_nil in E. rewrite E. reflexivity.
  - destruct (strip_by is_space (c :: s)) eqn:E'; [|reflexivity].
    apply strip_by_nil in E'. congruence.
Qed.

(** ** The API key and the prompt guard *)

Lemma image_key_missing w :
  key_missing w = true ->
  ImageGeneration._get_api_key w = Raise ImageGeneration.KEY_NOT_SET.
Proof.
  unfold key_missing, ImageGeneration._get_api_key.
  destruct (GEMINI_API_KEY w) as [key|]; [|reflexivity].
  intros H. rewrite blank_test, H. reflexivity.
Qed.

(** Behind the prompt guard nothing ends in the prompt error. *)
Lemma image_past_guard (w : world) (prompt : text) :
  whitespace_only prompt = false ->
  outcome (ImageGeneration.generate_image w prompt)
  <> Raise ImageGeneration.PROMPT_EMPTY.
Proof.
  intros B. unfold ImageGeneration.generate_image. rewrite blank_test, B.
  unfold ImageGeneration._get_api_key, lift, bind, submit, outcome.
  destruct (GEMINI_API_KEY w) as [key|]; [|discriminate].
  destruct (is_empty key || is_empty (strip key)); [discriminate|].
  destruct (image_generator w _) as [r|code]; simpl; [|discriminate].
  destruct (candidates r) as [[|c cs]|]; try discriminate.
  destruct (content c) as [ct|]; [|discriminate].
  destruct (parts ct); discriminate.
Qed.

(** C9: a prompt that is empty or whitespace-only makes [generate_image]
    fail with the prompt error, and no request has been submitted by then;
    a prompt with a visible character never ends in that error. *)
Theorem generate_image_prompt_guard (w : world) (prompt : text) :
  (outcome (ImageGeneration.generate_image w prompt)
     = Raise ImageGeneration.PROMPT_EMPTY
   <-> whitespace_only prompt = true)
  /\ (whitespace_only prompt = true ->
      ImageGeneration.generate_image w prompt
        = ([], Raise ImageGeneration.PROMPT_EMPTY)).
Proof.
  destruct (whitespace_only prompt) eqn:B.
  - unfold ImageGeneration.generate_image. rewrite blank_test, B.
    split; [split|]; reflexivity.
  - split; [|discriminate]. split; [|discriminate].
    intros H. exfalso. exact (image_past_guard w prompt B H).
Qed.

(** When the image model answers with no candidates, or with a first
    candidate none of whose parts carries inline binary data,
    [generate_image] returns [None] (after its one request) and raises
    nothing. *)
Lemma generate_image_absent (w : world) (prompt key : text)
      (response : image_response) :
  whitespace_only prompt = false ->
  ImageGeneration._get_api_key w = Ok key ->
  image_generator w (Request key ImageGeneration.MODEL_ID (strip prompt)
                             "response_modalities: IMAGE")
    = Answer response ->
  (forall c cs, candidates response = Some (c :: cs) ->
     exists ct ps, content c = Some ct /\ parts ct = Some ps
                   /\ forall p, In p ps -> no_inline_data p) ->
  ImageGeneration.generate_image w prompt
    = ([Request key ImageGeneration.MODEL_ID (strip prompt)
                "response_modalities: IMAGE"], Ok None).
Proof.
  intros B K G H. unfold ImageGeneration.generate_image.
  rewrite blank_test, B, K. unfold lift, bind, submit. rewrite G.
  destruct (candidates response) as [[|c cs]|] eqn:C; try reflexivity.
  destruct (H c cs eq_refl) as (ct & ps & -> & -> & Hc).
  unfold ret. simpl. repeat f_equal.
  clear - Hc. induction ps as [|p ps IH]; [reflexivity|].
  simpl. destruct (Hc p (or_introl eq_refl)) as [E|[b [E [D|D]]]];
    rewrite E; try rewrite D; apply IH; intros q Hq; apply Hc; now right.
Qed.

(** C8, against the code: a first candidate that carries no content (the
    answer of a safety block) has no inline binary data, and yet
    [generate_image] does not return [None] on it: reading [.parts] of the
    missing content raises an [AttributeError], after the request. *)
Theorem generate_image_blocked_candidate (w : world) (prompt key : text)
        (response : image_response) (c : candidate) (cs : list candidate) :
  whitespace_only prompt = false ->
  ImageGeneration._get_api_key w = Ok key ->
  image_generator w (Request key ImageGeneration.MODEL_ID (strip prompt)
                             "response_modalities: IMAGE")
    = Answer response ->
  candidates response = Some (c :: cs) ->
  content c = None ->
  ImageGeneration.generate_image w prompt
  = ([Request key ImageGeneration.MODEL_ID (strip prompt)
              "response_modalities: IMAGE"],
     Raise ImageGeneration.NO_CONTENT).
Proof.
  intros B K G C N. unfold ImageGeneration.generate_image.
  rewrite blank_test, B, K. unfold lift, bind, submit. rewrite G.
  cbn [fst snd Datatypes.app]. rewrite C, N. reflexivity.
Qed.

Lemma generate_image_blocked_candidate_witness :
  ImageGeneration.generate_image
    (scripted_world (Some (py "k")) None
                    (ImageResponse (Some [Candidate None])))
    (py "a poster")
  = ([Request (py "k") ImageGeneration.MODEL_ID (strip (py "a poster"))
              "response_modalities: IMAGE"],
     Raise ImageGeneration.NO_CONTENT).
Proof.
  exact (generate_image_blocked_candidate
           (scripted_world (Some (py "k")) None
                           (ImageResponse (Some [Candidate None])))
           (py "a poster") (py "k")
           (ImageResponse (Some [Candidate None])) (Candidate None) []
           eq_refl eq_refl eq_refl eq_refl eq_refl).
Defined.

(** A content whose parts are missing ends in the [TypeError] of the loop
    in the same way. *)
Lemma generate_image_missing_parts (w : world) (prompt key : text)
      (response : image_response) (c : candidate) (cs : list candidate) :
  whitespace_only prompt = false ->
  ImageGeneration._get_api_key w = Ok key ->
  image_generator w (Request key ImageGeneration.MODEL_ID (strip prompt)
                             "response_modalities: IMAGE")
    = Answer response ->
  candidates response = Some (c :: cs) ->
  content c = Some (Content None) ->
  ImageGeneration.generate_image w prompt
  = ([Request key ImageGeneration.MODEL_ID (strip prompt)
              "response_modalities: IMAGE"],
     Raise ImageGeneration.NO_PARTS).
Proof.
  intros B K G C N. unfold ImageGeneration.generate_image.
  rewrite blank_test, B, K. unfold lift, bind, submit. rewrite G.
  cbn [fst snd Datatypes.app]. rewrite C, N. reflexivity.
Qed.

(** C10: with the API key absent, empty or whitespace-only, each of the
    three contracts ends in an error, and has submitted no request. *)
Theorem api_key_required {U : UnicodeClasses}
        (json_loads : text -> option json) (json_dumps : json -> text)
        (w : world) (cleaned_text prompt : text) (json_data : json) :
  key_missing w = true ->
  ReceiveJson.extract_structured_data json_loads w cleaned_text
    = ([], Raise ReceiveJson.KEY_NOT_SET)
  /\ EnrichFromJson.generate_summary_and_prompt json_loads json_dumps w json_data
     = ([], Raise EnrichFromJson.KEY_NOT_SET)
  /\ ImageGeneration.generate_image w prompt
     = ([], Raise (if whitespace_only prompt
                   then ImageGeneration.PROMPT_EMPTY
                   else ImageGeneration.KEY_NOT_SET)).
Proof.
  intros H. repeat split.
  - unfold ReceiveJson.extract_structured_data, ReceiveJson._get_api_key.
    unfold key_missing in H.
    destruct (GEMINI_API_KEY w) as [key|]; [|reflexivity].
    rewrite blank_test, H. reflexivity.
  - unfold EnrichFromJson.generate_summary_and_prompt,
      EnrichFromJson._get_api_key.
    unfold key_missing in H.
    destruct (GEMINI_API_KEY w) as [key|]; [|reflexivity].
    rewrite blank_test, H. reflexivity.
  - unfold ImageGeneration.generate_image. rewrite blank_test.
    destruct (whitespace_only prompt); [reflexivity|].
    rewrite (image_key_missing w H). reflexivity.
Qed.

Lemma api_key_required_witness :
  let w := scripted_world (Some (py "  ")) (Some (py "{}")) NO_IMAGE in
  ReceiveJson.extract_structured_data PyJson.loads w (py "Paloma 15 EUR")
    = ([], Raise ReceiveJson.KEY_NOT_SET)
  /\ EnrichFromJson.generate_summary_and_prompt PyJson.loads PyJson.dumps w
       EMPTY_RECORD
     = ([], Raise EnrichFromJson.KEY_NOT_SET)
  /\ ImageGeneration.generate_image w (py "a poster")
     = ([], Raise ImageGeneration.KEY_NOT_SET).
Proof.
  exact (api_key_required PyJson.loads PyJson.dumps
           (scripted_world (Some (py "  ")) (Some (py "{}")) NO_IMAGE)
           (py "Paloma 15 EUR") (py "a poster") EMPTY_RECORD eq_refl).
Defined.

(** ** The extraction contract *)

(** Whatever value the response parses to is returned as it is. *)
Lemma extract_returns_parsed {U : UnicodeClasses}
      (json_loads : text -> option json) (w : world)
      (cleaned_text key : text) (c : char) (t : text) (v : json) :
  ReceiveJson._get_api_key w = Ok key ->
  text_generator w (Request key ReceiveJson.MODEL_ID
                            (ReceiveJson.STRUCTURED_PROMPT ++ cleaned_text)
                            "response_mime_type: application/json")
    = Answer (Some (c :: t)) ->
  json_loads (ReceiveJson._strip_json_block (c :: t)) = Some v ->
  outcome (ReceiveJson.extract_structured_data json_loads w cleaned_text)
    = Ok v.
Proof.
  intros K G L. unfold ReceiveJson.extract_structured_data.
  rewrite K. unfold lift, bind, submit. rewrite G, L. reflexivity.
Qed.

(** C2, at a response that is a JSON array: the array is returned as a
    successful result, although it is not an object. *)
Theorem extract_returns_array :
  outcome (ReceiveJson.extract_structured_data PyJson.loads
             (scripted_world (Some (py "k")) (Some (py "[1, 2]")) NO_IMAGE)
             (py "Paloma 15 EUR"))
    = Ok (JArray [JNumber (py "1"); JNumber (py "2")])
  /\ is_object (JArray [JNumber (py "1"); JNumber (py "2")]) = false.
Proof. split; vm_compute; reflexivity. Qed.

(** ** The enrichment contract *)

Lemma text_eqb_eq a b : text_eqb a b = true <-> a = b.
Proof.
  revert b; induction a as [|x a IH]; intros [|y b]; simpl;
    try (split; [discriminate|discriminate]); [tauto|].
  rewrite andb_true_iff, N.eqb_eq, IH. split.
  - intros [-> ->]; reflexivity.
  - intros H; injection H as -> ->; auto.
Qed.

Lemma in_dict key members :
  existsb (fun kv : text * json => text_eqb (fst kv) key) members = true
  <-> has_key key members.
Proof.
  rewrite existsb_exists. unfold has_key. split.
  - intros [[k v] [Hin E]]. apply text_eqb_eq in E. simpl in E. subst k.
    now exists v.
  - intros [v Hin]. exists (key, v). split; [exact Hin|].
    now apply text_eqb_eq.
Qed.

Lemma lacks_a_key_object members :
  exists b, EnrichFromJson.lacks_a_key (JObject members) = Ok b /\
            (b = false <-> has_key (py "marketing_summary") members /\
                           has_key (py "image_prompt") members).
Proof.
  unfold EnrichFromJson.lacks_a_key, py_in.
  destruct (existsb _ members) eqn:E1.
  - destruct (existsb (fun kv => text_eqb (fst kv) (py "image_prompt")) members)
      eqn:E2.
    + exists false. split; [reflexivity|]. split; [|reflexivity].
      intros _. split; now apply in_dict.
    + exists true. split; [reflexivity|]. split; [discriminate|].
      intros [_ H]. apply in_dict in H. congruence.
  - exists true. split; [reflexivity|]. split; [discriminate|].
    intros [H _]. apply in_dict in H. congruence.
Qed.

(** C4, as the code has it: with the key set and the generator answering,
    an empty response ends in the empty-response error; a response that
    parses (after fence-stripping) to an object ends in the missing-keys
    error exactly when the object lacks at least one of the two keys, and
    is returned exactly when it has both. *)
Theorem enrich_rejects_a_missing_key {U : UnicodeClasses}
        (json_loads : text -> option json) (json_dumps : json -> text)
        (w : world) (json_data : json) (key : text)
        (response_text : option text) :
  EnrichFromJson._get_api_key w = Ok key ->
  text_generator w (Request key EnrichFromJson.MODEL_ID
                            (EnrichFromJson.ENRICH_PROMPT ++ json_dumps json_data)
                            "response_mime_type: application/json")
    = Answer response_text ->
  let run := outcome (EnrichFromJson.generate_summary_and_prompt
                        json_loads json_dumps w json_data) in
  (response_text = None \/ response_text = Some [] ->
   run = Raise EnrichFromJson.EMPTY_RESPONSE)
  /\ (forall c t members,
        response_text = Some (c :: t) ->
        json_loads (EnrichFromJson._strip_json_block (c :: t))
          = Some (JObject members) ->
        (run = Raise EnrichFromJson.MISSING_KEYS
         <-> ~ (has_key (py "marketing_summary") members /\
                has_key (py "image_prompt") members))
        /\ (run = Ok (JObject members)
            <-> has_key (py "marketing_summary") members /\
                has_key (py "image_prompt") members)).
Proof.
  intros K G run. subst run.
  unfold EnrichFromJson.generate_summary_and_prompt.
  rewrite K. unfold lift, bind, submit. rewrite G. split.
  - intros [-> | ->]; reflexivity.
  - intros c t members -> L. rewrite L.
    destruct (lacks_a_key_object members) as [b [E Hb]]. rewrite E.
    destruct b; simpl.
    + split; split; try discriminate; try reflexivity.
      * intros _ H. apply Hb in H. discriminate.
      * intros H. apply Hb in H. discriminate.
    + assert (H : has_key (py "marketing_summary") members /\
                  has_key (py "image_prompt") members) by now apply Hb.
      split; split; try discriminate; try reflexivity; tauto.
Qed.

Lemma enrich_rejects_a_missing_key_witness :
  let one_key := [(py "marketing_summary", JString (py "x"))] in
  outcome (EnrichFromJson.generate_summary_and_prompt PyJson.loads PyJson.dumps
             (scripted_world (Some (py "k"))
                (Some (py "```json\n{\x22marketing_summary\x22: \x22x\x22}\n```"))
                NO_IMAGE)
             EMPTY_RECORD)
    = Raise EnrichFromJson.MISSING_KEYS
  <-> ~ (has_key (py "marketing_summary") one_key /\
         has_key (py "image_prompt") one_key).
Proof.
  exact (proj1 (proj2 (enrich_rejects_a_missing_key PyJson.loads PyJson.dumps
           (scripted_world (Some (py "k"))
              (Some (py "```json\n{\x22marketing_summary\x22: \x22x\x22}\n```"))
              NO_IMAGE)
           EMPTY_RECORD (py "k") _ eq_refl eq_refl)
         _ _ [(py "marketing_summary", JString (py "x"))] eq_refl eq_refl)).
Defined.

(** C4 as the claim has it fails: a parsed response that contains one of
    the two keys is rejected. *)
Lemma enrich_rejects_one_key_response :
  PyJson.loads (EnrichFromJson._strip_json_block
                  (py "{\x22marketing_summary\x22: \x22x\x22}"))
    = Some (JObject [(py "marketing_summary", JString (py "x"))])
  /\ py_in (py "marketing_summary")
           (JObject [(py "marketing_summary", JString (py "x"))]) = Ok true
  /\ EnrichFromJson.generate_summary_and_prompt PyJson.loads PyJson.dumps
       (scripted_world (Some (py "k"))
          (Some (py "{\x22marketing_summary\x22: \x22x\x22}")) NO_IMAGE)
       EMPTY_RECORD
     = ([Request (py "k") EnrichFromJson.MODEL_ID
                 (EnrichFromJson.ENRICH_PROMPT ++ PyJson.dumps EMPTY_RECORD)
                 "response_mime_type: application/json"],
        Raise EnrichFromJson.MISSING_KEYS).
Proof. repeat split; vm_compute; reflexivity. Qed.

(** ** The normalizer on concrete inputs *)

(** C7, at an input where one character is the right neighbour of one
    marker and the left neighbour of the next: the second marker stands
    between the word characters [5] and [c], and becomes the currency. *)
Theorem marker_after_consumed_digit :
  normalize_for_llm (py "a\uFFFD5\uFFFDc") = py "a \u2014 5 EUR c"
  /\ fix_replacement (py "a\uFFFD5\uFFFDc") = py "a \u2014 5\u20AC c"
  /\ is_word 53 = true /\ is_word 99 = true.
Proof. repeat split; vm_compute; reflexivity. Qed.

(** C1 as the claim has it fails: a row that was merged into a line not
    starting with the delimiter is merged again by the second pass. *)
Lemma normalize_not_idempotent :
  normalize_for_llm (py "a\nb\nc |") = py "a\nb c |"
  /\ normalize_for_llm (normalize_for_llm (py "a\nb\nc |")) = py "a b c |"
  /\ text_eqb (normalize_for_llm (normalize_for_llm (py "a\nb\nc |")))
              (normalize_for_llm (py "a\nb\nc |")) = false.
Proof. repeat split; vm_compute; reflexivity. Qed.

(** C3 as the claim has it fails: at the end of a line the trailing space
    is trimmed away. *)
Lemma amount_euro_no_trailing_space :
  normalize_for_llm (py "15\u20AC") = py "15 EUR"
  /\ normalize_for_llm (py "15 eur") = py "15 EUR"
  /\ is_substring (py "15 EUR ") (normalize_for_llm (py "15\u20AC")) = false.
Proof. repeat split; vm_compute; reflexivity. Qed.

(** C6 as the claim has it fails: the second line of the input ends with
    the delimiter and does not start with it, yet the marker rule has
    pulled the next line onto it before the lines are scanned, and it
    stays a line of its own. *)
Lemma continuation_line_kept_separate :
  split NL (py "x\ny |\n\uFFFD") = [py "x"; py "y |"; py "\uFFFD"]
  /\ is_continuation (py "y |") = true
  /\ normalize_for_llm (py "x\ny |\n\uFFFD") = py "x\ny | \u2014"
  /\ is_substring (py "x y |") (normalize_for_llm (py "x\ny |\n\uFFFD")) = false.
Proof. repeat split; vm_compute; reflexivity. Qed.

(** C5 as the claim has it fails: an interior that holds a fence itself is
    cut at that fence once it is wrapped. *)
Lemma strip_json_block_inner_fence :
  ReceiveJson._strip_json_block (py "x```y") = py "x```y"
  /\ ReceiveJson._strip_json_block (fenced (py "json") (py "x```y")) = py "x"
  /\ EnrichFromJson._strip_json_block (py "x```y") = py "x```y"
  /\ EnrichFromJson._strip_json_block (fenced (py "json") (py "x```y")) = py "x".
Proof. repeat split; vm_compute; reflexivity. Qed.

(** ** The matcher: what a match passes over *)

Section MatcherFacts.
Context {U : UnicodeClasses}.

Lemma last_or_app prev a b : last_or prev (a ++ b) = last_or (last_or prev a) b.
Proof. revert prev; induction a as [|c a IH]; intros prev; simpl; auto. Qed.

Lemma forallb_impl {A} (p q : A -> bool) l :
  (forall x, p x = true -> q x = true) -> forallb p l = true -> forallb q l = true.
Proof.
  intros H. induction l as [|x l IH]; simpl; [auto|].
  rewrite !andb_true_iff. intros [Hx Hl]. auto.
Qed.

Lemma run_refl P s : run P s s [].
Proof. repeat split. Qed.

Lemma run_trans P s1 s2 s3 w1 w2 :
  run P s1 s2 w1 -> run P s2 s3 w2 -> run P s1 s3 (w1 ++ w2).
Proof.
  intros (R1 & B1 & F1) (R2 & B2 & F2). repeat split.
  - rewrite R1, R2, app_assoc. reflexivity.
  - rewrite last_or_app, <- B1. exact B2.
  - rewrite forallb_app, F1, F2. reflexivity.
Qed.

Lemma run_weaken (P Q : char -> bool) s s' w :
  (forall x, P x = true -> Q x = true) -> run P s s' w -> run Q s s' w.
Proof.
  intros H (R & B & F). repeat split; auto. eapply forallb_impl; eauto.
Qed.

Lemma star_greedy_run P step :
  (forall s s', In s' (step s) -> exists w, run P s s' w) ->
  forall fuel s s', In s' (star_greedy step fuel s) -> exists w, run P s s' w.
Proof.
  intros Hstep. induction fuel as [|n IH]; intros s s' H; simpl in H.
  - destruct H as [<-|[]]. exists []. apply run_refl.
  - apply in_app_or in H. destruct H as [H|[<-|[]]].
    + apply in_flat_map in H. destruct H as (s1 & H1 & H2).
      destruct (_ <? _)%nat; [|destruct H2].
      destruct (Hstep _ _ H1) as [w1 R1]. destruct (IH _ _ H2) as [w2 R2].
      exists (w1 ++ w2). eapply run_trans; eauto.
    + exists []. apply run_refl.
Qed.

Lemma star_lazy_run P step :
  (forall s s', In s' (step s) -> exists w, run P s s' w) ->
  forall fuel s s', In s' (star_lazy step fuel s) -> exists w, run P s s' w.
Proof.
  intros Hstep. induction fuel as [|n IH]; intros s s' H; simpl in H.
  - destruct H as [<-|[]]. exists []. apply run_refl.
  - destruct H as [<-|H]; [exists []; apply run_refl|].
    apply in_flat_map in H. destruct H as (s1 & H1 & H2).
    destruct (_ <? _)%nat; [|destruct H2].
    destruct (Hstep _ _ H1) as [w1 R1]. destruct (IH _ _ H2) as [w2 R2].
    exists (w1 ++ w2). eapply run_trans; eauto.
Qed.

(** Every result of the matcher is a position further on in the same
    text, reached over characters of the pattern's alphabet. *)
Lemma rmatch_run ic r : forall s s',
  In s' (rmatch ic r s) -> exists w, run (alpha ic r) s s' w.
Proof.
  induction r as [c|p| |r1 IH1 r2 IH2|r IH|r IH|r IH|i r IH]; intros s s' H;
    simpl in H.
  - destruct (rest s) as [|x t] eqn:E; [destruct H|].
    destruct (if ic then _ else _) eqn:C; [|destruct H].
    destruct H as [<-|[]]. exists [x]. repeat split; simpl; auto.
    unfold lit_eq. rewrite C. reflexivity.
  - destruct (rest s) as [|x t] eqn:E; [destruct H|].
    destruct (p x) eqn:C; [|destruct H].
    destruct H as [<-|[]]. exists [x]. repeat split; simpl; auto.
    rewrite C. reflexivity.
  - destruct (at_boundary s); [|destruct H]. destruct H as [<-|[]].
    exists []. apply run_refl.
  - apply in_flat_map in H. destruct H as (s1 & H1 & H2).
    destruct (IH1 _ _ H1) as [w1 R1]. destruct (IH2 _ _ H2) as [w2 R2].
    exists (w1 ++ w2). eapply run_trans.
    + eapply run_weaken; [|exact R1]. simpl. intros x ->. reflexivity.
    + eapply run_weaken; [|exact R2]. simpl. intros x ->. apply orb_true_r.
  - apply in_app_or in H. destruct H as [H|[<-|[]]]; [auto|].
    exists []. apply run_refl.
  - eapply star_greedy_run; eauto.
  - eapply star_lazy_run; eauto.
  - apply in_map_iff in H. destruct H as (s1 & <- & H1).
    destruct (IH _ _ H1) as [w R]. exists w. exact R.
Qed.

Lemma rmatch_demands ic q r : forall s s',
  demands ic q r -> In s' (rmatch ic r s) -> existsb q (rest s) = true.
Proof.
  induction r as [c|p| |r1 IH1 r2 IH2|r IH|r IH|r IH|i r IH]; intros s s' D H;
    simpl in D; try contradiction; simpl in H.
  - destruct (rest s) as [|x t] eqn:E; [destruct H|].
    destruct (if ic then _ else _) eqn:C; [|destruct H].
    simpl. rewrite (D x C). reflexivity.
  - destruct (rest s) as [|x t] eqn:E; [destruct H|].
    destruct (p x) eqn:C; [|destruct H].
    simpl. rewrite (D x C). reflexivity.
  - apply in_flat_map in H. destruct H as (s1 & H1 & H2).
    destruct D as [D|D]; [eauto|].
    destruct (rmatch_run _ _ _ _ H1) as (w & R & _).
    rewrite R, existsb_app. erewrite (IH2 s1); eauto. apply orb_true_r.
  - apply in_map_iff in H. destruct H as (s1 & <- & H1). eauto.
Qed.

Lemma star_greedy_groups step :
  (forall s s', In s' (step s) -> groups s' = groups s) ->
  forall fuel s s', In s' (star_greedy step fuel s) -> groups s' = groups s.
Proof.
  intros Hstep. induction fuel as [|n IH]; intros s s' H; simpl in H.
  - destruct H as [<-|[]]. reflexivity.
  - apply in_app_or in H. destruct H as [H|[<-|[]]]; [|reflexivity].
    apply in_flat_map in H. destruct H as (s1 & H1 & H2).
    destruct (_ <? _)%nat; [|destruct H2].
    rewrite (IH _ _ H2). auto.
Qed.

Lemma star_lazy_groups step :
  (forall s s', In s' (step s) -> groups s' = groups s) ->
  forall fuel s s', In s' (star_lazy step fuel s) -> groups s' = groups s.
Proof.
  intros Hstep. induction fuel as [|n IH]; intros s s' H; simpl in H.
  - destruct H as [<-|[]]. reflexivity.
  - destruct H as [<-|H]; [reflexivity|].
    apply in_flat_map in H. destruct H as (s1 & H1 & H2).
    destruct (_ <? _)%nat; [|destruct H2].
    rewrite (IH _ _ H2). auto.
Qed.

Lemma rmatch_group_free ic r : forall s s',
  group_free r = true -> In s' (rmatch ic r s) -> groups s' = groups s.
Proof.
  induction r as [c|p| |r1 IH1 r2 IH2|r IH|r IH|r IH|i r IH]; intros s s' G H;
    simpl in G; try discriminate; simpl in H.
  - destruct (rest s) as [|x t]; [destruct H|].
    destruct (if ic then _ else _); [|destruct H].
    destruct H as [<-|[]]. reflexivity.
  - destruct (rest s) as [|x t]; [destruct H|].
    destruct (p x); [|destruct H]. destruct H as [<-|[]]. reflexivity.
  - destruct (at_boundary s); [|destruct H]. destruct H as [<-|[]]. reflexivity.
  - apply andb_true_iff in G. destruct G as [G1 G2].
    apply in_flat_map in H. destruct H as (s1 & H1 & H2).
    rewrite (IH2 _ _ G2 H2). auto.
  - apply in_app_or in H. destruct H as [H|[<-|[]]]; auto.
  - eapply star_greedy_groups; eauto.
  - eapply star_lazy_groups; eauto.
Qed.

End MatcherFacts.

(** ** The matcher: the first match *)

Section FirstMatch.
Context {U : UnicodeClasses}.

Lemma hd_error_app_some {A} (l l' : list A) x :
  hd_error l = Some x -> hd_error (l ++ l') = Some x.
Proof. destruct l; simpl; [discriminate|auto]. Qed.

Lemma flat_map_nil {A B} (f : A -> list B) l :
  (forall x, In x l -> f x = []) -> flat_map f l = [].
Proof.
  induction l as [|x l IH]; intros H; simpl; [reflexivity|].
  rewrite (H x (or_introl eq_refl)), IH; auto. intros y Hy. apply H. now right.
Qed.

(** The first result of a sequence: the first result of [r1] from which
    [r2] matches at all, then the first result of [r2]. *)
Lemma first_Cat_skip ic r1 r2 s l1 s1 l2 s2 :
  rmatch ic r1 s = l1 ++ s1 :: l2 ->
  (forall y, In y l1 -> rmatch ic r2 y = []) ->
  hd_error (rmatch ic r2 s1) = Some s2 ->
  hd_error (rmatch ic (Cat r1 r2) s) = Some s2.
Proof.
  intros E H1 H2. simpl. rewrite E, flat_map_app, (flat_map_nil _ l1 H1).
  simpl. apply hd_error_app_some. exact H2.
Qed.

Lemma first_Cat ic r1 r2 s s1 s2 :
  hd_error (rmatch ic r1 s) = Some s1 ->
  hd_error (rmatch ic r2 s1) = Some s2 ->
  hd_error (rmatch ic (Cat r1 r2) s) = Some s2.
Proof.
  intros H1 H2. destruct (rmatch ic r1 s) as [|x l] eqn:E; [discriminate|].
  injection H1 as ->. eapply (first_Cat_skip _ _ _ _ [] s1 l); eauto.
  intros y [].
Qed.

Lemma first_Lit ic c p t g x :
  lit_eq ic c x = true ->
  hd_error (rmatch ic (Lit c) (MState p (x :: t) g)) = Some (MState (Some x) t g).
Proof. unfold lit_eq. intros H. simpl. rewrite H. reflexivity. Qed.

Lemma first_Cls ic q p t g x :
  q x = true ->
  hd_error (rmatch ic (Cls q) (MState p (x :: t) g)) = Some (MState (Some x) t g).
Proof. intros H. simpl. rewrite H. reflexivity. Qed.

Lemma first_Opt ic r s s' :
  hd_error (rmatch ic r s) = Some s' ->
  hd_error (rmatch ic (Opt r) s) = Some s'.
Proof. intros H. simpl. apply hd_error_app_some. exact H. Qed.

Lemma first_Opt_none ic r s :
  rmatch ic r s = [] -> rmatch ic (Opt r) s = [s].
Proof. intros H. simpl. rewrite H. reflexivity. Qed.

Lemma first_Opt_none_hd ic r s :
  rmatch ic r s = [] -> hd_error (rmatch ic (Opt r) s) = Some s.
Proof. intros H. simpl. rewrite H. reflexivity. Qed.

Lemma first_star_greedy ic q w : forall p t g fuel,
  forallb q w = true -> stops q t -> (length w <= fuel)%nat ->
  hd_error (star_greedy (rmatch ic (Cls q)) fuel (MState p (w ++ t) g))
    = Some (MState (last_or p w) t g).
Proof.
  induction w as [|x w IH]; intros p t g fuel F St L; simpl in *.
  - destruct fuel as [|n]; [reflexivity|]. simpl.
    destruct t as [|c t]; [reflexivity|]. simpl in St. rewrite St. reflexivity.
  - apply andb_true_iff in F. destruct F as [Fx Fw].
    destruct fuel as [|n]; [lia|]. simpl. rewrite Fx. simpl.
    rewrite app_nil_r.
    replace (length (w ++ t) <? S (length (w ++ t)))%nat with true
      by (symmetry; apply Nat.ltb_lt; lia).
    apply hd_error_app_some. apply IH; auto. lia.
Qed.

Lemma first_Star ic q w p t g :
  forallb q w = true -> stops q t ->
  hd_error (rmatch ic (Star (Cls q)) (MState p (w ++ t) g))
    = Some (MState (last_or p w) t g).
Proof.
  intros F St. simpl. apply (first_star_greedy ic); auto.
  rewrite length_app. lia.
Qed.

Lemma first_Plus ic q x w p t g :
  q x = true -> forallb q w = true -> stops q t ->
  hd_error (rmatch ic (Plus (Cls q)) (MState p (x :: w ++ t) g))
    = Some (MState (last_or (Some x) w) t g).
Proof.
  intros Hx F St. unfold Plus. eapply first_Cat.
  - apply first_Cls. exact Hx.
  - apply first_Star; auto.
Qed.

(** Greedy repetition always has a result: in the end, the start. *)
Lemma star_greedy_nonempty step fuel s : star_greedy step fuel s <> [].
Proof.
  destruct fuel; simpl; [discriminate|].
  intros H. apply app_eq_nil in H. destruct H. discriminate.
Qed.

Lemma star_lazy_head step fuel s : hd_error (star_lazy step fuel s) = Some s.
Proof. destruct fuel; reflexivity. Qed.

Lemma rmatch_Cls_true ic q p x t g :
  q x = true ->
  rmatch ic (Cls q) (MState p (x :: t) g) = [MState (Some x) t g].
Proof. intros H. simpl. rewrite H. reflexivity. Qed.

Lemma star_lazy_walk ic q a : forall p t g fuel,
  forallb q a = true -> (length a <= fuel)%nat ->
  exists l,
    star_lazy (rmatch ic (Cls q)) fuel (MState p (a ++ t) g)
    = walk p a t g ++ MState (last_or p a) t g :: l.
Proof.
  induction a as [|x a IH]; intros p t g fuel F L.
  - destruct fuel; simpl; eauto.
  - simpl in F. apply andb_true_iff in F. destruct F as [Fx Fa].
    destruct fuel as [|n]; [simpl in L; lia|].
    destruct (IH (Some x) t g n Fa) as [l E]; [simpl in L; lia|].
    exists l. cbn [star_lazy app]. rewrite (rmatch_Cls_true _ _ _ _ _ _ Fx).
    cbn [flat_map rest]. rewrite app_nil_r.
    replace (length (a ++ t) <? length (x :: a ++ t))%nat with true
      by (symmetry; apply Nat.ltb_lt; simpl; lia).
    rewrite E. reflexivity.
Qed.

End FirstMatch.

Section SubFacts.
Context {U : UnicodeClasses}.
Variables (ic : bool) (r : regex) (tpl : list titem).

Lemma sub_scan_skip a : forall b prev,
  sub_scan ic r tpl prev (length a) (a ++ b)
  = sub_scan ic r tpl (last_or prev a) 0 b.
Proof.
  induction a as [|c a IH]; intros b prev; simpl; [reflexivity|]. apply IH.
Qed.

Lemma sub_scan_match prev c a b m :
  match_at ic r prev (c :: a ++ b) = Some m -> rest m = b ->
  sub_scan ic r tpl prev 0 (c :: a ++ b)
  = expand tpl (groups m) ++ sub_scan ic r tpl (last_or prev (c :: a)) 0 b.
Proof.
  intros M R. cbn [sub_scan]. rewrite M, R.
  replace (length (c :: a ++ b) - length b)%nat with (S (length a))
    by (cbn [length]; rewrite length_app; lia).
  rewrite sub_scan_skip. reflexivity.
Qed.

Lemma sub_scan_copy prev c t :
  match_at ic r prev (c :: t) = None ->
  sub_scan ic r tpl prev 0 (c :: t) = c :: sub_scan ic r tpl (Some c) 0 t.
Proof. intros M. cbn [sub_scan]. rewrite M. reflexivity. Qed.

Lemma sub_scan_end prev :
  match_at ic r prev [] = None -> sub_scan ic r tpl prev 0 [] = [].
Proof. intros M. cbn [sub_scan]. rewrite M. reflexivity. Qed.

(** A pattern that demands a character the text does not have matches
    nowhere in it: the substitution leaves the text alone. *)
Lemma match_at_demands q prev t :
  demands ic q r -> existsb q t = false -> match_at ic r prev t = None.
Proof.
  intros D E. unfold match_at.
  destruct (rmatch ic r (MState prev t [])) as [|m l] eqn:M; [reflexivity|].
  assert (H : existsb q (rest (MState prev t [])) = true)
    by (eapply rmatch_demands; [exact D|rewrite M; now left]).
  simpl in H. congruence.
Qed.

Lemma sub_scan_inert q : forall t prev,
  demands ic q r -> existsb q t = false -> sub_scan ic r tpl prev 0 t = t.
Proof.
  induction t as [|c t IH]; intros prev D E.
  - apply sub_scan_end. eapply match_at_demands; eauto.
  - rewrite sub_scan_copy by (eapply match_at_demands; eauto).
    simpl in E. apply orb_false_iff in E. destruct E as [_ E].
    rewrite IH; auto.
Qed.

(** The same over a prefix: it is copied, and the scan goes on behind. *)
Lemma sub_scan_copy_run a : forall b prev,
  (forall a1 c a2, a = a1 ++ c :: a2 ->
     match_at ic r (last_or prev a1) (c :: a2 ++ b) = None) ->
  sub_scan ic r tpl prev 0 (a ++ b)
  = a ++ sub_scan ic r tpl (last_or prev a) 0 b.
Proof.
  induction a as [|c a IH]; intros b prev H; [reflexivity|].
  simpl app. rewrite sub_scan_copy by (apply (H [] c a eq_refl)).
  simpl. f_equal. apply IH. intros a1 x a2 ->.
  apply (H (c :: a1) x a2 eq_refl).
Qed.

End SubFacts.

(** ** Lines and the whitespace step *)

Section Lines.
Context {U : UnicodeClasses}.

(** *** Trimming keeps what it cannot reach *)

Lemma lstrip_by_app p a b :
  lstrip_by p (a ++ b)
  = if forallb p a then lstrip_by p b else lstrip_by p a ++ b.
Proof.
  induction a as [|c a IH]; simpl; [reflexivity|].
  destruct (p c); simpl; [exact IH|reflexivity].
Qed.

Lemma lstrip_by_keeps p a x b :
  forallb (fun c => negb (p c)) x = true -> x <> [] ->
  exists a', lstrip_by p (a ++ x ++ b) = a' ++ x ++ b.
Proof.
  intros F N. rewrite lstrip_by_app. destruct (forallb p a).
  - exists []. destruct x as [|c x]; [contradiction|]. simpl in *.
    apply andb_true_iff in F. destruct F as [F _].
    apply negb_true_iff in F. rewrite F. reflexivity.
  - eauto.
Qed.

Lemma rstrip_by_keeps p a x b :
  forallb (fun c => negb (p c)) x = true -> x <> [] ->
  exists b', rstrip_by p (a ++ x ++ b) = a ++ x ++ b'.
Proof.
  intros F N. unfold rstrip_by. rewrite !rev_app_distr, <- app_assoc.
  destruct (lstrip_by_keeps p (rev b) (rev x) (rev a)) as [b' E].
  - rewrite forallb_rev. exact F.
  - intros H. apply N. apply (f_equal (@rev char)) in H.
    rewrite rev_involutive in H. exact H.
  - rewrite E. exists (rev b'). rewrite !rev_app_distr, !rev_involutive.
    rewrite <- app_assoc. reflexivity.
Qed.

Lemma strip_by_keeps p a x b :
  forallb (fun c => negb (p c)) x = true -> x <> [] ->
  exists a' b', strip_by p (a ++ x ++ b) = a' ++ x ++ b'.
Proof.
  intros F N. unfold strip_by.
  destruct (lstrip_by_keeps p a x b F N) as [a' ->].
  destruct (rstrip_by_keeps p a' x b F N) as [b' ->]. eauto.
Qed.

(** Trimming on the right stops at a visible character. *)
Lemma rstrip_by_after p a c b :
  p c = false -> rstrip_by p (a ++ c :: b) = a ++ c :: rstrip_by p b.
Proof.
  intros H. unfold rstrip_by.
  replace (a ++ c :: b) with ((a ++ [c]) ++ b) by (rewrite <- app_assoc; reflexivity).
  rewrite rev_app_distr, lstrip_by_app.
  destruct (forallb p (rev b)) eqn:E.
  - rewrite rev_app_distr. simpl. rewrite H.
    apply lstrip_by_nil in E. rewrite E. simpl.
    rewrite rev_involutive. reflexivity.
  - rewrite rev_app_distr, rev_involutive, <- app_assoc. reflexivity.
Qed.

(** *** Lines *)

Lemma split_no_sep sep t :
  Forall (fun l => ~ In sep l) (split sep t).
Proof.
  induction t as [|c t IH]; simpl.
  - constructor; [intros []|constructor].
  - destruct (c =? sep) eqn:E.
    + constructor; [intros []|exact IH].
    + assert (Hc : c <> sep) by (now apply N.eqb_neq).
      destruct (split sep t) as [|l ls].
      * constructor; [|constructor]. intros [H|[]]. auto.
      * inversion IH; subst. constructor; [|assumption].
        intros [H|H]; auto.
Qed.

Lemma join_middle sep l1 e l2 :
  exists a b, join sep (l1 ++ e :: l2) = a ++ e ++ b.
Proof.
  induction l1 as [|x l1 IH]; simpl.
  - exists []. destruct l2; [exists []; rewrite app_nil_r; reflexivity|].
    simpl. eauto.
  - destruct IH as (a & b & E).
    destruct (l1 ++ e :: l2) eqn:E'; [destruct l1; discriminate|].
    rewrite E. exists (x ++ sep ++ a), b. rewrite <- !app_assoc. reflexivity.
Qed.

Lemma lstrip_by_suffix p t : exists w, t = w ++ lstrip_by p t.
Proof.
  induction t as [|c t [w IH]]; simpl; [exists []; reflexivity|].
  destruct (p c); [|exists []; reflexivity].
  exists (c :: w). simpl. f_equal. exact IH.
Qed.

Lemma strip_by_infix p t : exists a b, t = a ++ strip_by p t ++ b.
Proof.
  unfold strip_by, rstrip_by. destruct (lstrip_by_suffix p t) as [a Ha].
  destruct (lstrip_by_suffix p (rev (lstrip_by p t))) as [b Hb].
  exists a, (rev b). rewrite <- rev_app_distr, <- Hb, rev_involutive.
  exact Ha.
Qed.

Lemma strip_no_newline line : ~ In NL line -> ~ In NL (strip line).
Proof.
  intros H Hin. destruct (strip_by_infix is_space line) as (a & b & E).
  apply H. rewrite E. apply in_or_app. right. apply in_or_app. now left.
Qed.

Lemma endswith_last t c : endswith t c = true -> exists t', t = t' ++ [c].
Proof.
  unfold endswith, startswith. destruct (rev t) as [|x l] eqn:E; [discriminate|].
  intros H. apply N.eqb_eq in H. subst x. exists (rev l).
  apply (f_equal (@rev char)) in E. rewrite rev_involutive in E. exact E.
Qed.

(** *** The loop of step 4 *)

Lemma merge_step_continuation done prev line :
  is_continuation line = true ->
  merge_step (done ++ [prev]) line = done ++ [prev ++ [SPACE] ++ strip line].
Proof.
  unfold is_continuation, merge_step. cbv zeta. intros ->.
  rewrite length_app. simpl length.
  replace (length done + 1 =? 0)%nat with false
    by (symmetry; apply Nat.eqb_neq; lia).
  simpl. rewrite removelast_last, last_last. reflexivity.
Qed.

Lemma merge_step_nonempty merged line : merge_step merged line <> [].
Proof.
  unfold merge_step. cbv zeta. destruct (_ && _ && _).
  - intros H. apply app_eq_nil in H. destruct H. discriminate.
  - intros H. apply app_eq_nil in H. destruct H. discriminate.
Qed.

Lemma merge_lines_snoc lines line :
  merge_lines (lines ++ [line]) = merge_step (merge_lines lines) line.
Proof. unfold merge_lines. rewrite fold_left_app. reflexivity. Qed.

Lemma merge_lines_nonempty lines : lines <> [] -> merge_lines lines <> [].
Proof.
  destruct lines as [|l ls] using rev_ind; [contradiction|]. intros _.
  rewrite merge_lines_snoc. apply merge_step_nonempty.
Qed.

(** Whatever follows, the rows before the last one stay, and the last one
    only grows. *)
Lemma merge_rest_keeps post : forall done x,
  exists tail others,
    fold_left merge_step post (done ++ [x]) = done ++ [x ++ tail] ++ others.
Proof.
  induction post as [|l post IH] using rev_ind; intros done x.
  - exists [], []. simpl. rewrite app_nil_r. reflexivity.
  - destruct (IH done x) as (tail & others & E).
    rewrite fold_left_app. simpl. rewrite E. unfold merge_step. cbv zeta.
    destruct (_ && _ && _).
    + destruct others as [|o others] using rev_ind.
      * exists (tail ++ [SPACE] ++ strip l), [].
        replace (done ++ [x ++ tail] ++ []) with (done ++ [x ++ tail])
          by (rewrite app_nil_r; reflexivity).
        rewrite removelast_last, last_last, <- !app_assoc. reflexivity.
      * clear IHothers. exists tail, (others ++ [o ++ [SPACE] ++ strip l]).
        replace (done ++ [x ++ tail] ++ others ++ [o])
          with ((done ++ [x ++ tail] ++ others) ++ [o])
          by (rewrite <- !app_assoc; reflexivity).
        rewrite removelast_last, last_last, <- !app_assoc. reflexivity.
    + exists tail, (others ++ [l]). rewrite <- !app_assoc. reflexivity.
Qed.

Lemma merge_step_no_newline merged line :
  Forall (fun l => ~ In NL l) merged -> ~ In NL line ->
  Forall (fun l => ~ In NL l) (merge_step merged line).
Proof.
  intros HM HL. unfold merge_step. cbv zeta. destruct (_ && _ && _).
  - destruct merged as [|m merged] using rev_ind.
    + simpl. constructor; [|constructor]. intros [H|H]; [discriminate|].
      revert H. apply strip_no_newline. exact HL.
    + clear IHmerged. rewrite removelast_last, last_last.
      apply Forall_app in HM. destruct HM as [HM Hm]. apply Forall_app.
      split; [exact HM|]. constructor; [|constructor].
      inversion Hm; subst. intros H. apply in_app_or in H.
      destruct H as [H|[H|H]]; [auto|discriminate|].
      revert H. apply strip_no_newline. exact HL.
  - apply Forall_app. split; [exact HM|]. constructor; auto.
Qed.

Lemma merge_lines_no_newline lines :
  Forall (fun l => ~ In NL l) lines ->
  Forall (fun l => ~ In NL l) (merge_lines lines).
Proof.
  induction lines as [|l ls IH] using rev_ind; intros H; [constructor|].
  rewrite merge_lines_snoc. apply Forall_app in H. destruct H as [H1 H2].
  inversion H2; subst. apply merge_step_no_newline; auto.
Qed.

(** *** Step 5 keeps a piece of a line that ends in a visible character *)

Lemma blank_run_first prev c t :
  c <> NL -> match_at false BLANK_RUN prev (c :: t) = None.
Proof.
  intros H. unfold match_at. simpl.
  destruct (c =? NL) eqn:E; [apply N.eqb_eq in E; contradiction|reflexivity].
Qed.

Lemma nl_prefix_bound (w r a : text) x y :
  w ++ r = a ++ x :: y -> forallb (alpha false BLANK_RUN) w = true ->
  x <> NL -> (length w <= length a)%nat.
Proof.
  revert a. induction w as [|c w IH]; intros a E F Hx; simpl; [lia|].
  simpl in F. apply andb_true_iff in F. destruct F as [Fc Fw].
  destruct a as [|c' a]; simpl in E.
  - injection E as -> _. exfalso. apply Hx.
    unfold lit_eq in Fc. simpl in Fc.
    repeat rewrite orb_true_iff in Fc. rewrite !N.eqb_eq in Fc.
    destruct Fc as [?|[?|[?|?]]]; auto.
  - injection E as _ E. simpl. apply le_n_S. eapply IH; eauto.
Qed.

Lemma collapse_keeps x b tpl :
  ~ In NL x -> x <> [] ->
  forall a prev skip, (skip <= length a)%nat ->
  exists a' b',
    sub_scan false BLANK_RUN tpl prev skip (a ++ x ++ b) = a' ++ x ++ b'.
Proof.
  intros Hx Nx. induction a as [|c a IH]; intros prev skip L.
  - simpl in L. assert (skip = O) by lia. subst skip. simpl app.
    rewrite sub_scan_copy_run. { exists []. simpl. eauto. }
    intros a1 z a2 ->. apply blank_run_first. intros ->.
    apply Hx. apply in_or_app. right. now left.
  - destruct skip as [|k].
    + simpl app. cbn [sub_scan].
      destruct (match_at false BLANK_RUN prev (c :: a ++ x ++ b)) as [m|] eqn:M.
      * unfold match_at in M.
        destruct (rmatch false BLANK_RUN _) as [|m' l] eqn:R; [discriminate|].
        injection M as ->.
        destruct (rmatch_run false BLANK_RUN
                    (MState prev (c :: a ++ x ++ b) []) m) as (w & Rw & _ & Fw);
          [rewrite R; now left|]. simpl in Rw.
        destruct x as [|x0 x]; [contradiction|].
        assert (Lw : (length w <= length (c :: a))%nat).
        { eapply (nl_prefix_bound w (rest m) (c :: a) x0 (x ++ b)); eauto.
          intros ->. apply Hx. now left. }
        assert (Ln : (length (c :: a ++ (x0 :: x) ++ b) - length (rest m)
                      = length w)%nat).
        { rewrite Rw, length_app. lia. }
        rewrite Ln. destruct (length w) as [|k] eqn:Ew.
        -- destruct (IH (Some c) O) as (a' & b' & E); [lia|].
           rewrite E. exists (expand tpl (groups m) ++ c :: a'), b'.
           rewrite <- app_assoc. reflexivity.
        -- destruct (IH (Some c) k) as (a' & b' & E); [simpl in Lw; lia|].
           rewrite E. exists (expand tpl (groups m) ++ a'), b'.
           rewrite <- app_assoc. reflexivity.
      * destruct (IH (Some c) O) as (a' & b' & E); [lia|].
        rewrite E. exists (c :: a'), b'. reflexivity.
    + simpl. apply IH. simpl in L. lia.
Qed.

Lemma normalize_whitespace_keeps done x c tail others :
  ~ In NL (x ++ [c]) -> is_space c = false ->
  exists a b,
    normalize_whitespace (done ++ [(x ++ [c]) ++ tail] ++ others)
    = a ++ (x ++ [c]) ++ b.
Proof.
  intros Hx Hc. unfold normalize_whitespace. cbv zeta.
  rewrite map_app. simpl map.
  rewrite <- (app_assoc x [c] tail). simpl app at 2.
  rewrite (rstrip_by_after is_space x c tail Hc : rstrip (x ++ c :: tail) = _).
  destruct (join_middle [NL] (map rstrip done) (x ++ c :: rstrip_by is_space tail)
              (map rstrip others)) as (a & b & E).
  unfold text in *. rewrite E. clear E.
  replace (a ++ (x ++ c :: rstrip_by is_space tail) ++ b)
    with (a ++ (x ++ [c]) ++ (rstrip_by is_space tail ++ b))
    by (rewrite <- !app_assoc; reflexivity).
  destruct (collapse_keeps (x ++ [c]) (rstrip_by is_space tail ++ b)
              [TLit [NL; NL]] Hx) with (a := a) (prev := @None char) (skip := O)
    as (a' & b' & E); [destruct x; discriminate|lia|].
  unfold re_sub. rewrite E. unfold strip_newlines.
  apply strip_by_keeps; [|destruct x; discriminate].
  apply forallb_forall. intros z Hz. apply negb_true_iff. apply N.eqb_neq.
  intros <-. apply Hx. exact Hz.
Qed.

End Lines.

(** ** Table continuations *)

(** C6, as the code has it: among the lines of the text as it reaches the
    line loop (after steps 1 to 3), a line after the first whose stripped
    form ends with the delimiter and does not start with it is not kept as
    a line: its stripped form is appended, after one space, to the row
    built before it, and the output holds the two joined in that way. *)
Theorem continuation_appended {U : UnicodeClasses}
        (raw : text) (pre : list text) (line : text) (post : list text) :
  raw <> [] ->
  split NL (repaired raw) = pre ++ line :: post ->
  pre <> [] ->
  is_continuation line = true ->
  exists done prev,
    merge_lines pre = done ++ [prev]
    /\ merge_lines (pre ++ [line]) = done ++ [prev ++ [SPACE] ++ strip line]
    /\ exists a b,
        normalize_for_llm raw = a ++ (prev ++ [SPACE] ++ strip line) ++ b.
Proof.
  intros Hraw Hsplit Hpre Hcont.
  destruct (merge_lines pre) as [|prev done _] eqn:Epre using rev_ind.
  { exfalso. revert Epre. apply merge_lines_nonempty. exact Hpre. }
  exists done, prev. split; [reflexivity|].
  assert (Estep : merge_lines (pre ++ [line])
                  = done ++ [prev ++ [SPACE] ++ strip line]).
  { rewrite merge_lines_snoc, Epre. apply merge_step_continuation. exact Hcont. }
  split; [exact Estep|].
  assert (Hnl : Forall (fun l => ~ In NL l) (pre ++ line :: post))
    by (rewrite <- Hsplit; apply split_no_sep).
  apply Forall_app in Hnl. destruct Hnl as [Hnl_pre Hnl_post].
  inversion Hnl_post as [|? ? Hnl_line _]; subst.
  assert (Hprev : ~ In NL prev).
  { pose proof (merge_lines_no_newline pre Hnl_pre) as H. rewrite Epre in H.
    apply Forall_app in H. destruct H as [_ H]. inversion H; auto. }
  unfold is_continuation in Hcont. cbv zeta in Hcont.
  apply andb_true_iff in Hcont. destruct Hcont as [Hend _].
  destruct (endswith_last _ _ Hend) as [body Ebody].
  assert (Hstrip : ~ In NL (strip line)) by (now apply strip_no_newline).
  destruct raw as [|r0 raw]; [contradiction|].
  unfold normalize_for_llm. rewrite Hsplit.
  replace (pre ++ line :: post) with ((pre ++ [line]) ++ post)
    by (rewrite <- app_assoc; reflexivity).
  unfold merge_lines at 1. rewrite fold_left_app.
  fold (merge_lines (pre ++ [line])). rewrite Estep.
  destruct (merge_rest_keeps post done (prev ++ [SPACE] ++ strip line))
    as (tail & others & E).
  unfold text in *. rewrite E. clear E. rewrite Ebody in *.
  replace (prev ++ [SPACE] ++ body ++ [PIPE])
    with ((prev ++ [SPACE] ++ body) ++ [PIPE])
    by (rewrite <- !app_assoc; reflexivity).
  apply normalize_whitespace_keeps; [|reflexivity].
  rewrite <- !app_assoc. intros H. apply in_app_or in H.
  destruct H as [H|[H|H]]; [auto|discriminate|]. simpl in H. auto.
Qed.

Lemma continuation_appended_witness :
  exists done prev,
    merge_lines [py "| Paloma | tequila,"] = done ++ [prev]
    /\ merge_lines ([py "| Paloma | tequila,"] ++ [py "  lime |"])
       = done ++ [prev ++ [SPACE] ++ strip (py "  lime |")]
    /\ exists a b,
        normalize_for_llm (py "| Paloma | tequila,\n  lime |\n| Spritz | wine |")
        = a ++ (prev ++ [SPACE] ++ strip (py "  lime |")) ++ b.
Proof.
  apply (continuation_appended
           (py "| Paloma | tequila,\n  lime |\n| Spritz | wine |")
           [py "| Paloma | tequila,"] (py "  lime |")
           [py "| Spritz | wine |"]).
  - discriminate.
  - vm_compute. reflexivity.
  - discriminate.
  - vm_compute. reflexivity.
Defined.

(** ** Currency *)

Section Currency.
Context {U : UnicodeClasses}.

(** *** Characters *)

Lemma lower_cases c x :
  ascii_lower x = true -> lower c = x -> c = x \/ c = x - 32.
Proof.
  unfold lower, ascii_upper, ascii_lower. intros Hx.
  destruct ((65 <=? c) && (c <=? 90)) eqn:E; intros H; [right|left; auto].
  bool_lia.
Qed.

Lemma lower_fixed c x :
  ascii_lower x = false -> ascii_upper x = false ->
  (lower c =? lower x) = (c =? x).
Proof.
  unfold lower, ascii_upper, ascii_lower. intros H1 H2. rewrite H2.
  destruct ((65 <=? c) && (c <=? 90)) eqn:E; [|reflexivity].
  destruct (c + 32 =? x) eqn:E1; destruct (c =? x) eqn:E2; auto; bool_lia.
Qed.

Lemma digit_is_ascii_or_high c :
  is_digit c = true -> ascii_digit c = true \/ 128 <= c.
Proof.
  intros H. destruct (N.lt_ge_cases c 128) as [L|L]; [left|right; exact L].
  rewrite <- (digit_ascii c L). exact H.
Qed.

Lemma digit_not_space c : is_digit c = true -> is_space c = false.
Proof.
  intros H. destruct (is_space c) eqn:E; [|reflexivity].
  apply space_not_word in E. apply digit_is_word in H. congruence.
Qed.

Lemma digit_not c x :
  is_digit c = true -> x < 128 -> ascii_digit x = false -> c <> x.
Proof.
  intros H L D ->. rewrite (digit_ascii x L) in H. congruence.
Qed.

Lemma digit_not_nonword c x : is_digit c = true -> is_word x = false -> c <> x.
Proof. intros H W ->. apply digit_is_word in H. congruence. Qed.

Lemma lit_lt c : c <> 60 -> lit_eq true 60 c = false.
Proof.
  intros H. unfold lit_eq. rewrite (lower_fixed c 60) by reflexivity.
  now apply N.eqb_neq.
Qed.

Lemma lit_e c : c <> 101 -> c <> 69 -> lit_eq true 101 c = false.
Proof.
  intros H1 H2. unfold lit_eq. apply N.eqb_neq. intros E.
  change (lower 101) with 101 in E.
  destruct (lower_cases c 101 eq_refl E) as [?|?]; auto.
Qed.

Lemma digit_quiet c :
  is_digit c = true ->
  lit_eq true 60 c = false /\ lit_eq false REPLACEMENT_CHAR c = false
  /\ lit_eq false NL c = false.
Proof.
  intros H. repeat split.
  - apply lit_lt. apply (digit_not c 60 H); reflexivity.
  - apply N.eqb_neq. apply digit_not_nonword; auto. apply replacement_not_word.
  - apply N.eqb_neq. apply (digit_not c NL H); reflexivity.
Qed.

Lemma digit_not_e c : is_digit c = true -> lit_eq true 101 c = false.
Proof.
  intros H. apply lit_e; apply (digit_not c _ H); reflexivity.
Qed.

Lemma digit_not_euro c : is_digit c = true -> (c =? EURO) = false.
Proof.
  intros H. apply N.eqb_neq. apply digit_not_nonword; auto. apply euro_not_word.
Qed.

Lemma separator_cases c : is_separator c = true -> c = 46 \/ c = 44.
Proof. unfold is_separator. intros H. bool_lia. Qed.

Lemma separator_not_digit c : is_separator c = true -> is_digit c = false.
Proof.
  intros H. destruct (separator_cases c H) as [-> | ->];
    rewrite digit_ascii by reflexivity; reflexivity.
Qed.

Lemma euro_not_digit : is_digit EURO = false.
Proof.
  destruct (is_digit EURO) eqn:E; [|reflexivity].
  apply digit_is_word in E. rewrite euro_not_word in E. discriminate.
Qed.

(** *** Steps that find nothing to do *)

Lemma existsb_none {A} (q : A -> bool) l :
  (forall x, In x l -> q x = false) -> existsb q l = false.
Proof.
  induction l as [|x l IH]; intros H; simpl; [reflexivity|].
  rewrite (H x (or_introl eq_refl)), IH; auto. intros y Hy. apply H. now right.
Qed.

Lemma html_breaks_inert t :
  existsb (lit_eq true 60) t = false -> html_breaks t = t.
Proof.
  intros H. unfold html_breaks, re_sub.
  apply (sub_scan_inert true BR_PATTERN _ (lit_eq true 60)); [|exact H].
  simpl. left. auto.
Qed.

Lemma fix_replacement_inert t :
  existsb (lit_eq false REPLACEMENT_CHAR) t = false -> fix_replacement t = t.
Proof.
  intros H. unfold fix_replacement, re_sub. cbv zeta.
  rewrite (sub_scan_inert false BETWEEN_WORDS _ (lit_eq false REPLACEMENT_CHAR));
    [|simpl; right; right; left; auto|exact H].
  rewrite (sub_scan_inert false AFTER_DIGIT _ (lit_eq false REPLACEMENT_CHAR));
    [|simpl; right; right; left; auto|exact H].
  apply (sub_scan_inert false STANDALONE _ (lit_eq false REPLACEMENT_CHAR));
    [simpl; right; left; auto|exact H].
Qed.

Lemma eur_token_inert tpl t prev :
  existsb (lit_eq true 101) t = false ->
  sub_scan true EUR_TOKEN tpl prev 0 t = t.
Proof.
  intros H. apply (sub_scan_inert true EUR_TOKEN _ (lit_eq true 101)); [|exact H].
  simpl. right. left. auto.
Qed.

Lemma amount_euro_inert tpl t prev :
  existsb (lit_eq false EURO) t = false ->
  sub_scan false AMOUNT_EURO tpl prev 0 t = t.
Proof.
  intros H. apply (sub_scan_inert false AMOUNT_EURO _ (lit_eq false EURO));
    [|exact H].
  simpl. right. right. left. auto.
Qed.

Lemma blank_run_inert tpl t prev :
  existsb (lit_eq false NL) t = false ->
  sub_scan false BLANK_RUN tpl prev 0 t = t.
Proof.
  intros H. apply (sub_scan_inert false BLANK_RUN _ (lit_eq false NL)); [|exact H].
  simpl. left. auto.
Qed.

Lemma split_one sep t : existsb (lit_eq false sep) t = false -> split sep t = [t].
Proof.
  induction t as [|c t IH]; simpl; [reflexivity|]. unfold lit_eq at 1.
  intros H. apply orb_false_iff in H. destruct H as [Hc Ht].
  rewrite Hc, (IH Ht). reflexivity.
Qed.

Lemma merge_lines_one line : merge_lines [line] = [line].
Proof.
  unfold merge_lines, merge_step. simpl. rewrite andb_false_r. reflexivity.
Qed.

Lemma rstrip_by_all p w : forallb p w = true -> rstrip_by p w = [].
Proof.
  intros H. unfold rstrip_by. rewrite <- forallb_rev in H.
  apply lstrip_by_nil in H. rewrite H. reflexivity.
Qed.

Lemma strip_by_fixed p c body d :
  p c = false -> p d = false -> strip_by p (c :: body ++ [d]) = c :: body ++ [d].
Proof.
  intros Hc Hd. unfold strip_by. simpl. rewrite Hc.
  change (c :: body ++ [d]) with ((c :: body) ++ [d]).
  rewrite rstrip_by_after by exact Hd. reflexivity.
Qed.

(** A single line that ends in a visible character, with blanks behind it:
    steps 4 and 5 return the line without the blanks. *)
Lemma finish_single_line c body d w :
  existsb (lit_eq false NL) (c :: body ++ d :: w) = false ->
  is_space c = false -> is_space d = false -> forallb is_space w = true ->
  normalize_whitespace (merge_lines (split NL (c :: body ++ d :: w)))
  = c :: body ++ [d].
Proof.
  intros Hnl Hc Hd Hw. rewrite (split_one NL _ Hnl), merge_lines_one.
  unfold normalize_whitespace. cbv zeta. simpl map. simpl join.
  change (c :: body ++ d :: w) with ((c :: body) ++ d :: w).
  rewrite (rstrip_by_after is_space (c :: body) d w Hd : rstrip _ = _).
  rewrite (rstrip_by_all is_space w Hw).
  unfold re_sub. rewrite blank_run_inert.
  - apply strip_by_fixed.
    + simpl in Hnl. apply orb_false_iff in Hnl. destruct Hnl as [H _].
      unfold lit_eq in H. rewrite N.eqb_sym. exact H.
    + simpl in Hnl. apply orb_false_iff in Hnl. destruct Hnl as [_ H].
      rewrite existsb_app in H. apply orb_false_iff in H. destruct H as [_ H].
      simpl in H. apply orb_false_iff in H. destruct H as [H _].
      unfold lit_eq in H. rewrite N.eqb_sym. exact H.
  - simpl in *. apply orb_false_iff in Hnl. destruct Hnl as [H1 H2].
    rewrite H1. simpl. rewrite existsb_app in *. simpl in *.
    apply orb_false_iff in H2. destruct H2 as [H2 H3].
    apply orb_false_iff in H3. destruct H3 as [H3 _].
    rewrite H2, H3. reflexivity.
Qed.

End Currency.

Section CurrencyMatch.
Context {U : UnicodeClasses}.

Lemma first_Grp ic i r s s1 :
  hd_error (rmatch ic r s) = Some s1 ->
  hd_error (rmatch ic (Grp i r) s) = Some (capture i s s1).
Proof.
  simpl. destruct (rmatch ic r s); simpl; [discriminate|].
  intros H; injection H as ->. reflexivity.
Qed.

Lemma stops_weaken (p q : char -> bool) t :
  (forall c, q c = false -> p c = false) -> stops q t -> stops p t.
Proof. intros H. destruct t; simpl; auto. Qed.

Lemma last_or_cons_app p a c b :
  last_or p (a ++ c :: b) = last_or (Some c) b.
Proof. rewrite last_or_app. reflexivity. Qed.

Lemma amount_first p int frac t g :
  digits int -> decimals frac ->
  stops (fun c => is_digit c || is_separator c) t ->
  hd_error (rmatch false AMOUNT (MState p (amount int frac ++ t) g))
  = Some (MState (last_or p (amount int frac)) t g).
Proof.
  intros [Hne Hint] Hfrac Ht. destruct int as [|x w]; [contradiction|].
  simpl in Hint. apply andb_true_iff in Hint. destruct Hint as [Hx Hw].
  assert (Htd : stops is_digit t)
    by (eapply stops_weaken; [|exact Ht];
        intros c H; apply orb_false_iff in H; tauto).
  unfold AMOUNT, amount.
  destruct frac as [[sep ds]|]; simpl in Hfrac.
  - destruct Hfrac as [Hsep [Hds Hdig]]. destruct ds as [|y ds]; [contradiction|].
    simpl in Hdig. apply andb_true_iff in Hdig. destruct Hdig as [Hy Hds'].
    replace (((x :: w) ++ sep :: y :: ds) ++ t)
      with (x :: w ++ (sep :: y :: ds ++ t))
      by (simpl; rewrite <- app_assoc; reflexivity).
    replace (last_or p ((x :: w) ++ sep :: y :: ds))
      with (last_or (Some y) ds)
      by (symmetry; apply (last_or_cons_app p ((x :: w) ++ [sep]) y ds
                           : last_or p (((x :: w) ++ [sep]) ++ y :: ds) = _
                           ) || (rewrite last_or_app; reflexivity)).
    apply (first_Cat _ _ _ _ (MState (last_or (Some x) w) (sep :: y :: ds ++ t) g)).
    + apply first_Plus; auto. simpl. apply separator_not_digit. exact Hsep.
    + apply first_Opt.
      apply (first_Cat _ _ _ _ (MState (Some sep) (y :: ds ++ t) g)).
      * apply first_Cls. exact Hsep.
      * apply first_Plus; auto.
  - replace (((x :: w) ++ []) ++ t) with (x :: w ++ t)
      by (rewrite app_nil_r; reflexivity).
    replace (last_or p ((x :: w) ++ [])) with (last_or (Some x) w)
      by (rewrite app_nil_r; reflexivity).
    apply (first_Cat _ _ _ _ (MState (last_or (Some x) w) t g)).
    + apply first_Plus; auto.
    + apply first_Opt_none_hd.
      destruct t as [|c t]; [reflexivity|]. simpl in Ht. simpl.
      apply orb_false_iff in Ht. destruct Ht as [_ Ht]. rewrite Ht. reflexivity.
Qed.

(** The whole pattern at an amount, blanks, the sign, blanks. *)
Lemma amount_euro_first p int frac w1 w2 t :
  digits int -> decimals frac ->
  forallb is_space w1 = true -> forallb is_space w2 = true ->
  stops is_space t ->
  match_at false AMOUNT_EURO p (amount int frac ++ w1 ++ EURO :: w2 ++ t)
  = Some (MState (last_or (Some EURO) w2) t [(1%nat, amount int frac)]).
Proof.
  intros Hint Hfrac H1 H2 Ht. unfold match_at, AMOUNT_EURO. cbn [Seq]. fold ws.
  set (A := amount int frac).
  set (s0 := MState p (A ++ w1 ++ EURO :: w2 ++ t) []).
  apply (first_Cat _ _ _ _
           (capture 1 s0 (MState (last_or p A) (w1 ++ EURO :: w2 ++ t) []))).
  - apply first_Grp. apply (amount_first p int frac _ [] Hint Hfrac).
    destruct w1 as [|c w1]; simpl.
    + rewrite euro_not_digit. reflexivity.
    + simpl in H1. apply andb_true_iff in H1. destruct H1 as [Hc _].
      destruct (is_digit c) eqn:D;
        [apply digit_not_space in D; congruence|].
      destruct (is_separator c) eqn:S; [|reflexivity].
      destruct (separator_cases c S) as [-> | ->]; discriminate.
  - unfold capture. cbn [before rest groups]. subst s0. cbn [rest].
    replace (length (A ++ w1 ++ EURO :: w2 ++ t)
             - length (w1 ++ EURO :: w2 ++ t))%nat with (length A)
      by (rewrite length_app; lia).
    rewrite firstn_app, firstn_all, Nat.sub_diag. simpl firstn.
    rewrite app_nil_r.
    apply (first_Cat _ _ _ _ (MState (last_or (last_or p A) w1)
                                     (EURO :: w2 ++ t) [(1%nat, A)])).
    + apply first_Star; auto. reflexivity.
    + apply (first_Cat _ _ _ _ (MState (Some EURO) (w2 ++ t) [(1%nat, A)])).
      * apply first_Lit. reflexivity.
      * apply first_Star; auto.
Qed.

End CurrencyMatch.

Section CurrencyTheorem.
Context {U : UnicodeClasses}.

Lemma eur_token_first prev c t :
  lit_eq true 101 c = false -> match_at true EUR_TOKEN prev (c :: t) = None.
Proof.
  unfold lit_eq. intros H. unfold match_at, EUR_TOKEN. simpl.
  destruct (at_boundary _); simpl; [|reflexivity]. rewrite H. reflexivity.
Qed.

Lemma letter_is_word c x :
  ascii_lower x = true -> lower c = x -> is_word c = true.
Proof.
  intros Hx Hc. destruct (lower_cases c x Hx Hc) as [-> | ->].
  - rewrite word_ascii.
    + unfold ascii_word. rewrite Hx. rewrite orb_true_r. reflexivity.
    + unfold ascii_lower in Hx. bool_lia.
  - unfold ascii_lower in Hx. rewrite word_ascii by bool_lia.
    unfold ascii_word, ascii_upper.
    replace ((65 <=? x - 32) && (x - 32 <=? 90)) with true
      by (symmetry; apply andb_true_iff; split; apply N.leb_le; bool_lia).
    rewrite orb_true_r. reflexivity.
Qed.

Lemma first_Bnd ic s :
  at_boundary s = true -> hd_error (rmatch ic Bnd s) = Some s.
Proof. intros H. simpl. rewrite H. reflexivity. Qed.

(** The token between two non-word neighbours is matched, whatever its
    letter case. *)
Lemma eur_token_match prev c1 c2 c3 t :
  lower c1 = 101 -> lower c2 = 117 -> lower c3 = 114 ->
  word_before prev = false -> stops is_word t ->
  match_at true EUR_TOKEN prev (c1 :: c2 :: c3 :: t)
  = Some (MState (Some c3) t []).
Proof.
  intros H1 H2 H3 Hp Ht. unfold match_at, EUR_TOKEN. cbn [Seq].
  apply (first_Cat _ _ _ _ (MState prev (c1 :: c2 :: c3 :: t) [])).
  { apply first_Bnd. unfold at_boundary. cbn [before rest].
    unfold word_before in Hp. rewrite Hp.
    rewrite (letter_is_word c1 101 eq_refl H1). reflexivity. }
  apply (first_Cat _ _ _ _ (MState (Some c1) (c2 :: c3 :: t) [])).
  { apply first_Lit. unfold lit_eq. rewrite H1. reflexivity. }
  apply (first_Cat _ _ _ _ (MState (Some c2) (c3 :: t) [])).
  { apply first_Lit. unfold lit_eq. rewrite H2. reflexivity. }
  apply (first_Cat _ _ _ _ (MState (Some c3) t [])).
  { apply first_Lit. unfold lit_eq. rewrite H3. reflexivity. }
  apply first_Bnd. unfold at_boundary. cbn [before rest].
  rewrite (letter_is_word c3 114 eq_refl H3).
  destruct t as [|c t]; [reflexivity|]. simpl in Ht. rewrite Ht. reflexivity.
Qed.

Lemma amount_chars int frac c :
  digits int -> decimals frac -> In c (amount int frac) ->
  is_digit c = true \/ is_separator c = true.
Proof.
  intros [_ Hint] Hfrac Hin. unfold amount in Hin. apply in_app_or in Hin.
  destruct Hin as [Hin|Hin].
  - left. rewrite forallb_forall in Hint. auto.
  - destruct frac as [[sep ds]|]; [|destruct Hin].
    destruct Hfrac as [Hsep [_ Hds]]. destruct Hin as [<-|Hin]; [now right|].
    left. rewrite forallb_forall in Hds. auto.
Qed.

Lemma amount_char_quiet c :
  is_digit c = true \/ is_separator c = true ->
  lit_eq true 60 c = false /\ lit_eq false REPLACEMENT_CHAR c = false
  /\ lit_eq true 101 c = false /\ lit_eq false EURO c = false
  /\ lit_eq false NL c = false /\ is_space c = false.
Proof.
  intros [H|H].
  - destruct (digit_quiet c H) as (Q1 & Q2 & Q3). repeat split; auto.
    + now apply digit_not_e.
    + now apply digit_not_euro.
    + now apply digit_not_space.
  - destruct (separator_cases c H) as [-> | ->]; repeat split; reflexivity.
Qed.

Lemma amount_nonempty int frac : digits int -> amount int frac <> [].
Proof. intros [H _]. unfold amount. destruct int; [contradiction|discriminate]. Qed.

Lemma existsb_amount (q : char -> bool) int frac :
  digits int -> decimals frac ->
  (forall c, is_digit c = true \/ is_separator c = true -> q c = false) ->
  existsb q (amount int frac) = false.
Proof.
  intros Hint Hfrac H. apply existsb_none. intros c Hc. apply H.
  eapply amount_chars; eauto.
Qed.

Lemma normalize_nonempty raw :
  raw <> [] ->
  normalize_for_llm raw
  = normalize_whitespace (merge_lines (split NL (repaired raw))).
Proof. destruct raw; [contradiction|reflexivity]. Qed.

(** C3, as the code has it: a text that is an amount followed by the euro
    sign, or an amount, a space and the code in any letter case, comes out
    as the amount, one space and [EUR], the decimal part unchanged (the
    space the rewrite writes behind [EUR] is trimmed at the end of the
    line). *)
Theorem amount_currency_normalized (int : text) (frac : option (char * text))
        (code : text) :
  digits int -> decimals frac -> map lower code = py "eur" ->
  normalize_for_llm (amount int frac ++ [EURO]) = amount int frac ++ py " EUR"
  /\ normalize_for_llm (amount int frac ++ SPACE :: code)
     = amount int frac ++ py " EUR".
Proof.
  intros Hint Hfrac Hcode.
  pose proof (amount_nonempty int frac Hint) as Hne.
  assert (Q : forall q : char -> bool,
             (forall c, is_digit c = true \/ is_separator c = true -> q c = false) ->
             existsb q (amount int frac) = false)
    by (intros q; apply existsb_amount; auto).
  remember (amount int frac) as A eqn:EA.
  assert (HA : forall c, In c A ->
                 is_digit c = true \/ is_separator c = true)
    by (intros c Hc; subst A; eapply amount_chars; eauto).
  assert (Hfin : forall w, forallb is_space w = true ->
                 existsb (lit_eq false NL) w = false ->
                 normalize_whitespace (merge_lines (split NL (A ++ py " EUR" ++ w)))
                 = A ++ py " EUR").
  { intros w Hw Hnl. clear EA. destruct A as [|x A']; [contradiction|].
    pose proof (Q (lit_eq false NL)
                  (fun c Hc => proj1 (proj2 (proj2 (proj2 (proj2
                     (amount_char_quiet c Hc))))))) as Qnl.
    simpl in Qnl. apply orb_false_iff in Qnl. destruct Qnl as [Qx QA].
    replace ((x :: A') ++ py " EUR" ++ w)
      with (x :: (A' ++ [32; 69; 85]) ++ 82 :: w)
      by (simpl; rewrite <- app_assoc; reflexivity).
    replace ((x :: A') ++ py " EUR") with (x :: (A' ++ [32; 69; 85]) ++ [82])
      by (simpl; rewrite <- app_assoc; reflexivity).
    apply finish_single_line; auto.
    - simpl. rewrite Qx. simpl. rewrite !existsb_app, QA. simpl. exact Hnl.
    - apply amount_char_quiet. apply HA. now left. }
  split.
  - assert (E : repaired (A ++ [EURO]) = A ++ py " EUR ").
    { unfold repaired. rewrite html_breaks_inert, fix_replacement_inert.
      - unfold normalize_currency, re_sub. cbv zeta.
        rewrite eur_token_inert.
        + pose proof (amount_euro_first None int frac [] [] [] Hint Hfrac
                        eq_refl eq_refl I) as M.
          rewrite <- EA in M. simpl in M.
          destruct A as [|x A']; [contradiction|].
          replace ((x :: A') ++ [EURO]) with (x :: (A' ++ [EURO]) ++ [])
            in * by (rewrite app_nil_r; reflexivity).
          rewrite (sub_scan_match false AMOUNT_EURO _ None x (A' ++ [EURO]) []
                     _ M eq_refl).
          rewrite amount_euro_inert by reflexivity. simpl.
          rewrite app_nil_r. reflexivity.
        + rewrite existsb_app, Q; [reflexivity|].
          intros c Hc. apply amount_char_quiet. exact Hc.
      - rewrite existsb_app, Q; [reflexivity|].
        intros c Hc. apply amount_char_quiet. exact Hc.
      - rewrite existsb_app, Q; [reflexivity|].
        intros c Hc. apply amount_char_quiet. exact Hc. }
    rewrite normalize_nonempty by (destruct A; discriminate).
    rewrite E. apply (Hfin [SPACE]); reflexivity.
  - destruct code as [|c1 [|c2 [|c3 [|? ?]]]]; try discriminate.
    injection Hcode as H1 H2 H3.
    assert (N1 : c1 = 101 \/ c1 = 69) by (apply (lower_cases c1 101 eq_refl H1)).
    assert (N2 : c2 = 117 \/ c2 = 85) by (apply (lower_cases c2 117 eq_refl H2)).
    assert (N3 : c3 = 114 \/ c3 = 82) by (apply (lower_cases c3 114 eq_refl H3)).
    assert (E : repaired (A ++ SPACE :: [c1; c2; c3]) = A ++ py " EUR").
    { unfold repaired. rewrite html_breaks_inert, fix_replacement_inert.
      - unfold normalize_currency, re_sub. cbv zeta.
        replace (A ++ SPACE :: [c1; c2; c3])
          with ((A ++ [SPACE]) ++ [c1; c2; c3])
          by (rewrite <- app_assoc; reflexivity).
        rewrite sub_scan_copy_run.
        + rewrite (sub_scan_match true EUR_TOKEN _ _ c1 [c2; c3] []
                     (MState (Some c3) [] [])); [| |reflexivity].
          * rewrite eur_token_inert by reflexivity. simpl.
            rewrite amount_euro_inert.
            -- rewrite <- app_assoc. reflexivity.
            -- rewrite existsb_app, existsb_app, Q; [reflexivity|].
               intros c Hc. apply amount_char_quiet. exact Hc.
          * apply eur_token_match; auto; [|exact I].
            rewrite last_or_app. simpl. apply space_not_word. reflexivity.
        + intros a1 c a2 Ea. apply eur_token_first.
          assert (Hc : In c (A ++ [SPACE]))
            by (rewrite Ea; apply in_or_app; right; now left).
          apply in_app_or in Hc. destruct Hc as [Hc|[<-|[]]]; [|reflexivity].
          apply amount_char_quiet. apply HA. exact Hc.
      - rewrite existsb_app, Q.
        + destruct N1 as [-> | ->], N2 as [-> | ->], N3 as [-> | ->]; reflexivity.
        + intros c Hc. apply amount_char_quiet. exact Hc.
      - rewrite existsb_app, Q.
        + destruct N1 as [-> | ->], N2 as [-> | ->], N3 as [-> | ->]; reflexivity.
        + intros c Hc. apply amount_char_quiet. exact Hc. }
    rewrite normalize_nonempty by (destruct A; discriminate).
    rewrite E.
    rewrite <- (app_nil_r (py " EUR")) at 1. apply (Hfin []); reflexivity.
Qed.

End CurrencyTheorem.

Lemma amount_currency_normalized_witness :
  normalize_for_llm (py "15.50\u20AC") = py "15.50 EUR"
  /\ normalize_for_llm (py "15.50 eUr") = py "15.50 EUR".
Proof.
  apply (amount_currency_normalized (py "15") (Some (46, py "50")) (py "eUr")).
  - split; [discriminate|reflexivity].
  - split; [reflexivity|]. split; [discriminate|reflexivity].
  - reflexivity.
Defined.

(** ** Fenced blocks *)

Section Fence.
Context {U : UnicodeClasses}.

(** *** Prefixes and substrings *)

Lemma is_prefix_app x t b : is_prefix x t = true -> is_prefix x (t ++ b) = true.
Proof.
  revert t; induction x as [|c x IH]; intros [|d t]; simpl; auto; try discriminate.
  rewrite !andb_true_iff. intros [H1 H2]. auto.
Qed.

Lemma is_substring_prefix x t : is_prefix x t = true -> is_substring x t = true.
Proof. intros H. destruct t; simpl in *; rewrite H; reflexivity. Qed.

Lemma is_substring_app_r x t b :
  is_substring x t = true -> is_substring x (t ++ b) = true.
Proof.
  induction t as [|c t IH]; simpl.
  - rewrite orb_false_r. intros H. apply is_substring_prefix.
    apply (is_prefix_app x [] b H).
  - rewrite !orb_true_iff. intros [H|H].
    + left. apply (is_prefix_app x (c :: t) b H).
    + right. auto.
Qed.

Lemma is_substring_app_l x a t :
  is_substring x t = true -> is_substring x (a ++ t) = true.
Proof.
  intros H. induction a as [|c a IH]; simpl; [exact H|].
  rewrite IH. apply orb_true_r.
Qed.

Lemma is_substring_infix x a t b :
  is_substring x t = true -> is_substring x (a ++ t ++ b) = true.
Proof. intros H. apply is_substring_app_l, is_substring_app_r, H. Qed.

(** *** Trimming, taken apart *)

Lemma lstrip_by_split p t :
  exists w, t = w ++ lstrip_by p t /\ forallb p w = true
            /\ stops p (lstrip_by p t).
Proof.
  induction t as [|c t (w & E & F & S)]; simpl.
  - exists []. repeat split.
  - destruct (p c) eqn:Hc.
    + exists (c :: w). simpl. rewrite Hc, F. repeat split; auto.
      f_equal. exact E.
    + exists []. repeat split. simpl. exact Hc.
Qed.

Lemma rstrip_by_split p t :
  exists w, t = rstrip_by p t ++ w /\ forallb p w = true
            /\ stops p (rev (rstrip_by p t)).
Proof.
  unfold rstrip_by. destruct (lstrip_by_split p (rev t)) as (w & E & F & S).
  exists (rev w). rewrite rev_involutive. repeat split; auto.
  - rewrite <- rev_app_distr, <- E, rev_involutive. reflexivity.
  - rewrite forallb_rev. exact F.
Qed.

Lemma strip_by_split p t :
  exists w1 w2,
    t = w1 ++ strip_by p t ++ w2
    /\ forallb p w1 = true /\ forallb p w2 = true
    /\ stops p (strip_by p t) /\ stops p (rev (strip_by p t)).
Proof.
  unfold strip_by. destruct (lstrip_by_split p t) as (w1 & E1 & F1 & S1).
  destruct (rstrip_by_split p (lstrip_by p t)) as (w2 & E2 & F2 & S2).
  exists w1, w2. repeat split; auto.
  - rewrite <- E2. exact E1.
  - rewrite E2 in S1. destruct (rstrip_by p (lstrip_by p t)); simpl in *; auto.
Qed.

Lemma strip_by_idem p t : strip_by p (strip_by p t) = strip_by p t.
Proof.
  destruct (strip_by_split p t) as (w1 & w2 & _ & _ & _ & S1 & S2).
  destruct (strip_by p t) as [|c body] eqn:E; [reflexivity|].
  destruct (rev (c :: body)) as [|d l] eqn:R.
  { apply (f_equal (@length char)) in R. rewrite length_rev in R. discriminate. }
  assert (E' : c :: body = rev l ++ [d]).
  { apply (f_equal (@rev char)) in R. rewrite rev_involutive in R. exact R. }
  simpl in S1, S2. destruct (rev l) as [|c' body'] eqn:Rl; simpl in E'.
  - injection E' as -> ->. unfold strip_by, rstrip_by. simpl. rewrite S1. simpl.
    rewrite S1. reflexivity.
  - injection E' as -> ->. apply strip_by_fixed; auto.
Qed.

(** *** The fence pattern *)

Lemma any_true c : ANY c = true.
Proof. unfold ANY. destruct (is_space c); reflexivity. Qed.

Lemma close_needs_mark y :
  is_prefix FENCE_MARK (rest y) = false -> rmatch false CLOSE y = [].
Proof.
  destruct y as [p t g]. unfold CLOSE, FENCE_MARK. cbn [rest].
  intros H.
  destruct t as [|a [|b [|c t]]]; cbn [is_prefix] in H; simpl.
  all: rewrite ?(N.eqb_sym BACKTICK a), ?(N.eqb_sym BACKTICK b),
               ?(N.eqb_sym BACKTICK c) in H.
  all: try reflexivity.
  all: destruct (a =? BACKTICK); simpl in *; auto.
  all: try (destruct (b =? BACKTICK); simpl in *; auto).
  all: try (destruct (c =? BACKTICK); simpl in *; auto).
  all: discriminate.
Qed.

Lemma close_first p t g :
  hd_error (rmatch false CLOSE (MState p (FENCE_MARK ++ t) g))
  = Some (MState (Some BACKTICK) t g).
Proof. reflexivity. Qed.

Lemma blanks_close_fails y :
  (forall w z, rest y = w ++ z -> forallb is_space w = true ->
               is_prefix FENCE_MARK z = false) ->
  rmatch false BLANKS_CLOSE y = [].
Proof.
  intros H. unfold BLANKS_CLOSE. cbn [rmatch]. apply flat_map_nil.
  intros y1 Hy1.
  destruct (rmatch_run false (Star (Cls is_space)) y y1 Hy1) as (w & R & _ & F).
  apply close_needs_mark. apply (H w); auto.
Qed.

Lemma blanks_close_first p w t g :
  forallb is_space w = true ->
  hd_error (rmatch false BLANKS_CLOSE (MState p (w ++ FENCE_MARK ++ t) g))
  = Some (MState (Some BACKTICK) t g).
Proof.
  intros F. unfold BLANKS_CLOSE.
  apply (first_Cat _ _ _ _ (MState (last_or p w) (FENCE_MARK ++ t) g)).
  - apply first_Star; auto. reflexivity.
  - apply close_first.
Qed.

Lemma mark_prefix_split l wc W :
  is_prefix FENCE_MARK (l ++ wc :: W) = true -> wc <> BACKTICK ->
  is_prefix FENCE_MARK l = true.
Proof.
  intros H Hw. unfold FENCE_MARK in *.
  destruct l as [|l1 [|l2 [|l3 l4]]]; cbn [is_prefix app] in *.
  - apply andb_true_iff in H. destruct H as [H _]. apply N.eqb_eq in H.
    congruence.
  - apply andb_true_iff in H. destruct H as [_ H].
    apply andb_true_iff in H. destruct H as [H _]. apply N.eqb_eq in H.
    congruence.
  - apply andb_true_iff in H. destruct H as [_ H].
    apply andb_true_iff in H. destruct H as [_ H].
    apply andb_true_iff in H. destruct H as [H _]. apply N.eqb_eq in H.
    congruence.
  - repeat (apply andb_true_iff in H; destruct H as [? H]).
    repeat (apply andb_true_iff; split); auto.
Qed.

Lemma forallb_in_false {A} (p : A -> bool) l x :
  forallb p l = true -> In x l -> p x = false -> False.
Proof. intros F I H. rewrite forallb_forall in F. rewrite (F x I) in H. discriminate. Qed.

Lemma walk_in p a t g y :
  In y (walk p a t g) ->
  exists a1 x a2, a = a1 ++ x :: a2 /\ rest y = (x :: a2) ++ t.
Proof.
  revert p. induction a as [|c a IH]; intros p H; simpl in H; [destruct H|].
  destruct H as [<-|H].
  - exists [], c, a. split; reflexivity.
  - destruct (IH _ H) as (a1 & x & a2 & E & R).
    exists (c :: a1), x, a2. split; [simpl; f_equal; exact E|exact R].
Qed.

Lemma first_Grp_Lazy_here i q s :
  hd_error (rmatch false (Grp i (Lazy (Cls q))) s) = Some (capture i s s).
Proof. apply first_Grp. cbn [rmatch]. apply star_lazy_head. Qed.

Lemma capture_here i p t g :
  capture i (MState p t g) (MState p t g) = MState p t ((i, []) :: g).
Proof. unfold capture. cbn [before rest groups]. rewrite Nat.sub_diag. reflexivity. Qed.

(** Behind the opening fence and its tag: the blanks, the interior up to
    its last visible character, the blanks, the closing fence. *)
Lemma inside_first p s t :
  has_fence s = false ->
  exists m,
    hd_error (rmatch false INSIDE (MState p (NL :: s ++ NL :: FENCE_MARK ++ t) []))
    = Some m
    /\ group 1 (groups m) = strip s.
Proof.
  intros Hs.
  destruct (strip_by_split is_space s) as (w1 & w2 & Es & F1 & F2 & S1 & S2).
  fold (strip s) in *. destruct (strip s) as [|c core'] eqn:Ecore.
  - (* blanks only *)
    exists (MState (Some BACKTICK) t [(1%nat, [])]). split; [|reflexivity].
    assert (Fs : forallb is_space (NL :: s ++ [NL]) = true).
    { rewrite Es. simpl. rewrite !forallb_app, F1, F2. reflexivity. }
    replace (NL :: s ++ NL :: FENCE_MARK ++ t)
      with ((NL :: s ++ [NL]) ++ FENCE_MARK ++ t)
      by (simpl; rewrite <- app_assoc; reflexivity).
    unfold INSIDE.
    apply (first_Cat _ _ _ _
             (MState (last_or p (NL :: s ++ [NL])) (FENCE_MARK ++ t) [])).
    { apply first_Star; [exact Fs|reflexivity]. }
    eapply first_Cat; [apply first_Grp_Lazy_here|].
    rewrite capture_here. apply (blanks_close_first _ [] t). reflexivity.
  - (* a visible interior *)
    set (core := c :: core') in *.
    assert (Hcore : has_fence core = false).
    { unfold has_fence in *. destruct (is_substring FENCE_MARK core) eqn:E; auto.
      rewrite Es, (is_substring_infix _ w1 core w2 E) in Hs. discriminate. }
    set (tail := w2 ++ NL :: FENCE_MARK ++ t).
    assert (Etext : NL :: s ++ NL :: FENCE_MARK ++ t = (NL :: w1) ++ core ++ tail).
    { rewrite Es at 1. unfold tail.
      change ((NL :: w1) ++ core ++ w2 ++ NL :: FENCE_MARK ++ t)
        with (NL :: w1 ++ core ++ w2 ++ NL :: FENCE_MARK ++ t).
      f_equal. rewrite <- !app_assoc. reflexivity. }
    rewrite Etext. unfold INSIDE.
    set (pA := last_or p (NL :: w1)).
    set (sA := MState pA (core ++ tail) []).
    exists (MState (Some BACKTICK) t [(1%nat, core)]). split; [|reflexivity].
    apply (first_Cat _ _ _ _ sA).
    { apply first_Star; [simpl; exact F1|exact S1]. }
    destruct (star_lazy_walk false ANY core pA tail [] (length (core ++ tail)))
      as [l El].
    { apply forallb_forall. intros; apply any_true. }
    { rewrite length_app. lia. }
    apply (first_Cat_skip _ _ _ _
             (map (capture 1 sA) (walk pA core tail []))
             (capture 1 sA (MState (last_or pA core) tail []))
             (map (capture 1 sA) l)).
    + change (rmatch false (Grp 1 (Lazy (Cls ANY))) sA)
        with (map (capture 1 sA)
                  (star_lazy (rmatch false (Cls ANY)) (length (core ++ tail)) sA)).
      unfold sA at 2. rewrite El, map_app. reflexivity.
    + intros y Hy. apply in_map_iff in Hy. destruct Hy as (y0 & <- & Hy0).
      destruct (walk_in _ _ _ _ _ Hy0) as (a1 & x & a2 & Ea & Ry).
      apply blanks_close_fails. intros w z Ez Fw. cbn [capture rest] in Ez.
      rewrite Ry in Ez. unfold tail in Ez.
      destruct (is_prefix FENCE_MARK z) eqn:P; [exfalso|reflexivity].
      (* as in [no_early_close], with the text behind the closing fence *)
      assert (HW : exists wc W, w2 ++ NL :: FENCE_MARK ++ t = wc :: W
                                /\ is_space wc = true).
      { destruct w2 as [|c2 w2]; simpl in *; [eauto|].
        apply andb_true_iff in F2. destruct F2. eauto. }
      destruct HW as (wc & W & EW & Hwc). rewrite EW in Ez.
      apply app_eq_app in Ez. destruct Ez as [l' [[E1 E2]|[E1 E2]]].
      * subst z. assert (Pl : is_prefix FENCE_MARK l' = true).
        { apply (mark_prefix_split l' wc W P). intros ->. discriminate. }
        unfold has_fence in Hcore. rewrite Ea, E1 in Hcore.
        rewrite (is_substring_app_l FENCE_MARK a1) in Hcore; [discriminate|].
        apply is_substring_app_l, is_substring_prefix, Pl.
      * assert (Hin : In (last (x :: a2) x) w).
        { rewrite E1. apply in_or_app. left.
          destruct (exists_last (l := x :: a2)) as (b & d & Eb); [discriminate|].
          rewrite Eb, last_last. apply in_or_app. right. now left. }
        assert (Hd : is_space (last (x :: a2) x) = false).
        { rewrite Ea, rev_app_distr in S2.
          destruct (exists_last (l := x :: a2)) as (b & d & Eb); [discriminate|].
          rewrite Eb, last_last. rewrite Eb, rev_app_distr in S2.
          simpl in S2. exact S2. }
        exact (forallb_in_false _ _ _ Fw Hin Hd).
    + unfold capture, sA. cbn [before rest groups].
      replace (length (core ++ tail) - length tail)%nat with (length core)
        by (rewrite length_app; lia).
      rewrite firstn_app, firstn_all, Nat.sub_diag. simpl firstn.
      rewrite app_nil_r. unfold tail.
      replace (w2 ++ NL :: FENCE_MARK ++ t)
        with ((w2 ++ [NL]) ++ FENCE_MARK ++ t)
        by (rewrite <- app_assoc; reflexivity).
      apply blanks_close_first. rewrite forallb_app, F2. reflexivity.
Qed.

End Fence.

Section FenceTheorem.
Context {U : UnicodeClasses}.

Lemma fence_pattern :
  ReceiveJson.FENCE
  = Cat (Lit BACKTICK) (Cat (Lit BACKTICK) (Cat (Lit BACKTICK)
      (Cat (Opt (Word (py "json"))) INSIDE))).
Proof. reflexivity. Qed.

Lemma fence_needs_mark prev t :
  is_prefix FENCE_MARK t = false -> match_at false ReceiveJson.FENCE prev t = None.
Proof.
  rewrite fence_pattern. unfold match_at, FENCE_MARK. intros H.
  destruct t as [|a [|b [|c t]]]; cbn [is_prefix] in H.
  all: rewrite ?(N.eqb_sym BACKTICK a), ?(N.eqb_sym BACKTICK b),
               ?(N.eqb_sym BACKTICK c) in H.
  all: cbn [rmatch rest flat_map].
  all: try reflexivity.
  all: destruct (a =? BACKTICK); cbn [flat_map app rest advance] in *; auto.
  all: try (destruct (b =? BACKTICK); cbn [flat_map app rest advance] in *; auto).
  all: try (destruct (c =? BACKTICK); cbn [flat_map app rest advance] in *; auto).
  all: discriminate.
Qed.

Lemma search_no_fence t : forall prev,
  has_fence t = false -> search_from false ReceiveJson.FENCE prev t = None.
Proof.
  unfold has_fence. induction t as [|c t IH]; intros prev H.
  - cbn [search_from]. rewrite fence_needs_mark; reflexivity.
  - cbn [is_substring] in H. apply orb_false_iff in H. destruct H as [H1 H2].
    cbn [search_from]. rewrite fence_needs_mark by exact H1. apply IH, H2.
Qed.

Lemma fence_first tag s :
  tag = [] \/ tag = py "json" -> has_fence s = false ->
  exists m, match_at false ReceiveJson.FENCE None (fenced tag s) = Some m
            /\ group 1 (groups m) = strip s.
Proof.
  intros Htag Hs. rewrite fence_pattern. unfold match_at, fenced.
  assert (Hopt : exists p,
            hd_error (rmatch false (Opt (Word (py "json")))
                        (MState (Some BACKTICK)
                                (tag ++ [NL] ++ s ++ [NL] ++ FENCE_MARK) []))
            = Some (MState p (NL :: s ++ NL :: FENCE_MARK ++ []) [])).
  { rewrite app_nil_r. destruct Htag as [-> | ->].
    - exists (Some BACKTICK). apply first_Opt_none_hd. reflexivity.
    - exists (Some 110). apply first_Opt. reflexivity. }
  destruct Hopt as [p Hopt].
  destruct (inside_first p s [] Hs) as (m & Hm & Hg).
  exists m. split; [|exact Hg].
  set (B := tag ++ [NL] ++ s ++ [NL] ++ FENCE_MARK) in *.
  change (FENCE_MARK ++ B) with (BACKTICK :: BACKTICK :: BACKTICK :: B).
  apply (first_Cat _ _ _ _ (MState (Some BACKTICK) (BACKTICK :: BACKTICK :: B) []));
    [reflexivity|].
  apply (first_Cat _ _ _ _ (MState (Some BACKTICK) (BACKTICK :: B) []));
    [reflexivity|].
  apply (first_Cat _ _ _ _ (MState (Some BACKTICK) B [])); [reflexivity|].
  eapply first_Cat; [exact Hopt|exact Hm].
Qed.

Lemma search_from_here ic r prev t m :
  match_at ic r prev t = Some m -> search_from ic r prev t = Some m.
Proof. intros H. destruct t; cbn [search_from]; rewrite H; reflexivity. Qed.

Lemma strip_fenced tag s : strip (fenced tag s) = fenced tag s.
Proof.
  unfold fenced, FENCE_MARK.
  replace ([BACKTICK; BACKTICK; BACKTICK] ++ tag ++ [NL] ++ s ++ [NL]
           ++ [BACKTICK; BACKTICK; BACKTICK])
    with (BACKTICK :: ([BACKTICK; BACKTICK] ++ tag ++ [NL] ++ s ++ [NL]
                       ++ [BACKTICK; BACKTICK]) ++ [BACKTICK])
    by (simpl; rewrite <- !app_assoc; simpl; rewrite <- !app_assoc; reflexivity).
  apply strip_by_fixed; reflexivity.
Qed.

Lemma has_fence_strip s : has_fence s = false -> has_fence (strip s) = false.
Proof.
  unfold has_fence. intros H.
  destruct (is_substring FENCE_MARK (strip s)) eqn:E; [|reflexivity].
  destruct (strip_by_split is_space s) as (w1 & w2 & Es & _).
  fold (strip s) in Es. rewrite Es in H.
  rewrite (is_substring_infix _ w1 _ w2 E) in H. discriminate.
Qed.

Lemma strip_json_block_plain s :
  has_fence s = false -> ReceiveJson._strip_json_block s = strip s.
Proof.
  intros H. unfold ReceiveJson._strip_json_block, re_search. cbv zeta.
  rewrite search_no_fence; [reflexivity|]. apply has_fence_strip, H.
Qed.

Lemma strip_json_block_wrapped tag s :
  tag = [] \/ tag = py "json" -> has_fence s = false ->
  ReceiveJson._strip_json_block (fenced tag s) = strip s.
Proof.
  intros Htag H. unfold ReceiveJson._strip_json_block, re_search. cbv zeta.
  rewrite strip_fenced. destruct (fence_first tag s Htag H) as (m & Hm & Hg).
  rewrite (search_from_here _ _ _ _ _ Hm), Hg. apply strip_by_idem.
Qed.

Lemma same_strip_json_block :
  EnrichFromJson._strip_json_block = ReceiveJson._strip_json_block.
Proof. reflexivity. Qed.

(** C5, as the code has it: for an interior that holds no fence itself,
    [_strip_json_block] returns the same for the interior and for the
    interior wrapped in a fenced block (tagged [json] or not), and that is
    the interior trimmed; this holds for both copies of the function. *)
Theorem strip_json_block_fenced (tag s : text) :
  tag = [] \/ tag = py "json" -> has_fence s = false ->
  (ReceiveJson._strip_json_block (fenced tag s) = ReceiveJson._strip_json_block s
   /\ ReceiveJson._strip_json_block s = strip s)
  /\ (EnrichFromJson._strip_json_block (fenced tag s)
      = EnrichFromJson._strip_json_block s
      /\ EnrichFromJson._strip_json_block s = strip s).
Proof.
  intros Htag H. rewrite same_strip_json_block.
  rewrite (strip_json_block_wrapped tag s Htag H), (strip_json_block_plain s H).
  repeat split.
Qed.

End FenceTheorem.

Lemma strip_json_block_fenced_witness :
  (ReceiveJson._strip_json_block (fenced (py "json") (py " {\x22a\x22: 1} \n"))
   = ReceiveJson._strip_json_block (py " {\x22a\x22: 1} \n")
   /\ ReceiveJson._strip_json_block (py " {\x22a\x22: 1} \n")
      = strip (py " {\x22a\x22: 1} \n"))
  /\ (EnrichFromJson._strip_json_block
        (fenced (py "json") (py " {\x22a\x22: 1} \n"))
      = EnrichFromJson._strip_json_block (py " {\x22a\x22: 1} \n")
      /\ EnrichFromJson._strip_json_block (py " {\x22a\x22: 1} \n")
         = strip (py " {\x22a\x22: 1} \n")).
Proof.
  apply (strip_json_block_fenced (py "json") (py " {\x22a\x22: 1} \n")).
  - right. reflexivity.
  - reflexivity.
Defined.

(** ** Induction along a substitution *)

Section Scan.
Context {U : UnicodeClasses}.

(** A match of a pattern that demands a character passes over one. *)
Lemma rmatch_demands_run ic q r : forall s s',
  demands ic q r -> In s' (rmatch ic r s) ->
  exists w, run (alpha ic r) s s' w /\ existsb q w = true.
Proof.
  induction r as [c|p| |r1 IH1 r2 IH2|r IH|r IH|r IH|i r IH]; intros s s' D H;
    simpl in D; try contradiction.
  - simpl in H. destruct (rest s) as [|x t] eqn:E; [destruct H|].
    destruct (if ic then _ else _) eqn:C; [|destruct H].
    destruct H as [<-|[]]. exists [x]. split.
    + repeat split; simpl; auto. unfold lit_eq. rewrite C. reflexivity.
    + simpl. rewrite (D x C). reflexivity.
  - simpl in H. destruct (rest s) as [|x t] eqn:E; [destruct H|].
    destruct (p x) eqn:C; [|destruct H].
    destruct H as [<-|[]]. exists [x]. split.
    + repeat split; simpl; auto. rewrite C. reflexivity.
    + simpl. rewrite (D x C). reflexivity.
  - cbn [rmatch] in H. apply in_flat_map in H. destruct H as (s1 & H1 & H2).
    destruct D as [D|D].
    + destruct (IH1 _ _ D H1) as (w1 & R1 & E1).
      destruct (rmatch_run _ _ _ _ H2) as (w2 & R2).
      exists (w1 ++ w2). split.
      * eapply run_trans; (eapply run_weaken; [|eassumption]); simpl;
          intros x ->; auto using orb_true_r.
      * rewrite existsb_app, E1. reflexivity.
    + destruct (rmatch_run _ _ _ _ H1) as (w1 & R1).
      destruct (IH2 _ _ D H2) as (w2 & R2 & E2).
      exists (w1 ++ w2). split.
      * eapply run_trans; (eapply run_weaken; [|eassumption]); simpl;
          intros x ->; auto using orb_true_r.
      * rewrite existsb_app, E2. apply orb_true_r.
  - cbn [rmatch] in H. apply in_map_iff in H. destruct H as (s1 & <- & H1).
    destruct (IH _ _ D H1) as (w & R & E). exists w. split; [exact R|exact E].
Qed.

Lemma match_at_run ic r prev t m :
  match_at ic r prev t = Some m ->
  exists w, t = w ++ rest m /\ before m = last_or prev w
            /\ forallb (alpha ic r) w = true.
Proof.
  unfold match_at. intros H.
  destruct (rmatch ic r (MState prev t [])) as [|m' l] eqn:E; [discriminate|].
  injection H as ->.
  destruct (rmatch_run ic r (MState prev t []) m) as (w & R); [rewrite E; now left|].
  exists w. exact R.
Qed.

Lemma match_at_progress ic q r prev t m :
  demands ic q r -> match_at ic r prev t = Some m ->
  exists c a, t = (c :: a) ++ rest m /\ before m = last_or prev (c :: a)
              /\ forallb (alpha ic r) (c :: a) = true.
Proof.
  unfold match_at. intros D H.
  destruct (rmatch ic r (MState prev t [])) as [|m' l] eqn:E; [discriminate|].
  injection H as ->.
  destruct (rmatch_demands_run ic q r (MState prev t []) m D)
    as (w & R & Q); [rewrite E; now left|].
  destruct w as [|c a]; [discriminate|]. exists c, a. exact R.
Qed.

Variables (ic : bool) (r : regex) (tpl : list titem) (q : char -> bool).
Hypothesis Hdemands : demands ic q r.

Lemma sub_scan_nil prev : sub_scan ic r tpl prev 0 [] = [].
Proof.
  apply sub_scan_end. destruct (match_at ic r prev []) as [m|] eqn:M; [|reflexivity].
  destruct (match_at_progress _ _ _ _ _ _ Hdemands M) as (c & a & E & _).
  discriminate.
Qed.

Lemma sub_scan_step prev t m :
  match_at ic r prev t = Some m ->
  exists c a, t = (c :: a) ++ rest m
              /\ forallb (alpha ic r) (c :: a) = true
              /\ sub_scan ic r tpl prev 0 t
                 = expand tpl (groups m)
                   ++ sub_scan ic r tpl (last_or prev (c :: a)) 0 (rest m).
Proof.
  intros M. destruct (match_at_progress _ _ _ _ _ _ Hdemands M)
    as (c & a & E & _ & F).
  exists c, a. repeat split; auto.
  rewrite E in M |- *. apply (sub_scan_match ic r tpl prev c a (rest m) m M eq_refl).
Qed.

(** Induction along the scan of [re.sub]: the end of the text, a character
    copied, a match passed over. *)
Lemma scan_ind (P : option char -> text -> Prop) :
  (forall prev, P prev []) ->
  (forall prev c t, match_at ic r prev (c :: t) = None ->
                    P (Some c) t -> P prev (c :: t)) ->
  (forall prev c a m,
      match_at ic r prev ((c :: a) ++ rest m) = Some m ->
      forallb (alpha ic r) (c :: a) = true ->
      P (last_or prev (c :: a)) (rest m) -> P prev ((c :: a) ++ rest m)) ->
  forall t prev, P prev t.
Proof.
  intros Hnil Hcopy Hmatch t.
  induction t as [t IH] using (induction_ltof1 _ (@length char)).
  unfold ltof in IH. intros prev. destruct t as [|c t]; [apply Hnil|].
  destruct (match_at ic r prev (c :: t)) as [m|] eqn:M.
  - destruct (match_at_progress _ _ _ _ _ _ Hdemands M) as (c' & a & E & _ & F).
    rewrite E in M |- *. apply Hmatch; [exact M|exact F|].
    apply IH. rewrite E, length_app. simpl. lia.
  - apply Hcopy; [exact M|]. apply IH. simpl. lia.
Qed.

End Scan.

Section Characters.
Context {U : UnicodeClasses}.

(** *** Where the characters of a result come from *)

Lemma In_firstn {A} n (l : list A) x : In x (firstn n l) -> In x l.
Proof.
  intros H. rewrite <- (firstn_skipn n l). apply in_or_app. now left.
Qed.

Lemma groups_from_refl s : groups_from s s.
Proof. intros i c H. now left. Qed.

Lemma groups_from_same s s' : groups s' = groups s -> groups_from s s'.
Proof. intros E i c H. left. rewrite <- E. exact H. Qed.

Lemma groups_from_trans P s1 s2 s3 w :
  run P s1 s2 w -> groups_from s1 s2 -> groups_from s2 s3 -> groups_from s1 s3.
Proof.
  intros (R & _) H1 H2 i c H. destruct (H2 i c H) as [H'|H'].
  - apply H1, H'.
  - right. rewrite R. apply in_or_app. now right.
Qed.

Lemma star_greedy_groups_from P step :
  (forall s s', In s' (step s) -> (exists w, run P s s' w) /\ groups_from s s') ->
  forall fuel s s', In s' (star_greedy step fuel s) -> groups_from s s'.
Proof.
  intros Hstep. induction fuel as [|n IH]; intros s s' H; simpl in H.
  - destruct H as [<-|[]]. apply groups_from_refl.
  - apply in_app_or in H. destruct H as [H|[<-|[]]]; [|apply groups_from_refl].
    apply in_flat_map in H. destruct H as (s1 & H1 & H2).
    destruct (_ <? _)%nat; [|destruct H2].
    destruct (Hstep _ _ H1) as [[w R] G]. eapply groups_from_trans; eauto.
Qed.

Lemma star_lazy_groups_from P step :
  (forall s s', In s' (step s) -> (exists w, run P s s' w) /\ groups_from s s') ->
  forall fuel s s', In s' (star_lazy step fuel s) -> groups_from s s'.
Proof.
  intros Hstep. induction fuel as [|n IH]; intros s s' H; simpl in H.
  - destruct H as [<-|[]]. apply groups_from_refl.
  - destruct H as [<-|H]; [apply groups_from_refl|].
    apply in_flat_map in H. destruct H as (s1 & H1 & H2).
    destruct (_ <? _)%nat; [|destruct H2].
    destruct (Hstep _ _ H1) as [[w R] G]. eapply groups_from_trans; eauto.
Qed.

(** What a match has captured is text it started from. *)
Lemma rmatch_groups_from ic r : forall s s',
  In s' (rmatch ic r s) -> groups_from s s'.
Proof.
  induction r as [c|p| |r1 IH1 r2 IH2|r IH|r IH|r IH|i r IH]; intros s s' H.
  - apply groups_from_same. apply (rmatch_group_free ic (Lit c) s s' eq_refl H).
  - apply groups_from_same. apply (rmatch_group_free ic (Cls p) s s' eq_refl H).
  - apply groups_from_same. apply (rmatch_group_free ic Bnd s s' eq_refl H).
  - cbn [rmatch] in H. apply in_flat_map in H. destruct H as (s1 & H1 & H2).
    destruct (rmatch_run _ _ _ _ H1) as [w R].
    eapply groups_from_trans; eauto.
  - cbn [rmatch] in H. apply in_app_or in H.
    destruct H as [H|[<-|[]]]; [auto|apply groups_from_refl].
  - cbn [rmatch] in H. revert H.
    apply (star_greedy_groups_from (alpha ic r)). intros s0 s1 H0.
    split; [eapply rmatch_run; eauto|auto].
  - cbn [rmatch] in H. revert H.
    apply (star_lazy_groups_from (alpha ic r)). intros s0 s1 H0.
    split; [eapply rmatch_run; eauto|auto].
  - cbn [rmatch] in H. apply in_map_iff in H. destruct H as (s1 & <- & H1).
    intros j c Hc. unfold capture in Hc. cbn [groups group] in Hc.
    destruct (Nat.eqb j i).
    + right. eapply In_firstn; eauto.
    + apply (IH _ _ H1 j c Hc).
Qed.

Lemma match_at_groups ic r prev t m i c :
  match_at ic r prev t = Some m -> In c (group i (groups m)) -> In c t.
Proof.
  unfold match_at. intros H Hc.
  destruct (rmatch ic r (MState prev t [])) as [|m' l] eqn:E; [discriminate|].
  injection H as ->.
  destruct (rmatch_groups_from ic r (MState prev t []) m) with (i := i) (c := c)
    as [H|H]; auto.
  - rewrite E. now left.
  - destruct H.
Qed.

Lemma expand_chars tpl gs c :
  In c (expand tpl gs) ->
  In c (literals tpl) \/ exists i, In c (group i gs).
Proof.
  induction tpl as [|[t|i] tpl IH]; simpl; [tauto| |]; intros H;
    apply in_app_or in H; destruct H as [H|H].
  - left. apply in_or_app. now left.
  - destruct (IH H) as [H'|H']; [left; apply in_or_app; now right|now right].
  - right. eauto.
  - apply IH, H.
Qed.

(** The characters of the result of [re.sub] are characters of the text or
    literals of the template. *)
Lemma sub_scan_chars ic r tpl (P : char -> Prop) : forall t prev skip,
  Forall P t -> Forall P (literals tpl) ->
  Forall P (sub_scan ic r tpl prev skip t).
Proof.
  intros t prev skip Ht Hl. revert prev skip.
  assert (Hexp : forall prev t' m, Forall P t' ->
            match_at ic r prev t' = Some m -> Forall P (expand tpl (groups m))).
  { intros prev t' m Ht' M. apply Forall_forall. intros c Hc.
    rewrite Forall_forall in Ht', Hl.
    destruct (expand_chars _ _ _ Hc) as [H|[i H]]; [auto|].
    apply Ht'. eapply match_at_groups; eauto. }
  induction t as [|c t IH]; intros prev skip.
  - destruct skip; cbn [sub_scan]; [|constructor].
    destruct (match_at ic r prev []) as [m|] eqn:M; [|constructor].
    apply (Hexp prev [] m Ht M).
  - pose proof (Forall_inv Ht) as Hc. pose proof (Forall_inv_tail Ht) as Ht'.
    destruct skip as [|k]; cbn [sub_scan].
    + destruct (match_at ic r prev (c :: t)) as [m|] eqn:M.
      * pose proof (Hexp prev (c :: t) m Ht M) as He.
        destruct (_ - _)%nat; apply Forall_app; split; auto.
      * constructor; auto.
    + auto.
Qed.

(** Where every character that is copied satisfies [P], and the template
    is literal, the whole result does. *)
Lemma sub_scan_cleans ic q r t0 (P : char -> Prop) :
  demands ic q r ->
  (forall prev c t, match_at ic r prev (c :: t) = None -> P c) ->
  Forall P t0 ->
  forall t prev, Forall P (sub_scan ic r [TLit t0] prev 0 t).
Proof.
  intros D Hcopy Hl.
  apply (scan_ind ic r q D
           (fun prev t => Forall P (sub_scan ic r [TLit t0] prev 0 t))).
  - intros prev. rewrite (sub_scan_nil ic r _ q D). constructor.
  - intros prev c t M IH. rewrite sub_scan_copy by exact M.
    constructor; eauto.
  - intros prev c a m M F IH.
    rewrite (sub_scan_match ic r _ prev c a (rest m) m M eq_refl).
    apply Forall_app. split; [|exact IH]. simpl. rewrite app_nil_r. exact Hl.
Qed.

End Characters.

(** ** Blank lines *)

Section Whitespace.
Context {U : UnicodeClasses}.

(** *** The blank-run pattern *)

Lemma lead_split t :
  exists b, t = repeat NL (lead t) ++ b /\ stops (fun c => c =? NL) b.
Proof.
  induction t as [|c t (b & E & S)]; simpl.
  - exists []. split; [reflexivity|exact I].
  - destruct (c =? NL) eqn:C.
    + apply N.eqb_eq in C. subst c. exists b. simpl. split; [f_equal; exact E|exact S].
    + exists (c :: t). split; [reflexivity|exact C].
Qed.

Lemma blank_run_none prev t :
  (lead t < 3)%nat -> match_at false BLANK_RUN prev t = None.
Proof.
  intros H. unfold match_at, BLANK_RUN. cbn [Seq rmatch rest].
  destruct t as [|a t]; [reflexivity|]. cbn [lead] in H.
  destruct (a =? NL) eqn:A; [|reflexivity]. cbn [flat_map app rest advance].
  destruct t as [|b t]; [reflexivity|]. cbn [lead] in H.
  destruct (b =? NL) eqn:B; [|reflexivity]. cbn [flat_map app rest advance].
  destruct t as [|c t]; [reflexivity|]. cbn [lead] in H.
  destruct (c =? NL) eqn:C; [lia|reflexivity].
Qed.

Lemma forallb_repeat {A} (p : A -> bool) x n :
  p x = true -> forallb p (repeat x n) = true.
Proof. intros H. induction n; simpl; [reflexivity|]. rewrite H. exact IHn. Qed.

Lemma blank_run_match prev n b :
  stops (fun c => c =? NL) b ->
  match_at false BLANK_RUN prev (repeat NL (3 + n) ++ b)
  = Some (MState (last_or (Some NL) (repeat NL n)) b []).
Proof.
  intros S. unfold match_at, BLANK_RUN. cbn [Seq].
  change (repeat NL (3 + n) ++ b) with (NL :: NL :: NL :: repeat NL n ++ b).
  apply (first_Cat _ _ _ _ (MState (Some NL) (NL :: NL :: repeat NL n ++ b) []));
    [reflexivity|].
  apply (first_Cat _ _ _ _ (MState (Some NL) (NL :: repeat NL n ++ b) []));
    [reflexivity|].
  apply (first_Cat _ _ _ _ (MState (Some NL) (repeat NL n ++ b) []));
    [reflexivity|].
  apply (first_Star false (fun c => c =? NL)); [|exact S].
  apply forallb_repeat. reflexivity.
Qed.

Lemma stops_lead b : stops (fun c => c =? NL) b -> lead b = O.
Proof. destruct b as [|c b]; simpl; [reflexivity|]. intros ->. reflexivity. Qed.

Lemma lead_repeat n b :
  stops (fun c => c =? NL) b -> lead (repeat NL n ++ b) = n.
Proof.
  intros S. induction n as [|n IH]; simpl; [apply stops_lead, S|].
  rewrite IH. reflexivity.
Qed.

(** What the scan meets at a position, by the newlines standing there. *)
Lemma blank_run_cases prev t :
  (lead t < 3)%nat /\ match_at false BLANK_RUN prev t = None
  \/ exists n b, t = repeat NL (3 + n) ++ b /\ stops (fun c => c =? NL) b
                 /\ match_at false BLANK_RUN prev t
                    = Some (MState (last_or (Some NL) (repeat NL n)) b []).
Proof.
  destruct (lead_split t) as (b & E & S).
  destruct (Nat.lt_ge_cases (lead t) 3) as [L|L].
  - left. split; [exact L|apply blank_run_none, L].
  - right. exists (lead t - 3)%nat, b.
    replace (3 + (lead t - 3))%nat with (lead t) by lia.
    split; [exact E|]. split; [exact S|].
    rewrite E at 1. replace (lead t) with (3 + (lead t - 3))%nat at 1 by lia.
    apply blank_run_match, S.
Qed.

Lemma blank_run_demands : demands false (lit_eq false NL) BLANK_RUN.
Proof. simpl. left. auto. Qed.

(** One step of the scan, by the same cases. *)
Lemma collapse_step prev t tpl :
  (lead t < 3)%nat /\
    sub_scan false BLANK_RUN tpl prev 0 t
    = match t with
      | [] => []
      | c :: t' => c :: sub_scan false BLANK_RUN tpl (Some c) 0 t'
      end
  \/ exists n b, t = repeat NL (3 + n) ++ b /\ stops (fun c => c =? NL) b
                 /\ sub_scan false BLANK_RUN tpl prev 0 t
                    = literals tpl
                      ++ sub_scan false BLANK_RUN tpl
                           (last_or prev (repeat NL (3 + n))) 0 b.
Proof.
  destruct (blank_run_cases prev t) as [[L M]|(n & b & E & S & M)].
  - left. split; [exact L|]. destruct t as [|c t].
    + apply (sub_scan_nil false BLANK_RUN tpl _ blank_run_demands).
    + apply sub_scan_copy, M.
  - right. exists n, b. split; [exact E|]. split; [exact S|].
    rewrite E in M |- *.
    change (repeat NL (3 + n) ++ b) with (NL :: (NL :: NL :: repeat NL n) ++ b)
      in M |- *.
    rewrite (sub_scan_match false BLANK_RUN tpl prev NL _ b _ M eq_refl).
    f_equal. cbn [groups]. clear. induction tpl as [|[t|i] tpl IH]; simpl;
      rewrite ?IH; reflexivity.
Qed.

End Whitespace.

Section Finish.
Context {U : UnicodeClasses}.

(** *** The result of collapsing *)

Lemma collapse_from_step prev t :
  (lead t < 3)%nat /\
    collapse_from prev t
    = match t with
      | [] => []
      | c :: t' => c :: collapse_from (Some c) t'
      end
  \/ exists n b, t = repeat NL (3 + n) ++ b /\ stops (fun c => c =? NL) b
                 /\ collapse_from prev t
                    = NL :: NL
                      :: collapse_from (last_or prev (repeat NL (3 + n))) b.
Proof. apply (collapse_step prev t [TLit [NL; NL]]). Qed.

Lemma collapse_head prev t :
  stops (fun c => c =? NL) t ->
  collapse_from prev t
  = match t with
    | [] => []
    | c :: t' => c :: collapse_from (Some c) t'
    end.
Proof.
  intros S. destruct (collapse_from_step prev t)
    as [[_ E]|(n & b & E & _)]; [exact E|].
  rewrite E in S. simpl in S. discriminate.
Qed.

Lemma stops_collapse prev t :
  stops (fun c => c =? NL) t -> stops (fun c => c =? NL) (collapse_from prev t).
Proof.
  intros S. rewrite collapse_head by exact S. destruct t; [exact I|exact S].
Qed.

Lemma short_runs_stops k t :
  stops (fun c => c =? NL) t -> short_runs k t = short_runs 0 t.
Proof. destruct t as [|c t]; simpl; [reflexivity|]. intros ->. reflexivity. Qed.

Lemma collapse_short_runs t : forall prev k,
  (k + Nat.min (lead t) 2 <= 2)%nat ->
  short_runs k (collapse_from prev t) = true.
Proof.
  induction t as [t IH] using (induction_ltof1 _ (@length char)).
  unfold ltof in IH. intros prev k Hk.
  destruct (collapse_from_step prev t) as [[L E]|(n & b & E & S & E')].
  - rewrite E. destruct t as [|c t]; [reflexivity|].
    cbn [short_runs]. cbn [lead] in L, Hk. destruct (c =? NL).
    + apply andb_true_iff. split; [apply Nat.ltb_lt; lia|].
      apply IH; [simpl; lia|lia].
    + apply IH; [simpl; lia|lia].
  - rewrite E'.
    rewrite E, lead_repeat in Hk by exact S.
    assert (k = 0)%nat by lia. subst k. cbn [short_runs].
    rewrite N.eqb_refl. cbn [Nat.ltb Nat.leb andb].
    rewrite short_runs_stops by (apply stops_collapse, S).
    apply IH; [rewrite E, length_app, repeat_length; lia|].
    rewrite (stops_lead b S). simpl. lia.
Qed.

Lemma short_runs_mono t : forall k k',
  (k' <= k)%nat -> short_runs k t = true -> short_runs k' t = true.
Proof.
  induction t as [|c t IH]; intros k k' L; simpl; [auto|].
  destruct (c =? NL); [|auto]. rewrite !andb_true_iff, !Nat.ltb_lt.
  intros [H1 H2]. split; [lia|]. apply (IH (S k)); [lia|exact H2].
Qed.

Lemma short_runs_prefix a b : forall k,
  short_runs k (a ++ b) = true -> short_runs k a = true.
Proof.
  induction a as [|c a IH]; intros k; simpl; [reflexivity|].
  destruct (c =? NL); [|apply IH]. rewrite !andb_true_iff.
  intros [H1 H2]. split; [exact H1|apply IH, H2].
Qed.

Lemma short_runs_suffix a b : forall k,
  short_runs k (a ++ b) = true -> short_runs 0 b = true.
Proof.
  induction a as [|c a IH]; intros k; simpl.
  - apply short_runs_mono. lia.
  - destruct (c =? NL); [|apply IH]. rewrite andb_true_iff.
    intros [_ H]. apply (IH _ H).
Qed.

Lemma short_runs_lead t : forall k,
  short_runs k t = true -> lead t = O \/ (k + lead t <= 2)%nat.
Proof.
  induction t as [|c t IH]; intros k; simpl; [auto|].
  destruct (c =? NL); [|auto]. rewrite andb_true_iff, Nat.ltb_lt.
  intros [H1 H2]. right. destruct (IH _ H2); lia.
Qed.

(** With no run of three newlines, nothing is collapsed. *)
Lemma collapse_fixed t : forall prev k,
  short_runs k t = true -> collapse_from prev t = t.
Proof.
  induction t as [|c t IH]; intros prev k H; unfold collapse_from.
  - apply (sub_scan_nil false BLANK_RUN _ _ blank_run_demands).
  - rewrite sub_scan_copy.
    + f_equal. simpl in H. destruct (c =? NL).
      * apply andb_true_iff in H. destruct H as [_ H]. apply (IH _ _ H).
      * apply (IH _ _ H).
    + apply blank_run_none. destruct (short_runs_lead _ _ H); lia.
Qed.

End Finish.

Section Trimmed.
Context {U : UnicodeClasses}.

Lemma trimmed_tail c t : trimmed (c :: t) = true -> trimmed t = true.
Proof. simpl. rewrite andb_true_iff. tauto. Qed.

Lemma trimmed_cons2 c d t :
  trimmed (c :: d :: t)
  = (negb (is_space c && negb (c =? NL)) || negb (d =? NL)) && trimmed (d :: t).
Proof. reflexivity. Qed.

Lemma trimmed_suffix a b : trimmed (a ++ b) = true -> trimmed b = true.
Proof.
  induction a as [|c a IH]; [auto|]. intros H. apply IH.
  apply (trimmed_tail c), H.
Qed.

Lemma trimmed_newline t : trimmed (NL :: t) = trimmed t.
Proof. reflexivity. Qed.

(** Behind a neat line the test goes on as if the line were not there. *)
Lemma trimmed_neat l z : neat l -> trimmed (l ++ z) = trimmed z.
Proof.
  intros [Hnl Hend]. induction l as [|c l IH]; [reflexivity|].
  destruct l as [|d l].
  - simpl in Hend. simpl. rewrite Hend. reflexivity.
  - change ((c :: d :: l) ++ z) with (c :: (d :: l) ++ z).
    cbn [trimmed]. rewrite IH.
    + change ((d :: l) ++ z) with (d :: l ++ z). cbv iota.
      assert (Hd : (d =? NL) = false).
      { apply N.eqb_neq. intros ->. apply Hnl. right. now left. }
      rewrite Hd. rewrite orb_true_r. reflexivity.
    + intros H. apply Hnl. now right.
    + simpl in Hend |- *. revert Hend.
      destruct (rev l ++ [d]) eqn:E; [destruct (rev l); discriminate|auto].
Qed.

Lemma trimmed_join ls : Forall neat ls -> trimmed (join [NL] ls) = true.
Proof.
  induction ls as [|l ls IH]; intros H; [reflexivity|].
  inversion H as [|? ? Hl Hls]; subst. destruct ls as [|l2 ls].
  - simpl. rewrite <- (app_nil_r l). rewrite trimmed_neat; auto.
  - change (join [NL] (l :: l2 :: ls)) with (l ++ NL :: join [NL] (l2 :: ls)).
    rewrite trimmed_neat by exact Hl. rewrite trimmed_newline. apply IH, Hls.
Qed.

Lemma rstrip_neat l : ~ In NL l -> neat (rstrip l).
Proof.
  intros H. destruct (rstrip_by_split is_space l) as (w & E & _ & S).
  split; [|exact S]. intros Hin. apply H. rewrite E. apply in_or_app. now left.
Qed.

Lemma trimmed_collapse t : forall prev,
  trimmed t = true -> trimmed (collapse_from prev t) = true.
Proof.
  induction t as [t IH] using (induction_ltof1 _ (@length char)).
  unfold ltof in IH. intros prev H.
  destruct (collapse_from_step prev t) as [[L E]|(n & b & E & S & E')].
  - rewrite E. destruct t as [|c t]; [reflexivity|].
    cbn [trimmed] in H |- *. apply andb_true_iff in H. destruct H as [H1 H2].
    apply andb_true_iff. split; [|apply IH; [simpl; lia|exact H2]].
    apply orb_true_iff in H1. destruct H1 as [H1|H1]; [rewrite H1; reflexivity|].
    destruct t as [|d t]; [discriminate|].
    rewrite (collapse_head (Some c) (d :: t)); [rewrite H1; apply orb_true_r|].
    simpl. apply negb_true_iff, H1.
  - rewrite E'. rewrite !trimmed_newline. apply IH.
    + rewrite E, length_app, repeat_length. lia.
    + rewrite E in H. apply (trimmed_suffix _ _ H).
Qed.

Lemma trimmed_drop_newlines y w :
  forallb (N.eqb NL) w = true -> trimmed (y ++ w) = true -> trimmed y = true.
Proof.
  intros Hw. induction y as [|c y IH]; [reflexivity|].
  destruct y as [|d y].
  - destruct w as [|x w]; [rewrite app_nil_r; auto|]. cbn [forallb] in Hw.
    apply andb_true_iff in Hw. destruct Hw as [Hx _]. apply N.eqb_eq in Hx.
    subst x. change ([c] ++ NL :: w) with (c :: NL :: w). cbn [trimmed].
    rewrite N.eqb_refl. cbn [negb]. rewrite orb_false_r, !andb_true_iff.
    intros [H _]. split; [exact H|reflexivity].
  - change ((c :: d :: y) ++ w) with (c :: d :: y ++ w).
    rewrite !trimmed_cons2, !andb_true_iff. intros [H1 H2].
    split; [exact H1|]. apply IH. exact H2.
Qed.

Lemma trimmed_strip_newlines t :
  trimmed t = true -> trimmed (strip_newlines t) = true.
Proof.
  intros H. unfold strip_newlines, strip_by.
  destruct (lstrip_by_suffix (N.eqb NL) t) as [a Ea].
  destruct (rstrip_by_split (N.eqb NL) (lstrip_by (N.eqb NL) t)) as (w & Ew & Fw & _).
  apply (trimmed_drop_newlines _ w Fw).
  rewrite Ea in H. apply trimmed_suffix in H. rewrite Ew in H. exact H.
Qed.

(** *** Lines of a trimmed text *)

Lemma split_shape sep t : exists l ls, split sep t = l :: ls.
Proof.
  induction t as [|c t (l & ls & E)]; simpl; [eauto|].
  destruct (c =? sep); [eauto|]. rewrite E. eauto.
Qed.

Lemma join_split t : join [NL] (split NL t) = t.
Proof.
  induction t as [|c t IH]; [reflexivity|]. simpl.
  destruct (split_shape NL t) as (l & ls & E). rewrite E in *.
  destruct (c =? NL) eqn:C.
  - apply N.eqb_eq in C. subst c.
    change (join [NL] ([] :: l :: ls)) with (NL :: join [NL] (l :: ls)).
    rewrite IH. reflexivity.
  - destruct ls as [|l2 ls].
    + simpl in *. rewrite IH. reflexivity.
    + change (join [NL] ((c :: l) :: l2 :: ls))
        with (c :: join [NL] (l :: l2 :: ls)).
      rewrite IH. reflexivity.
Qed.

Lemma rstrip_by_cons_fixed p c l :
  l <> [] -> rstrip_by p l = l -> rstrip_by p (c :: l) = c :: l.
Proof.
  intros Hne Hl. destruct (rstrip_by_split p l) as (w & E & F & S).
  rewrite Hl in S. destruct (rev l) as [|e r] eqn:R.
  { destruct l; [contradiction|]. apply (f_equal (@length char)) in R.
    rewrite length_rev in R. discriminate. }
  simpl in S. assert (El : l = rev r ++ [e]).
  { apply (f_equal (@rev char)) in R. rewrite rev_involutive in R. exact R. }
  rewrite El. change (c :: rev r ++ [e]) with ((c :: rev r) ++ [e]).
  rewrite rstrip_by_after by exact S. reflexivity.
Qed.

Lemma rstrip_trimmed_lines t :
  trimmed t = true -> map rstrip (split NL t) = split NL t.
Proof.
  induction t as [|c t IH]; intros H; [reflexivity|].
  pose proof (IH (trimmed_tail _ _ H)) as IH'. simpl.
  destruct (split_shape NL t) as (l & ls & E). rewrite E in *.
  destruct (c =? NL) eqn:C.
  - simpl. f_equal. exact IH'.
  - simpl in IH'. injection IH' as Hl Hls. simpl. f_equal; [|exact Hls].
    destruct (is_space c) eqn:Sc.
    + cbn [trimmed] in H. rewrite Sc, C in H. simpl in H.
      apply andb_true_iff in H. destruct H as [H _].
      destruct t as [|d t]; [discriminate|].
      apply (rstrip_by_cons_fixed is_space c l); [|exact Hl].
      simpl in E. rewrite (negb_true_iff _) in H. rewrite H in E.
      destruct (split NL t); injection E as <- _; discriminate.
    + apply (rstrip_by_after is_space [] c l) in Sc. simpl in Sc.
      unfold rstrip. rewrite Sc. f_equal. exact Hl.
Qed.

(** *** Step 5 is idempotent *)

Lemma strip_by_keeps_short_runs p t :
  short_runs 0 t = true -> short_runs 0 (strip_by p t) = true.
Proof.
  intros H. destruct (strip_by_infix p t) as (a & b & E). rewrite E in H.
  apply short_runs_suffix in H. apply (short_runs_prefix _ _ _ H).
Qed.

Lemma normalize_whitespace_eq ls :
  normalize_whitespace ls
  = strip_newlines (collapse_from None (join [NL] (map rstrip ls))).
Proof. reflexivity. Qed.

Lemma normalize_whitespace_fixed ls :
  Forall (fun l => ~ In NL l) ls ->
  normalize_whitespace (split NL (normalize_whitespace ls))
  = normalize_whitespace ls.
Proof.
  intros H. rewrite (normalize_whitespace_eq ls).
  set (j := join [NL] (map rstrip ls)).
  assert (Tj : trimmed j = true).
  { apply trimmed_join. apply Forall_map. revert H. apply Forall_impl.
    intros l. apply rstrip_neat. }
  pose proof (trimmed_collapse j None Tj) as Tc.
  pose proof (collapse_short_runs j None 0 ltac:(lia)) as Sc.
  set (y := strip_newlines (collapse_from None j)) in *.
  assert (Ty : trimmed y = true) by (apply trimmed_strip_newlines, Tc).
  assert (Sy : short_runs 0 y = true) by (apply strip_by_keeps_short_runs, Sc).
  rewrite normalize_whitespace_eq.
  rewrite (rstrip_trimmed_lines y Ty), join_split.
  rewrite (collapse_fixed y None 0 Sy).
  apply strip_by_idem.
Qed.

End Trimmed.

Section Provenance.
Context {U : UnicodeClasses}.
Variable P : char -> Prop.

Lemma Forall_prefix {A} (Q : A -> Prop) a b : Forall Q (a ++ b) -> Forall Q a.
Proof. intros H. apply Forall_app in H. tauto. Qed.

Lemma Forall_suffix {A} (Q : A -> Prop) a b : Forall Q (a ++ b) -> Forall Q b.
Proof. intros H. apply Forall_app in H. tauto. Qed.

Lemma strip_by_chars p t : Forall P t -> Forall P (strip_by p t).
Proof.
  intros H. destruct (strip_by_infix p t) as (a & b & E). rewrite E in H.
  apply Forall_suffix in H. apply (Forall_prefix _ _ _ H).
Qed.

Lemma rstrip_by_chars p t : Forall P t -> Forall P (rstrip_by p t).
Proof.
  intros H. destruct (rstrip_by_split p t) as (w & E & _). rewrite E in H.
  apply (Forall_prefix _ _ _ H).
Qed.

Lemma split_chars sep t : Forall P t -> Forall (Forall P) (split sep t).
Proof.
  induction t as [|c t IH]; intros H; simpl; [repeat constructor|].
  pose proof (IH (Forall_inv_tail H)) as IH'. pose proof (Forall_inv H) as Hc.
  destruct (c =? sep); [constructor; auto|].
  destruct (split sep t) as [|l ls]; [repeat constructor; auto|].
  inversion IH'; subst. constructor; auto.
Qed.

Lemma join_chars sep ls :
  Forall P sep -> Forall (Forall P) ls -> Forall P (join sep ls).
Proof.
  intros Hs. induction ls as [|l ls IH]; intros H; [constructor|].
  inversion H as [|? ? Hl Hls]; subst. destruct ls as [|l2 ls]; [exact Hl|].
  change (join sep (l :: l2 :: ls)) with (l ++ sep ++ join sep (l2 :: ls)).
  rewrite !Forall_app. auto.
Qed.

Lemma merge_step_chars merged line :
  P SPACE -> Forall (Forall P) merged -> Forall P line ->
  Forall (Forall P) (merge_step merged line).
Proof.
  intros Hsp HM HL. unfold merge_step. cbv zeta. destruct (_ && _ && _).
  - destruct merged as [|m merged _] using rev_ind.
    + simpl. repeat constructor; auto. apply strip_by_chars, HL.
    + rewrite removelast_last, last_last.
      apply Forall_app in HM. destruct HM as [HM Hm]. apply Forall_app.
      split; [exact HM|]. constructor; [|constructor].
      rewrite !Forall_app. repeat split.
      * apply (Forall_inv Hm).
      * repeat constructor. exact Hsp.
      * apply strip_by_chars, HL.
  - apply Forall_app. split; [exact HM|]. repeat constructor. exact HL.
Qed.

Lemma merge_lines_chars lines :
  P SPACE -> Forall (Forall P) lines -> Forall (Forall P) (merge_lines lines).
Proof.
  intros Hsp. induction lines as [|l ls IH] using rev_ind; intros H; [constructor|].
  rewrite merge_lines_snoc. apply Forall_app in H. destruct H as [H1 H2].
  apply merge_step_chars; auto. apply (Forall_inv H2).
Qed.

Lemma normalize_whitespace_chars ls :
  P NL -> Forall (Forall P) ls -> Forall P (normalize_whitespace ls).
Proof.
  intros Hnl H. unfold normalize_whitespace. cbv zeta.
  apply strip_by_chars. apply sub_scan_chars; [|repeat constructor; exact Hnl].
  apply join_chars; [repeat constructor; exact Hnl|].
  apply Forall_map. revert H. apply Forall_impl. intros l. apply rstrip_by_chars.
Qed.

Lemma fix_replacement_chars t :
  P SPACE -> P EM_DASH -> P EURO -> Forall P t -> Forall P (fix_replacement t).
Proof.
  intros H1 H2 H3 H. unfold fix_replacement, re_sub. cbv zeta.
  repeat (apply sub_scan_chars; [|repeat constructor; assumption]). exact H.
Qed.

Lemma normalize_currency_chars t :
  P SPACE -> P 69 -> P 85 -> P 82 -> Forall P t ->
  Forall P (normalize_currency t).
Proof.
  intros H1 H2 H3 H4 H. unfold normalize_currency, re_sub. cbv zeta.
  repeat (apply sub_scan_chars; [|repeat constructor; assumption]). exact H.
Qed.

End Provenance.

Section NoTables.
Context {U : UnicodeClasses}.

(** Without the delimiter there is no continuation line: the loop of step
    4 returns the lines as they are. *)
Lemma no_pipe_no_continuation line :
  ~ In PIPE line -> is_continuation line = false.
Proof.
  intros H. unfold is_continuation. cbv zeta.
  destruct (endswith (strip line) PIPE) eqn:E; [|reflexivity].
  exfalso. destruct (endswith_last _ _ E) as [t' Et]. apply H.
  destruct (strip_by_infix is_space line) as (a & b & El).
  rewrite El. apply in_or_app. right. apply in_or_app. left.
  fold (strip line). rewrite Et. apply in_or_app. right. now left.
Qed.

Lemma merge_lines_no_pipe lines :
  Forall (fun l => ~ In PIPE l) lines -> merge_lines lines = lines.
Proof.
  induction lines as [|l ls IH] using rev_ind; intros H; [reflexivity|].
  apply Forall_app in H. destruct H as [H1 H2].
  rewrite merge_lines_snoc, (IH H1). unfold merge_step. cbv zeta.
  pose proof (no_pipe_no_continuation l (Forall_inv H2)) as C.
  unfold is_continuation in C. cbv zeta in C. rewrite C. reflexivity.
Qed.

End NoTables.

(** ** The euro sign behind an amount *)

Section Euro.
Context {U : UnicodeClasses}.

(** *** The test sees the visible characters only *)

Lemma euro_clean_visible t : forall ld,
  euro_clean ld t = euro_clean ld (visible t).
Proof.
  induction t as [|c t IH]; intros ld; [reflexivity|]. simpl.
  destruct (is_space c) eqn:S; simpl; [apply IH|].
  rewrite S. rewrite IH. reflexivity.
Qed.

Lemma visible_app a b : visible (a ++ b) = visible a ++ visible b.
Proof. apply filter_app. Qed.

Lemma visible_blanks w : forallb is_space w = true -> visible w = [].
Proof.
  induction w as [|c w IH]; [reflexivity|]. simpl.
  rewrite andb_true_iff. intros [-> H]. simpl. auto.
Qed.

Lemma newlines_are_blanks w :
  forallb (N.eqb NL) w = true -> forallb is_space w = true.
Proof.
  apply forallb_impl. intros x H. apply N.eqb_eq in H. subst x. reflexivity.
Qed.

Lemma visible_strip_by p t :
  (forall c, p c = true -> is_space c = true) ->
  visible (strip_by p t) = visible t.
Proof.
  intros Hp. destruct (strip_by_split p t) as (w1 & w2 & E & F1 & F2 & _).
  rewrite E at 2. rewrite !visible_app.
  rewrite (visible_blanks w1), (visible_blanks w2), app_nil_r;
    [reflexivity| |]; eapply forallb_impl; eauto.
Qed.

Lemma visible_rstrip t : visible (rstrip t) = visible t.
Proof.
  destruct (rstrip_by_split is_space t) as (w & E & F & _).
  rewrite E at 2. rewrite visible_app, (visible_blanks w F), app_nil_r.
  reflexivity.
Qed.

Lemma visible_join ls :
  visible (join [NL] ls) = concat (map visible ls).
Proof.
  induction ls as [|l ls IH]; [reflexivity|]. destruct ls as [|l2 ls].
  - simpl. rewrite app_nil_r. reflexivity.
  - change (join [NL] (l :: l2 :: ls)) with (l ++ NL :: join [NL] (l2 :: ls)).
    rewrite visible_app. change (visible (NL :: ?x)) with (visible x).
    rewrite IH. reflexivity.
Qed.

Lemma visible_collapse t : forall prev,
  visible (collapse_from prev t) = visible t.
Proof.
  induction t as [t IH] using (induction_ltof1 _ (@length char)).
  unfold ltof in IH. intros prev.
  destruct (collapse_from_step prev t) as [[L E]|(n & b & E & S & E')].
  - rewrite E. destruct t as [|c t]; [reflexivity|]. simpl.
    rewrite IH by (simpl; lia). reflexivity.
  - rewrite E'. change (visible (NL :: NL :: ?x)) with (visible x).
    rewrite IH by (rewrite E, length_app, repeat_length; lia).
    rewrite E, visible_app.
    rewrite (visible_blanks (repeat NL (3 + n))); [reflexivity|].
    apply forallb_repeat. reflexivity.
Qed.

Lemma visible_normalize_whitespace t :
  visible (normalize_whitespace (split NL t)) = visible t.
Proof.
  rewrite normalize_whitespace_eq. unfold strip_newlines.
  rewrite visible_strip_by
    by (intros c H; apply N.eqb_eq in H; subst c; reflexivity).
  rewrite visible_collapse, visible_join, map_map.
  rewrite (map_ext _ visible) by (intros l; apply visible_rstrip).
  rewrite <- (join_split t) at 2. rewrite visible_join. reflexivity.
Qed.

End Euro.

Section AmountShape.
Context {U : UnicodeClasses}.

Lemma last_or_forallb (p : char -> bool) w : forall x,
  p x = true -> forallb p w = true ->
  exists y, last_or (Some x) w = Some y /\ p y = true.
Proof.
  induction w as [|c w IH]; intros x Hx Hw; simpl; [eauto|].
  simpl in Hw. apply andb_true_iff in Hw. destruct Hw. auto.
Qed.

Lemma last_or_snoc prev w :
  w <> [] -> exists g d, w = g ++ [d] /\ last_or prev w = Some d.
Proof.
  intros H. destruct (exists_last H) as (g & d & ->). exists g, d.
  split; [reflexivity|]. rewrite last_or_app. reflexivity.
Qed.

Lemma plus_digit_ends s s' :
  In s' (rmatch false (Plus (Cls is_digit)) s) ->
  exists d, before s' = Some d /\ is_digit d = true.
Proof.
  unfold Plus. intros H. cbn [rmatch] in H. apply in_flat_map in H.
  destruct H as (s1 & H1 & H2). simpl in H1.
  destruct (rest s) as [|x t]; [destruct H1|].
  destruct (is_digit x) eqn:D; [|destruct H1]. destruct H1 as [<-|[]].
  destruct (rmatch_run false (Star (Cls is_digit)) _ _ H2) as (w & _ & B & F).
  simpl in B, F. destruct (last_or_forallb is_digit w x D F) as (y & E & Hy).
  exists y. rewrite B, E. auto.
Qed.

Lemma amount_ends_digit s s' :
  In s' (rmatch false AMOUNT s) ->
  exists d, before s' = Some d /\ is_digit d = true.
Proof.
  unfold AMOUNT. intros H. cbn [rmatch] in H. apply in_flat_map in H.
  destruct H as (s1 & H1 & H2). apply in_app_or in H2.
  destruct H2 as [H2|[<-|[]]]; [|apply (plus_digit_ends _ _ H1)].
  apply in_flat_map in H2. destruct H2 as (s2 & _ & H3).
  apply (plus_digit_ends _ _ H3).
Qed.

Lemma amount_alpha c :
  alpha false AMOUNT c = true -> is_digit c || is_separator c = true.
Proof.
  simpl. destruct (is_digit c), (is_separator c); simpl; auto.
Qed.

Lemma amount_demands : demands false is_digit AMOUNT.
Proof. simpl. left. left. auto. Qed.

Lemma amount_euro_demands : demands false (lit_eq false EURO) AMOUNT_EURO.
Proof. simpl. right. right. left. auto. Qed.

(** What a match of the amount-and-sign pattern has passed over. *)
Lemma amount_euro_shape prev t m :
  match_at false AMOUNT_EURO prev t = Some m ->
  exists g d w1 w2,
    t = (g ++ [d]) ++ w1 ++ EURO :: w2 ++ rest m
    /\ is_digit d = true
    /\ forallb (fun c => is_digit c || is_separator c) (g ++ [d]) = true
    /\ forallb is_space w1 = true /\ forallb is_space w2 = true
    /\ groups m = [(1%nat, g ++ [d])].
Proof.
  unfold match_at. intros H.
  destruct (rmatch false AMOUNT_EURO (MState prev t [])) as [|m' l] eqn:E;
    [discriminate|].
  injection H as ->.
  assert (Hin : In m (rmatch false AMOUNT_EURO (MState prev t [])))
    by (rewrite E; now left).
  clear E l. unfold AMOUNT_EURO in Hin. cbn [Seq] in Hin.
  set (s0 := MState prev t []) in *.
  cbn [rmatch] in Hin. apply in_flat_map in Hin. destruct Hin as (s1 & H1 & Hin).
  apply in_flat_map in Hin. destruct Hin as (s2 & H2 & Hin).
  apply in_flat_map in Hin. destruct Hin as (s3 & H3 & H4).
  apply in_map_iff in H1. destruct H1 as (sa & <- & Ha).
  change (In sa (rmatch false AMOUNT s0)) in Ha.
  destruct (rmatch_demands_run false is_digit AMOUNT s0 sa amount_demands Ha)
    as (w & (Rw & Bw & Fw) & Qw).
  assert (Hne : w <> []) by (destruct w; discriminate).
  destruct (last_or_snoc prev w Hne) as (g & d & Ew & El).
  destruct (amount_ends_digit _ _ Ha) as (d' & Bd & Dd).
  assert (d' = d) by (simpl in Bw; congruence). subst d'.
  pose proof (rmatch_group_free false AMOUNT s0 sa eq_refl Ha) as Ga.
  change (In s2 (rmatch false (Star ws) (capture 1 s0 sa))) in H2.
  destruct (rmatch_run false (Star ws) _ _ H2) as (w1 & R1 & _ & F1).
  pose proof (rmatch_group_free false (Star ws) _ _ eq_refl H2) as G2.
  simpl in H3. destruct (rest s2) as [|x t3] eqn:R2; [destruct H3|].
  destruct (x =? EURO) eqn:X; [|destruct H3]. destruct H3 as [<-|[]].
  apply N.eqb_eq in X. subst x.
  change (In m (rmatch false (Star ws) (advance EURO t3 s2))) in H4.
  destruct (rmatch_run false (Star ws) _ _ H4) as (w2 & R4 & _ & F4).
  pose proof (rmatch_group_free false (Star ws) _ _ eq_refl H4) as G4.
  simpl in Rw, R1, R4, G2, G4, Ga.
  exists g, d, w1, w2. rewrite <- Ew.
  repeat split; auto.
  - rewrite Rw, R1, R4. reflexivity.
  - revert Fw. apply forallb_impl. apply amount_alpha.
  - rewrite G4, G2, Ga. f_equal. f_equal.
    rewrite Rw, length_app.
    replace (length w + length (rest sa) - length (rest sa))%nat
      with (length w) by lia.
    rewrite firstn_app, firstn_all, Nat.sub_diag. simpl. apply app_nil_r.
Qed.

End AmountShape.

Section EuroClean.
Context {U : UnicodeClasses}.

Lemma euro_clean_blanks w : forall ld z,
  forallb is_space w = true -> euro_clean ld (w ++ z) = euro_clean ld z.
Proof.
  induction w as [|c w IH]; intros ld z H; [reflexivity|]. simpl in *.
  apply andb_true_iff in H. destruct H as [-> H]. auto.
Qed.

Lemma euro_clean_tail ld c t :
  euro_clean ld (c :: t) = true -> exists ld', euro_clean ld' t = true.
Proof.
  simpl. destruct (is_space c); [eauto|].
  intros H. apply andb_true_iff in H. destruct H. eauto.
Qed.

Lemma euro_clean_weaken t : forall ld,
  euro_clean true t = true -> euro_clean ld t = true.
Proof.
  induction t as [|c t IH]; intros ld H; [reflexivity|]. simpl in *.
  destruct (is_space c); [auto|].
  apply andb_true_iff in H. destruct H as [H1 H2]. rewrite H2.
  destruct ld; simpl; [rewrite H1|]; reflexivity.
Qed.

(** A sign behind a digit, blanks apart, fails the test. *)
Lemma euro_clean_hit a : forall ld d w z,
  is_digit d = true -> forallb is_space w = true ->
  euro_clean ld (a ++ d :: w ++ EURO :: z) = false.
Proof.
  induction a as [|x a IH]; intros ld d w z D F.
  - simpl. rewrite (digit_not_space d D), D.
    rewrite (euro_clean_blanks w _ _ F). simpl. apply andb_false_r.
  - simpl. destruct (is_space x); [auto|]. rewrite IH by auto.
    apply andb_false_r.
Qed.

Lemma separator_not_space c : is_separator c = true -> is_space c = false.
Proof. intros H. destruct (separator_cases c H) as [-> | ->]; reflexivity. Qed.

Lemma separator_not_euro c : is_separator c = true -> (c =? EURO) = false.
Proof. intros H. destruct (separator_cases c H) as [-> | ->]; reflexivity. Qed.

(** An amount passes the test when what follows does. *)
Lemma euro_clean_amount g : forall ld z,
  forallb (fun c => is_digit c || is_separator c) g = true ->
  euro_clean true z = true -> euro_clean ld (g ++ z) = true.
Proof.
  induction g as [|c g IH]; intros ld z F Hz.
  - apply euro_clean_weaken. exact Hz.
  - simpl in F. apply andb_true_iff in F. destruct F as [Hc F].
    simpl. apply orb_true_iff in Hc.
    assert (S : is_space c = false)
      by (destruct Hc; [apply digit_not_space|apply separator_not_space]; auto).
    assert (E : (c =? EURO) = false)
      by (destruct Hc; [apply digit_not_euro|apply separator_not_euro]; auto).
    rewrite S, E, andb_false_r. simpl. auto.
Qed.

Lemma euro_next_blank c t : is_space c = true -> euro_next (c :: t) = euro_next t.
Proof. unfold euro_next. simpl. intros ->. reflexivity. Qed.

Lemma euro_next_visible c t :
  is_space c = false -> euro_next (c :: t) = (c =? EURO).
Proof. unfold euro_next. simpl. intros ->. reflexivity. Qed.

Lemma euro_next_split t :
  euro_next t = true ->
  exists w1 w2 b, t = w1 ++ EURO :: w2 ++ b /\ forallb is_space w1 = true
                  /\ forallb is_space w2 = true /\ stops is_space b.
Proof.
  unfold euro_next. intros H.
  destruct (lstrip_by_split is_space t) as (w1 & E1 & F1 & _).
  destruct (lstrip_by is_space t) as [|c t']; [discriminate|].
  apply N.eqb_eq in H. subst c.
  destruct (lstrip_by_split is_space t') as (w2 & E2 & F2 & S2).
  exists w1, w2, (lstrip_by is_space t'). rewrite <- E2. auto.
Qed.

(** A digit in front of the sign is where the pattern matches. *)
Lemma digit_before_euro prev c t :
  is_digit c = true -> euro_next t = true ->
  match_at false AMOUNT_EURO prev (c :: t) <> None.
Proof.
  intros D H. destruct (euro_next_split t H) as (w1 & w2 & b & -> & F1 & F2 & S).
  pose proof (amount_euro_first prev [c] None w1 w2 b) as M.
  unfold amount in M. simpl in M. rewrite M; [discriminate| | | | |]; auto.
  split; [discriminate|]. simpl. rewrite D. reflexivity.
Qed.

(** Where the pattern matches nowhere the substitution is the identity. *)
Lemma amount_euro_fixed tpl : forall t prev ld,
  euro_clean ld t = true -> sub_scan false AMOUNT_EURO tpl prev 0 t = t.
Proof.
  intros t prev. revert t prev.
  apply (scan_ind false AMOUNT_EURO (lit_eq false EURO) amount_euro_demands
           (fun prev t => forall ld, euro_clean ld t = true ->
                          sub_scan false AMOUNT_EURO tpl prev 0 t = t)).
  - intros prev ld _.
    apply (sub_scan_nil false AMOUNT_EURO tpl _ amount_euro_demands).
  - intros prev c t M IH ld H. rewrite sub_scan_copy by exact M.
    destruct (euro_clean_tail _ _ _ H) as (ld' & H'). f_equal. eapply IH; eauto.
  - intros prev c a m M _ _ ld H. exfalso.
    destruct (amount_euro_shape _ _ _ M) as (g & d & w1 & w2 & E & D & _ & F1 & _).
    rewrite E in H. rewrite <- app_assoc in H. simpl in H.
    rewrite euro_clean_hit in H by auto. discriminate.
Qed.

(** After the substitution no sign is left behind a digit. *)
Lemma amount_euro_cleans : forall t prev ld,
  (ld = true -> euro_next t = false) ->
  euro_clean ld (sub_scan false AMOUNT_EURO [TGrp 1; TLit (py " EUR ")] prev 0 t) = true.
Proof.
  intros t prev. revert t prev.
  apply (scan_ind false AMOUNT_EURO (lit_eq false EURO) amount_euro_demands
           (fun prev t => forall ld, (ld = true -> euro_next t = false) ->
              euro_clean ld (sub_scan false AMOUNT_EURO [TGrp 1; TLit (py " EUR ")] prev 0 t)
              = true)).
  - intros prev ld _.
    rewrite (sub_scan_nil false AMOUNT_EURO _ _ amount_euro_demands).
    reflexivity.
  - intros prev c t M IH ld H. rewrite sub_scan_copy by exact M.
    cbn [euro_clean]. destruct (is_space c) eqn:S.
    + apply IH. intros L. rewrite <- (euro_next_blank c t S). auto.
    + apply andb_true_iff. split.
      * destruct ld; [|reflexivity]. rewrite <- (euro_next_visible c t S).
        rewrite H; reflexivity.
      * apply IH. intros D. destruct (euro_next t) eqn:N; [|reflexivity].
        exfalso. exact (digit_before_euro prev c t D N M).
  - intros prev c a m M _ IH ld _.
    destruct (amount_euro_shape _ _ _ M) as (g & d & w1 & w2 & E & D & F & F1 & F2 & G).
    destruct (sub_scan_step false AMOUNT_EURO [TGrp 1; TLit (py " EUR ")] _ amount_euro_demands
                _ _ _ M) as (c' & a' & E' & _ & ->).
    rewrite G. cbn [expand group]. simpl app.
    rewrite <- app_assoc. apply (euro_clean_amount _ _ _ F).
    simpl. rewrite !digit_ascii by reflexivity. simpl.
    assert (L : last_or prev (c' :: a') = last_or prev (c :: a)).
    { apply app_inv_tail in E'. congruence. }
    change (last_or (Some c') a') with (last_or prev (c' :: a')).
    rewrite L. apply IH. discriminate.
Qed.

End EuroClean.

(** ** Words and the currency token *)

Section Words.
Context {U : UnicodeClasses}.

(** *** Words and concatenation *)

Lemma words_sep a : forall cur c t,
  is_word c = false ->
  words_aux cur (a ++ c :: t) = words_aux cur a ++ words t.
Proof.
  induction a as [|x a IH]; intros cur c t H; simpl.
  - rewrite H. reflexivity.
  - destruct (is_word x); [apply IH; exact H|].
    rewrite IH by exact H. apply app_assoc.
Qed.

Lemma words_nonword w : forallb nonword w = true -> words w = [].
Proof.
  unfold words. induction w as [|c w IH]; [reflexivity|]. simpl.
  unfold nonword at 1. intros H. apply andb_true_iff in H. destruct H as [Hc H].
  apply negb_true_iff in Hc. rewrite Hc. simpl. auto.
Qed.

Lemma words_tail a w : forall cur,
  forallb nonword w = true -> words_aux cur (a ++ w) = words_aux cur a.
Proof.
  intros cur H. destruct w as [|c w]; [rewrite app_nil_r; reflexivity|].
  simpl in H. apply andb_true_iff in H. destruct H as [Hc H].
  apply negb_true_iff in Hc. rewrite words_sep by exact Hc.
  rewrite (words_nonword w H). apply app_nil_r.
Qed.

Lemma words_head w t : forallb nonword w = true -> words (w ++ t) = words t.
Proof.
  unfold words. induction w as [|c w IH]; [reflexivity|]. simpl.
  unfold nonword at 1. intros H. apply andb_true_iff in H. destruct H as [Hc H].
  apply negb_true_iff in Hc. rewrite Hc. simpl. auto.
Qed.

Lemma words_gap w t cur :
  w <> [] -> forallb nonword w = true ->
  words_aux cur (w ++ t) = flush cur ++ words t.
Proof.
  destruct w as [|c w]; [congruence|]. intros _ H. simpl in H.
  apply andb_true_iff in H. destruct H as [Hc H]. apply negb_true_iff in Hc.
  simpl. rewrite Hc. f_equal. apply (words_head w t H).
Qed.

Lemma words_run w : forall cur b,
  forallb is_word w = true -> words_aux cur (w ++ b) = words_aux (cur ++ w) b.
Proof.
  induction w as [|c w IH]; intros cur b H; simpl.
  - rewrite app_nil_r. reflexivity.
  - simpl in H. apply andb_true_iff in H. destruct H as [-> H].
    rewrite IH by exact H. rewrite <- app_assoc. reflexivity.
Qed.

Lemma words_stop cur b :
  cur <> [] -> stops is_word b -> words_aux cur b = cur :: words b.
Proof.
  intros Hc Hb. destruct b as [|x b]; simpl.
  - destruct cur; [congruence|reflexivity].
  - simpl in Hb. unfold words. simpl. rewrite Hb.
    destruct cur; [congruence|reflexivity].
Qed.

(** A word in front of something that is no word character. *)
Lemma words_word w b :
  w <> [] -> forallb is_word w = true -> stops is_word b ->
  words (w ++ b) = w :: words b.
Proof.
  intros Hw F Hb. unfold words at 1. rewrite words_run by exact F.
  simpl. apply words_stop; auto.
Qed.

Lemma blank_nonword w : forallb is_space w = true -> forallb nonword w = true.
Proof.
  apply forallb_impl. intros c H. unfold nonword.
  rewrite (space_not_word c H). reflexivity.
Qed.

Lemma newline_nonword w : forallb (N.eqb NL) w = true -> forallb nonword w = true.
Proof. intros H. apply blank_nonword, newlines_are_blanks, H. Qed.

(** *** The whitespace step leaves the words alone *)

Lemma words_rstrip t : words (rstrip t) = words t.
Proof.
  destruct (rstrip_by_split is_space t) as (w & E & F & _).
  rewrite E at 2. unfold words. rewrite words_tail; [reflexivity|].
  apply blank_nonword, F.
Qed.

Lemma words_join ls : words (join [NL] ls) = concat (map words ls).
Proof.
  induction ls as [|l ls IH]; [reflexivity|]. destruct ls as [|l2 ls].
  - simpl. rewrite app_nil_r. reflexivity.
  - change (join [NL] (l :: l2 :: ls)) with (l ++ NL :: join [NL] (l2 :: ls)).
    unfold words at 1. rewrite words_sep by (apply space_not_word; reflexivity).
    rewrite IH. reflexivity.
Qed.

Lemma words_collapse t : forall prev cur,
  words_aux cur (collapse_from prev t) = words_aux cur t.
Proof.
  induction t as [t IH] using (induction_ltof1 _ (@length char)).
  unfold ltof in IH. intros prev cur.
  destruct (collapse_from_step prev t) as [[L E]|(n & b & E & S & E')].
  - rewrite E. destruct t as [|c t]; [reflexivity|]. simpl.
    rewrite !IH by (simpl; lia). reflexivity.
  - rewrite E'. rewrite E.
    rewrite (words_gap (repeat NL (3 + n)) b cur).
    + change (NL :: NL :: ?x) with ([NL; NL] ++ x).
      rewrite (words_gap [NL; NL] _ cur); [|discriminate|].
      * f_equal. apply IH. rewrite E, length_app, repeat_length. lia.
      * apply newline_nonword. reflexivity.
    + discriminate.
    + apply newline_nonword, forallb_repeat. reflexivity.
Qed.

Lemma words_strip_newlines t : words (strip_newlines t) = words t.
Proof.
  unfold strip_newlines.
  destruct (strip_by_split (N.eqb NL) t) as (w1 & w2 & E & F1 & F2 & _).
  rewrite E at 2. rewrite words_head by (apply newline_nonword, F1).
  unfold words. rewrite words_tail by (apply newline_nonword, F2). reflexivity.
Qed.

Lemma words_normalize_whitespace t :
  words (normalize_whitespace (split NL t)) = words t.
Proof.
  rewrite normalize_whitespace_eq, words_strip_newlines.
  unfold words at 1. rewrite words_collapse. fold (words (join [NL] (map rstrip (split NL t)))).
  rewrite words_join, map_map.
  rewrite (map_ext _ words) by (intros l; apply words_rstrip).
  rewrite <- (join_split t) at 2. rewrite words_join. reflexivity.
Qed.

End Words.

Section EurToken.
Context {U : UnicodeClasses}.

Lemma eur_token_demands : demands true (lit_eq true 101) EUR_TOKEN.
Proof. simpl. right. left. auto. Qed.

Lemma lit_word c x :
  ascii_lower x = true -> lit_eq true x c = true -> is_word c = true.
Proof.
  unfold lit_eq. intros Hx H. apply N.eqb_eq in H.
  apply (letter_is_word c x Hx). rewrite H. unfold lower.
  unfold ascii_lower in Hx. unfold ascii_upper.
  replace ((65 <=? x) && (x <=? 90)) with false; [reflexivity|].
  symmetry. apply andb_false_iff. right. apply N.leb_gt. bool_lia.
Qed.

Lemma nonword_not_e c : is_word c = false -> lit_eq true 101 c = false.
Proof.
  intros H. destruct (lit_eq true 101 c) eqn:E; [|reflexivity].
  rewrite (lit_word c 101 eq_refl E) in H. discriminate.
Qed.

(** No match starts inside a word. *)
Lemma eur_no_boundary prev c t :
  word_before prev = true -> is_word c = true ->
  match_at true EUR_TOKEN prev (c :: t) = None.
Proof.
  intros Hp Hc. unfold match_at, EUR_TOKEN. cbn [Seq rmatch].
  unfold at_boundary. cbn [before rest]. unfold word_before in Hp.
  rewrite Hp, Hc. reflexivity.
Qed.

(** What a match of the token pattern looks like. *)
Lemma eur_token_shape prev t m :
  match_at true EUR_TOKEN prev t = Some m ->
  exists c1 c2 c3 b,
    t = c1 :: c2 :: c3 :: b
    /\ lower c1 = 101 /\ lower c2 = 117 /\ lower c3 = 114
    /\ word_before prev = false /\ stops is_word b
    /\ m = MState (Some c3) b [].
Proof.
  unfold match_at. intros H.
  destruct (rmatch true EUR_TOKEN (MState prev t [])) as [|m' l] eqn:E;
    [discriminate|].
  injection H as ->.
  assert (Hin : In m (rmatch true EUR_TOKEN (MState prev t [])))
    by (rewrite E; now left).
  clear E l. unfold EUR_TOKEN in Hin. cbn [Seq] in Hin.
  cbn [rmatch] in Hin.
  apply in_flat_map in Hin. destruct Hin as (s1 & H1 & Hin).
  apply in_flat_map in Hin. destruct Hin as (s2 & H2 & Hin).
  apply in_flat_map in Hin. destruct Hin as (s3 & H3 & Hin).
  apply in_flat_map in Hin. destruct Hin as (s4 & H4 & H5).
  destruct (at_boundary (MState prev t [])) eqn:B1; [|destruct H1].
  destruct H1 as [<-|[]]. cbn [rest] in H2.
  destruct t as [|c1 t]; [destruct H2|].
  destruct (lower c1 =? lower 101) eqn:L1; [|destruct H2].
  destruct H2 as [<-|[]]. cbn [rest advance] in H3.
  destruct t as [|c2 t]; [destruct H3|].
  destruct (lower c2 =? lower 117) eqn:L2; [|destruct H3].
  destruct H3 as [<-|[]]. cbn [rest advance] in H4.
  destruct t as [|c3 t]; [destruct H4|].
  destruct (lower c3 =? lower 114) eqn:L3; [|destruct H4].
  destruct H4 as [<-|[]]. unfold advance in H5. cbn [groups] in H5.
  destruct (at_boundary (MState (Some c3) t [])) eqn:B2; [|destruct H5].
  destruct H5 as [<-|[]].
  apply N.eqb_eq in L1, L2, L3.
  change (lower 101) with 101 in L1. change (lower 117) with 117 in L2.
  change (lower 114) with 114 in L3.
  exists c1, c2, c3, t. repeat split; auto.
  - unfold at_boundary in B1. cbn [before rest] in B1.
    rewrite (letter_is_word c1 101 eq_refl L1) in B1.
    unfold word_before. destruct prev as [p|]; [|reflexivity].
    destruct (is_word p); [discriminate|reflexivity].
  - unfold at_boundary in B2. cbn [before rest] in B2.
    rewrite (letter_is_word c3 114 eq_refl L3) in B2.
    destruct t as [|x t]; [exact I|]. simpl.
    destruct (is_word x); [discriminate|reflexivity].
Qed.

(** Inside a word the scan copies. *)
Lemma eur_token_in_word w : forall prev b,
  word_before prev = true -> forallb is_word w = true ->
  sub_scan true EUR_TOKEN [TLit (py "EUR")] prev 0 (w ++ b)
  = w ++ sub_scan true EUR_TOKEN [TLit (py "EUR")] (last_or prev w) 0 b.
Proof.
  induction w as [|c w IH]; intros prev b Hp F; [reflexivity|].
  simpl in F. apply andb_true_iff in F. destruct F as [Hc F].
  simpl app. rewrite sub_scan_copy by (apply eur_no_boundary; auto).
  simpl. f_equal. apply IH; auto.
Qed.

Lemma eur_token_stops prev b :
  stops is_word b ->
  stops is_word (sub_scan true EUR_TOKEN [TLit (py "EUR")] prev 0 b).
Proof.
  destruct b as [|x b]; intros H.
  - rewrite (sub_scan_nil true EUR_TOKEN _ _ eur_token_demands). exact I.
  - simpl in H. rewrite sub_scan_copy
      by (apply eur_token_first, nonword_not_e, H).
    exact H.
Qed.

(** A text that begins with a word character, split at the end of that
    word. *)
Lemma word_split c t :
  is_word c = true ->
  exists w b, c :: t = (c :: w) ++ b /\ forallb is_word w = true
              /\ stops is_word b.
Proof.
  intros Hc. destruct (lstrip_by_split is_word t) as (w & E & F & S).
  exists w, (lstrip_by is_word t). repeat split; auto. simpl. f_equal. exact E.
Qed.

Lemma eur_like_cases w :
  eur_like w = true ->
  exists c1 c2 c3, w = [c1; c2; c3]
                   /\ lower c1 = 101 /\ lower c2 = 117 /\ lower c3 = 114.
Proof.
  unfold eur_like. intros H. apply text_eqb_eq in H.
  destruct w as [|c1 [|c2 [|c3 [|c4 w]]]]; try discriminate.
  injection H as H1 H2 H3. exists c1, c2, c3. auto.
Qed.

Lemma upper_ok_EUR : upper_ok (py "EUR").
Proof. intros _. reflexivity. Qed.

(** After the substitution every word that reads [eur] is spelled [EUR]. *)
Lemma eur_token_words : forall t prev,
  word_before prev = false \/ stops is_word t ->
  Forall upper_ok (words (sub_scan true EUR_TOKEN [TLit (py "EUR")] prev 0 t)).
Proof.
  intros t. induction t as [t IH] using (induction_ltof1 _ (@length char)).
  unfold ltof in IH. intros prev H. destruct t as [|c t].
  { rewrite (sub_scan_nil true EUR_TOKEN _ _ eur_token_demands). constructor. }
  destruct (is_word c) eqn:Hc.
  - destruct H as [Hp|H]; [|simpl in H; congruence].
    destruct (match_at true EUR_TOKEN prev (c :: t)) as [m|] eqn:M.
    + destruct (eur_token_shape _ _ _ M)
        as (c1 & c2 & c3 & b & E & L1 & L2 & L3 & _ & S & ->).
      rewrite E in M |- *.
      rewrite (sub_scan_match true EUR_TOKEN _ prev c1 [c2; c3] b _ M eq_refl).
      cbn [expand groups]. rewrite app_nil_r.
      rewrite words_word.
      * constructor; [apply upper_ok_EUR|]. apply IH; [|right; exact S].
        injection E as _ ->. simpl. lia.
      * discriminate.
      * simpl. rewrite !word_ascii by reflexivity. reflexivity.
      * apply eur_token_stops, S.
    + destruct (word_split c t Hc) as (w & b & E & F & S).
      rewrite sub_scan_copy by exact M.
      assert (E2 : t = w ++ b) by (simpl in E; congruence).
      rewrite E2, eur_token_in_word by (simpl; auto).
      change (c :: w ++ ?x) with ((c :: w) ++ x).
      rewrite words_word.
      * constructor.
        -- intros L. exfalso.
           destruct (eur_like_cases _ L) as (c1 & c2 & c3 & Ew & L1 & L2 & L3).
           injection Ew as -> ->. rewrite E2 in M. simpl in M.
           rewrite (eur_token_match prev c1 c2 c3 b) in M; auto. discriminate.
        -- apply IH; [|right; exact S]. rewrite E2. simpl.
           rewrite length_app. lia.
      * discriminate.
      * simpl. rewrite Hc. exact F.
      * apply eur_token_stops, S.
  - rewrite sub_scan_copy by (apply eur_token_first, nonword_not_e, Hc).
    unfold words. simpl. rewrite Hc. simpl. apply IH; [simpl; lia|].
    left. exact Hc.
Qed.

(** Where every such word is spelled [EUR] already, the substitution is
    the identity. *)
Lemma eur_token_fixed : forall t prev,
  word_before prev = false \/ stops is_word t ->
  Forall upper_ok (words t) ->
  sub_scan true EUR_TOKEN [TLit (py "EUR")] prev 0 t = t.
Proof.
  intros t. induction t as [t IH] using (induction_ltof1 _ (@length char)).
  unfold ltof in IH. intros prev H W. destruct t as [|c t].
  { apply (sub_scan_nil true EUR_TOKEN _ _ eur_token_demands). }
  destruct (is_word c) eqn:Hc.
  - destruct H as [Hp|H]; [|simpl in H; congruence].
    destruct (match_at true EUR_TOKEN prev (c :: t)) as [m|] eqn:M.
    + destruct (eur_token_shape _ _ _ M)
        as (c1 & c2 & c3 & b & E & L1 & L2 & L3 & _ & S & ->).
      assert (Hlen : (length b < length (c :: t))%nat)
        by (rewrite E; simpl; lia).
      rewrite E in M, W |- *.
      rewrite (sub_scan_match true EUR_TOKEN _ prev c1 [c2; c3] b _ M eq_refl).
      cbn [expand groups last_or]. rewrite app_nil_r.
      change (c1 :: c2 :: c3 :: b) with ([c1; c2; c3] ++ b) in W.
      rewrite words_word in W; [|discriminate| |exact S].
      * apply Forall_cons_iff in W. destruct W as [W1 W2].
        assert (E3 : [c1; c2; c3] = py "EUR")
          by (apply W1; unfold eur_like; simpl; rewrite L1, L2, L3; reflexivity).
        replace (c1 :: c2 :: c3 :: b) with (py "EUR" ++ b)
          by (rewrite <- E3; reflexivity).
        f_equal. apply IH; [exact Hlen|right; exact S|exact W2].
      * simpl. rewrite (letter_is_word c1 101), (letter_is_word c2 117),
          (letter_is_word c3 114); auto.
    + destruct (word_split c t Hc) as (w & b & E & F & S).
      assert (E2 : t = w ++ b) by (simpl in E; congruence).
      rewrite E in W. rewrite words_word in W;
        [|discriminate|simpl; rewrite Hc; exact F|exact S].
      apply Forall_cons_iff in W. destruct W as [W1 W2].
      rewrite sub_scan_copy by exact M. f_equal.
      rewrite E2, eur_token_in_word by (simpl; auto). f_equal.
      apply IH; [rewrite E2; simpl; rewrite length_app; lia|right; exact S
                |exact W2].
  - rewrite sub_scan_copy by (apply eur_token_first, nonword_not_e, Hc).
    f_equal. apply IH; [simpl; lia|left; exact Hc|].
    unfold words in W. simpl in W. rewrite Hc in W. exact W.
Qed.

(** The currency insertion keeps that property. *)
Lemma amount_euro_words : forall t prev cur,
  Forall upper_ok (words_aux cur t) ->
  Forall upper_ok
    (words_aux cur (sub_scan false AMOUNT_EURO
                      [TGrp 1; TLit (py " EUR ")] prev 0 t)).
Proof.
  intros t prev. revert t prev.
  apply (scan_ind false AMOUNT_EURO (lit_eq false EURO) amount_euro_demands
           (fun prev t => forall cur, Forall upper_ok (words_aux cur t) ->
              Forall upper_ok
                (words_aux cur (sub_scan false AMOUNT_EURO
                                  [TGrp 1; TLit (py " EUR ")] prev 0 t)))).
  - intros prev cur H.
    rewrite (sub_scan_nil false AMOUNT_EURO _ _ amount_euro_demands). exact H.
  - intros prev c t M IH cur H. rewrite sub_scan_copy by exact M.
    simpl in H |- *. destruct (is_word c); [apply IH; exact H|].
    apply Forall_app in H. destruct H as [H1 H2].
    apply Forall_app. split; [exact H1|]. apply IH. exact H2.
  - intros prev c a m M _ IH cur H.
    destruct (amount_euro_shape _ _ _ M)
      as (g & d & w1 & w2 & E & D & F & F1 & F2 & G).
    destruct (sub_scan_step false AMOUNT_EURO [TGrp 1; TLit (py " EUR ")] _
                amount_euro_demands _ _ _ M) as (c' & a' & E' & _ & ->).
    assert (L : last_or prev (c' :: a') = last_or prev (c :: a)).
    { apply app_inv_tail in E'. congruence. }
    rewrite L. rewrite G. cbn [expand group]. simpl Nat.eqb. cbv iota.
    rewrite E in H. rewrite app_nil_r.
    rewrite (app_assoc (g ++ [d]) w1) in H.
    rewrite words_sep in H by apply euro_not_word.
    rewrite words_tail in H by (apply blank_nonword, F1).
    rewrite words_head in H by (apply blank_nonword, F2).
    apply Forall_app in H. destruct H as [H1 H2].
    rewrite <- app_assoc.
    change (py " EUR " ++ ?x) with (SPACE :: py "EUR" ++ SPACE :: x).
    rewrite words_sep by (apply space_not_word; reflexivity).
    apply Forall_app. split; [exact H1|].
    unfold words at 1. rewrite words_sep by (apply space_not_word; reflexivity).
    apply Forall_app. split.
    + simpl. rewrite !word_ascii by reflexivity. simpl.
      constructor; [apply upper_ok_EUR|constructor].
    + apply IH. exact H2.
Qed.

End EurToken.

(** ** Step 2 leaves no replacement character *)

Section MarkerFree.
Context {U : UnicodeClasses}.

Lemma standalone_demands : demands false (lit_eq false REPLACEMENT_CHAR) STANDALONE.
Proof. simpl. right. left. auto. Qed.

Lemma standalone_at_marker prev t :
  match_at false STANDALONE prev (REPLACEMENT_CHAR :: t) <> None.
Proof.
  destruct (lstrip_by_split is_space t) as (w & E & F & S).
  unfold match_at, STANDALONE. cbn [Seq].
  rewrite (first_Cat false _ _ _ (MState prev (REPLACEMENT_CHAR :: t) [])
             (MState (last_or (Some REPLACEMENT_CHAR) w) (lstrip_by is_space t) []));
    [discriminate| |].
  - apply (first_Star false is_space [] prev (REPLACEMENT_CHAR :: t) []);
      reflexivity.
  - apply (first_Cat false _ _ _ (MState (Some REPLACEMENT_CHAR) t [])).
    + apply first_Lit. reflexivity.
    + rewrite E at 1. apply first_Star; auto.
Qed.

Lemma fix_replacement_cleans t :
  Forall (fun c => c <> REPLACEMENT_CHAR) (fix_replacement t).
Proof.
  unfold fix_replacement, re_sub. cbv zeta.
  apply (sub_scan_cleans false (lit_eq false REPLACEMENT_CHAR) STANDALONE _ _
           standalone_demands).
  - intros prev c t' M -> . exact (standalone_at_marker prev t' M).
  - repeat constructor; discriminate.
Qed.

Lemma absent_existsb (x : char) (q : char -> bool) t :
  (forall c, q c = true -> c = x) ->
  Forall (fun c => c <> x) t -> existsb q t = false.
Proof.
  intros Hq H. apply existsb_none. intros c Hc.
  rewrite Forall_forall in H. destruct (q c) eqn:Q; [|reflexivity].
  exfalso. apply (H c Hc). auto.
Qed.


Lemma lit_exact x c : lit_eq false x c = true -> c = x.
Proof. unfold lit_eq. apply N.eqb_eq. Qed.

End MarkerFree.

(** ** What the result looks like *)

Section Outcome.
Context {U : UnicodeClasses}.

(** *** The visible characters through steps 4 and 5 *)

Lemma visible_lines ls :
  visible (normalize_whitespace ls) = concat (map visible ls).
Proof.
  rewrite normalize_whitespace_eq. unfold strip_newlines.
  rewrite visible_strip_by
    by (intros c H; apply N.eqb_eq in H; subst c; reflexivity).
  rewrite visible_collapse, visible_join, map_map.
  apply f_equal. apply map_ext. intros l. apply visible_rstrip.
Qed.

Lemma visible_merge_step merged line :
  concat (map visible (merge_step merged line))
  = concat (map visible merged) ++ visible line.
Proof.
  unfold merge_step. cbv zeta. destruct (_ && _ && _) eqn:C.
  - apply andb_true_iff in C. destruct C as [_ C].
    apply negb_true_iff, Nat.eqb_neq in C.
    assert (Hm : merged <> []) by (destruct merged; [contradiction|discriminate]).
    destruct (exists_last Hm) as (done & prev & ->).
    rewrite removelast_last, last_last.
    rewrite !map_app, !concat_app. simpl. rewrite !app_nil_r, !visible_app.
    rewrite <- !app_assoc. f_equal. f_equal. simpl.
    apply (visible_strip_by is_space line). auto.
  - rewrite map_app, concat_app. simpl. rewrite app_nil_r. reflexivity.
Qed.

Lemma visible_merge_lines lines :
  concat (map visible (merge_lines lines)) = concat (map visible lines).
Proof.
  induction lines as [|l ls IH] using rev_ind; [reflexivity|].
  rewrite merge_lines_snoc, visible_merge_step, IH.
  rewrite map_app, concat_app. simpl. rewrite app_nil_r. reflexivity.
Qed.

(** No replacement character is left in what [normalize_for_llm] returns:
    the third substitution of step 2 rewrites every one the first two left,
    and no later step writes one. *)
Theorem normalize_leaves_no_marker (raw : text) :
  Forall (fun c => c <> REPLACEMENT_CHAR) (normalize_for_llm raw).
Proof.
  destruct raw as [|c raw]; [constructor|].
  rewrite normalize_nonempty by discriminate.
  apply normalize_whitespace_chars; [discriminate|].
  apply merge_lines_chars; [discriminate|]. apply split_chars.
  unfold repaired. apply normalize_currency_chars; try discriminate.
  apply fix_replacement_cleans.
Qed.

(** [short_runs] fails on a text with three newlines in a row. *)
Lemma short_runs_three a : forall k b,
  short_runs k (a ++ NL :: NL :: NL :: b) = false.
Proof.
  induction a as [|c a IH]; intros k b.
  - destruct k as [|[|k]]; reflexivity.
  - simpl. destruct (c =? NL); rewrite IH; [apply andb_false_r|reflexivity].
Qed.

(** What [normalize_for_llm] returns has no run of three newlines, and
    neither begins nor ends with a newline. *)
Theorem normalize_blank_lines (raw : text) :
  short_runs 0 (normalize_for_llm raw) = true
  /\ stops (N.eqb NL) (normalize_for_llm raw)
  /\ stops (N.eqb NL) (rev (normalize_for_llm raw)).
Proof.
  destruct raw as [|c raw]; [repeat split|].
  rewrite normalize_nonempty by discriminate.
  rewrite normalize_whitespace_eq. unfold strip_newlines.
  set (j := collapse_from None _).
  destruct (strip_by_split (N.eqb NL) j) as (w1 & w2 & _ & _ & _ & S1 & S2).
  repeat split; [|exact S1|exact S2].
  apply strip_by_keeps_short_runs. apply collapse_short_runs. simpl. lia.
Qed.

(** In what [normalize_for_llm] returns no euro sign stands behind a digit,
    blanks apart: each was rewritten to the currency code by step 3. *)
Theorem normalize_leaves_no_amount_sign (raw : text) :
  euro_clean false (normalize_for_llm raw) = true.
Proof.
  destruct raw as [|c raw]; [reflexivity|].
  rewrite normalize_nonempty by discriminate.
  rewrite euro_clean_visible, visible_lines, visible_merge_lines.
  rewrite <- visible_join, join_split, <- euro_clean_visible.
  unfold repaired, normalize_currency, re_sub. cbv zeta.
  apply amount_euro_cleans. discriminate.
Qed.

End Outcome.

(** ** The command line of the enrichment step *)

Section EnrichMainFacts.
Import EnrichMain.
Context {U : UnicodeClasses}.
Variable json_loads : text -> option json.
Variable json_dumps : json -> text.
Variable path : Type.
Implicit Types (m : machine path) (p : path).

Lemma has_member_key key members :
  has_member key members = true <-> has_key key members.
Proof. apply in_dict. Qed.

(** [load_json] returns a value exactly when the file can be read, its text
    parses, and the parsed value is an object with both keys [menu_items]
    and [event]; the value it returns is the parsed one. *)
Theorem load_json_accepts m p (data : json) :
  load_json json_loads m p = Ok data
  <-> exists content members,
        open_read m p = Ok content /\ json_loads content = Some data
        /\ data = JObject members
        /\ has_key (py "menu_items") members /\ has_key (py "event") members.
Proof.
  unfold load_json. split.
  - destruct (open_read m p) as [content|e]; [|discriminate].
    destruct (json_loads content) as [v|] eqn:J; [|discriminate].
    destruct v as [| | | |xs|members]; try discriminate.
    destruct (has_member (py "menu_items") members) eqn:H1; [|discriminate].
    destruct (has_member (py "event") members) eqn:H2; [|discriminate].
    simpl. intros E. injection E as <-. exists content, members.
    apply has_member_key in H1, H2. auto.
  - intros (content & members & -> & -> & -> & H1 & H2).
    apply has_member_key in H1, H2. rewrite H1, H2. reflexivity.
Qed.

(** What [load_json] raises once the file has been read is a
    [ValueError]. *)
Lemma load_json_value_error m p content e :
  open_read m p = Ok content -> load_json json_loads m p = Raise e ->
  is_value_error e = true.
Proof.
  unfold load_json. intros ->.
  destruct (json_loads content) as [v|]; [|intros E; injection E as <-; reflexivity].
  destruct v as [| | | |xs|members];
    try (intros E; injection E as <-; reflexivity).
  destruct (_ || _); [intros E; injection E as <-; reflexivity|discriminate].
Qed.

(** *** The request of the enrichment contract *)

Lemma enrich_returns (w : world) data result :
  outcome (EnrichFromJson.generate_summary_and_prompt
             json_loads json_dumps w data) = Ok result ->
  (exists rq, requests (EnrichFromJson.generate_summary_and_prompt
                          json_loads json_dumps w data) = [rq])
  /\ EnrichFromJson.lacks_a_key result = Ok false.
Proof.
  unfold EnrichFromJson.generate_summary_and_prompt, lift, bind, submit,
    outcome, requests.
  destruct (EnrichFromJson._get_api_key w) as [key|e]; [|discriminate].
  simpl. destruct (text_generator w _) as [[t|]|code]; simpl; try discriminate.
  destruct t as [|c t]; [discriminate|]. unfold raise, ret.
  destruct (json_loads _) as [v|]; [|discriminate].
  destruct (EnrichFromJson.lacks_a_key v) as [[|]|e] eqn:L; simpl;
    try discriminate.
  intros E. injection E as <-. split; [eauto|exact L].
Qed.

(** *** Indexing the result *)

Lemma find_member key members :
  has_member key members = true ->
  exists kv, find (fun kv => text_eqb (fst kv) key) (rev members) = Some kv.
Proof.
  unfold has_member. rewrite existsb_exists. intros (kv & Hin & E).
  destruct (find _ (rev members)) as [kv'|] eqn:F; [eauto|].
  apply in_rev in Hin. rewrite (find_none _ _ F kv Hin) in E. discriminate.
Qed.

Lemma getitem_object members key :
  has_member key members = true ->
  exists v, @getitem path (JObject members) key = done v.
Proof.
  intros H. destruct (find_member key members H) as (kv & F).
  exists (snd kv). unfold getitem. rewrite F. reflexivity.
Qed.

Lemma getitem_non_object (v : json) key :
  is_object v = false ->
  exists msg, @getitem path v key = fail (Exn (TypeError msg)).
Proof. destruct v; simpl; try discriminate; eauto. Qed.

Lemma lacks_none_object members :
  EnrichFromJson.lacks_a_key (JObject members) = Ok false ->
  has_member (py "marketing_summary") members = true
  /\ has_member (py "image_prompt") members = true.
Proof.
  unfold EnrichFromJson.lacks_a_key, py_in. fold (has_member (py "marketing_summary") members).
  fold (has_member (py "image_prompt") members).
  destruct (has_member (py "marketing_summary") members); [|discriminate].
  destruct (has_member (py "image_prompt") members); [auto|discriminate].
Qed.

End EnrichMainFacts.

Section EnrichMainRuns.
Import EnrichMain.
Context {U : UnicodeClasses}.
Variable json_loads : text -> option json.
Variable json_dumps : json -> text.
Variable path : Type.
Implicit Types (m : machine path) (p : path).

(** A file that can be read but is not an object with both keys: [main]
    prints one line to the standard error and returns 1; it has sent no
    request and written nothing. *)
Theorem main_refuses_bad_file m p (output_dir : option path) (content : text) :
  path_exists m p = true ->
  open_read m p = Ok content ->
  (forall data, load_json json_loads m p <> Ok data) ->
  exists e,
    load_json json_loads m p = Raise e
    /\ main json_loads json_dumps m (Some p) output_dir
       = ([Stderr (py "Error: " ++ exn_str m e)], Returned 1).
Proof.
  intros He Ho Hn.
  destruct (load_json json_loads m p) as [data|e] eqn:L;
    [exfalso; exact (Hn data eq_refl)|].
  exists e. split; [reflexivity|].
  pose proof (load_json_value_error json_loads path m p content e Ho L) as V.
  unfold main. rewrite He. cbn [negb]. rewrite L.
  unfold of_io, lift, bind, requests, outcome. cbn [fst snd map].
  rewrite V. reflexivity.
Qed.

Lemma getitem_log (v : json) key : effects (@getitem path v key) = [].
Proof.
  unfold getitem. destruct v; try reflexivity.
  destruct (find _ _); reflexivity.
Qed.

Lemma sent_writes_nothing (l : list request) :
  Forall (fun e : effect path => writes_files e = false) (map Sent l).
Proof. induction l; constructor; auto. Qed.

(** Without an output directory the report prints only. *)
Lemma report_prints m result :
  Forall (fun e => writes_files e = false) (effects (report m None result)).
Proof.
  unfold report.
  destruct (getitem result (py "marketing_summary")) as [l1 [summary|x]] eqn:G1;
    pose proof (getitem_log result (py "marketing_summary")) as E1;
    rewrite G1 in E1; simpl in E1; subst l1; [|constructor].
  cbn [andthen].
  destruct (getitem result (py "image_prompt")) as [l2 [prompt|x]] eqn:G2;
    pose proof (getitem_log result (py "image_prompt")) as E2;
    rewrite G2 in E2; simpl in E2; subst l2; [|constructor].
  simpl. repeat constructor.
Qed.

(** Without [-o], [main] creates no directory and writes no file, however
    it ends. *)
Theorem main_without_output_dir m (json_file : option path) :
  Forall (fun e => writes_files e = false)
         (effects (main json_loads json_dumps m json_file None)).
Proof.
  unfold main.
  assert (K : forall p,
    Forall (fun e => writes_files e = false)
      (effects
         (if negb (path_exists m p)
          then ([Stderr (py "Error: file not found: " ++ path_str m p)],
                Returned 1)
          else
            match of_io (data <- lift (load_json json_loads m p) ;;
                         EnrichFromJson.generate_summary_and_prompt
                           json_loads json_dumps (gemini m) data) with
            | (log, Raised (Exn e)) =>
                if is_value_error e
                then (log ++ [Stderr (py "Error: " ++ exn_str m e)], Returned 1)
                else (log, Raised (Exn e))
            | (log, Raised x) => (log, Raised x)
            | (log, Returned result) =>
                let (log', r) := report m None result in (log ++ log', r)
            end))).
  { intros p. destruct (negb (path_exists m p)); [repeat constructor|].
    unfold of_io. set (r := bind _ _).
    pose proof (sent_writes_nothing (requests r)) as S.
    destruct (outcome r) as [result|e].
    - pose proof (report_prints m result) as R.
      destruct (report m None result) as [log' r']. simpl in *.
      apply Forall_app. auto.
    - destruct (is_value_error e); simpl; [|exact S].
      apply Forall_app. split; [exact S|repeat constructor]. }
  destruct json_file as [p|]; [apply K|].
  destruct (file_picker m) as [|e|answer]; try (repeat constructor).
  destruct (is_empty answer); [repeat constructor|apply K].
Qed.

End EnrichMainRuns.

Section EnrichMainReport.
Import EnrichMain.
Context {U : UnicodeClasses}.
Variable json_loads : text -> option json.
Variable json_dumps : json -> text.
Variable path : Type.
Implicit Types (m : machine path) (p : path).

(** The run of [main] once it has a path of an existing file. *)
Lemma main_with_path m p (output_dir : option path) :
  path_exists m p = true ->
  main json_loads json_dumps m (Some p) output_dir
  = match of_io (data <- lift (load_json json_loads m p) ;;
                 EnrichFromJson.generate_summary_and_prompt
                   json_loads json_dumps (gemini m) data) with
    | (log, Raised (Exn e)) =>
        if is_value_error e
        then (log ++ [Stderr (py "Error: " ++ exn_str m e)], Returned 1)
        else (log, Raised (Exn e))
    | (log, Raised x) => (log, Raised x)
    | (log, Returned result) =>
        let (log', r) := report m output_dir result in (log ++ log', r)
    end.
Proof. intros H. unfold main. rewrite H. reflexivity. Qed.

(** Where [main] returns 0 it went through the report: it had a path, the
    file was loaded, and the contract returned after one request. *)
Lemma main_returned_0 m (json_file output_dir : option path) :
  ending (main json_loads json_dumps m json_file output_dir) = Returned 0 ->
  exists p data rq result,
    (json_file = Some p
     \/ exists answer, json_file = None /\ file_picker m = Selected answer
                       /\ p = Path m answer)
    /\ load_json json_loads m p = Ok data
    /\ EnrichFromJson.generate_summary_and_prompt
         json_loads json_dumps (gemini m) data = ([rq], Ok result)
    /\ EnrichFromJson.lacks_a_key result = Ok false
    /\ ending (report m output_dir result) = Returned 0
    /\ effects (main json_loads json_dumps m json_file output_dir)
       = Sent rq :: effects (report m output_dir result).
Proof.
  assert (K : forall p,
    ending (let r :=
      if negb (path_exists m p)
      then ([Stderr (py "Error: file not found: " ++ path_str m p)],
            Returned 1)
      else
        match of_io (data <- lift (load_json json_loads m p) ;;
                     EnrichFromJson.generate_summary_and_prompt
                       json_loads json_dumps (gemini m) data) with
        | (log, Raised (Exn e)) =>
            if is_value_error e
            then (log ++ [Stderr (py "Error: " ++ exn_str m e)], Returned 1)
            else (log, Raised (Exn e))
        | (log, Raised x) => (log, Raised x)
        | (log, Returned result) =>
            let (log', r) := report m output_dir result in (log ++ log', r)
        end in r) = Returned 0 ->
    exists data rq result,
      load_json json_loads m p = Ok data
      /\ EnrichFromJson.generate_summary_and_prompt
           json_loads json_dumps (gemini m) data = ([rq], Ok result)
      /\ EnrichFromJson.lacks_a_key result = Ok false
      /\ ending (report m output_dir result) = Returned 0
      /\ effects
           (if negb (path_exists m p)
            then ([Stderr (py "Error: file not found: " ++ path_str m p)],
                  Returned 1)
            else
              match of_io (data <- lift (load_json json_loads m p) ;;
                           EnrichFromJson.generate_summary_and_prompt
                             json_loads json_dumps (gemini m) data) with
              | (log, Raised (Exn e)) =>
                  if is_value_error e
                  then (log ++ [Stderr (py "Error: " ++ exn_str m e)],
                        Returned 1)
                  else (log, Raised (Exn e))
              | (log, Raised x) => (log, Raised x)
              | (log, Returned result) =>
                  let (log', r) := report m output_dir result in
                  (log ++ log', r)
              end)
         = Sent rq :: effects (report m output_dir result)).
  { intros p. cbv zeta.
    destruct (negb (path_exists m p)); [discriminate|].
    destruct (load_json json_loads m p) as [data|e] eqn:L.
    - unfold of_io, lift, bind, requests, outcome. cbn [fst snd app].
      destruct (EnrichFromJson.generate_summary_and_prompt
                  json_loads json_dumps (gemini m) data) as [log r] eqn:G.
      cbn [fst snd]. destruct r as [result|e].
      + destruct (enrich_returns json_loads json_dumps (gemini m) data result)
          as [[rq R] Lk]; [rewrite G; reflexivity|].
        rewrite G in R. unfold requests in R. simpl in R. subst log.
        destruct (report m output_dir result) as [log' r'] eqn:Rp.
        simpl. intros E. exists data, rq, result. rewrite Rp. subst r'. auto.
      + destruct (is_value_error e); discriminate.
    - unfold of_io, lift, bind, requests, outcome. cbn [fst snd map].
      destruct (is_value_error e); discriminate. }
  unfold main.
  destruct json_file as [p|].
  - intros H. destruct (K p H) as (data & rq & result & R).
    exists p, data, rq, result. split; [now left|exact R].
  - destruct (file_picker m) as [|e|answer] eqn:Fp; try discriminate.
    destruct (is_empty answer); [discriminate|].
    intros H. destruct (K (Path m answer) H) as (data & rq & result & R).
    exists (Path m answer), data, rq, result.
    split; [right; exists answer; auto|exact R].
Qed.

(** With [-o dir], where [main] returns 0: the file at the path it was
    given (or that the picker answered) was loaded, the contract returned
    [result] after one request, [result["marketing_summary"]] and
    [result["image_prompt"]] are strings, and [main] has printed these two
    strings, created the directory and written the very same strings to
    [summary.txt] and [image_prompt.txt]. *)
Theorem main_saves_what_it_prints m (json_file : option path) (dir : path) :
  ending (main json_loads json_dumps m json_file (Some dir)) = Returned 0 ->
  exists p data rq result summary image_prompt,
    (json_file = Some p
     \/ exists answer, json_file = None /\ file_picker m = Selected answer
                       /\ p = Path m answer)
    /\ load_json json_loads m p = Ok data
    /\ EnrichFromJson.generate_summary_and_prompt
         json_loads json_dumps (gemini m) data = ([rq], Ok result)
    /\ @getitem path result (py "marketing_summary")
       = done (JString summary)
    /\ @getitem path result (py "image_prompt")
       = done (JString image_prompt)
    /\ effects (main json_loads json_dumps m json_file (Some dir))
       = [Sent rq;
          Stdout (py "--- Marketing summary ---"); Stdout summary;
          Stdout (py "\n--- Image prompt ---"); Stdout image_prompt;
          Mkdir dir;
          WriteText (joinpath m dir (py "summary.txt")) summary;
          WriteText (joinpath m dir (py "image_prompt.txt")) image_prompt;
          Stdout (py "\nSaved to "
                  ++ path_str m (joinpath m dir (py "summary.txt"))
                  ++ py " and "
                  ++ path_str m (joinpath m dir (py "image_prompt.txt")))].
Proof.
  intros H. destruct (main_returned_0 m json_file (Some dir) H)
    as (p & data & rq & result & Hp & L & G & Lk & R & ->).
  exists p, data, rq, result. revert R. unfold report.
  destruct result as [| | | |xs|members];
    try (simpl; discriminate).
  destruct (lacks_none_object members Lk) as [H1 H2].
  destruct (getitem_object path members _ H1) as (summary & G1).
  destruct (getitem_object path members _ H2) as (prompt & G2).
  rewrite G1, G2.
  unfold done, andthen, emit, print, make_dir. cbn [app].
  destruct (mkdir m dir); [discriminate|].
  unfold write_text.
  destruct summary as [| | |s1| |]; try discriminate.
  destruct (write m (joinpath m dir (py "summary.txt")) s1); [discriminate|].
  destruct prompt as [| | |s2| |]; try discriminate.
  destruct (write m (joinpath m dir (py "image_prompt.txt")) s2);
    [discriminate|].
  intros _. exists s1, s2. repeat split; auto.
Qed.

End EnrichMainReport.

Section EnrichMainCrash.
Import EnrichMain.
Context {U : UnicodeClasses}.
Variable json_loads : text -> option json.
Variable json_dumps : json -> text.
Variable path : Type.
Implicit Types (m : machine path) (p : path).

(** The contract can return a value that is no object (a list or a string
    in which [in] finds both key names): [main] then ends with a
    [TypeError] that it does not catch, after the request, having printed
    nothing. *)
Theorem main_on_non_object_result m p (output_dir : option path)
        (data result : json) :
  path_exists m p = true ->
  load_json json_loads m p = Ok data ->
  outcome (EnrichFromJson.generate_summary_and_prompt
             json_loads json_dumps (gemini m) data) = Ok result ->
  is_object result = false ->
  exists rq msg,
    main json_loads json_dumps m (Some p) output_dir
    = ([Sent rq], Raised (Exn (TypeError msg))).
Proof.
  intros He L O N. rewrite (main_with_path _ _ _ _ _ _ He), L.
  destruct (enrich_returns json_loads json_dumps (gemini m) data result O)
    as [[rq R] _].
  unfold of_io, lift, bind, requests, outcome in *. cbn [fst snd app].
  destruct (EnrichFromJson.generate_summary_and_prompt
              json_loads json_dumps (gemini m) data) as [log r].
  simpl in O, R. subst log r. cbn [fst snd map].
  destruct (getitem_non_object path result (py "marketing_summary") N)
    as (msg & G).
  exists rq, msg. unfold report. rewrite G. reflexivity.
Qed.

End EnrichMainCrash.

Lemma main_refuses_bad_file_witness :
  exists e,
    EnrichMain.load_json PyJson.loads
      (scripted_machine (scripted_world None None NO_IMAGE) (Ok (py "[1, 2]")))
      (py "menu.json") = Raise e
    /\ EnrichMain.main PyJson.loads PyJson.dumps
         (scripted_machine (scripted_world None None NO_IMAGE)
            (Ok (py "[1, 2]")))
         (Some (py "menu.json")) None
       = ([EnrichMain.Stderr (py "Error: " ++ py "(message)")], Returned 1).
Proof.
  apply (main_refuses_bad_file PyJson.loads PyJson.dumps text
           (scripted_machine (scripted_world None None NO_IMAGE)
              (Ok (py "[1, 2]")))
           (py "menu.json") None (py "[1, 2]") eq_refl eq_refl).
  intros data. vm_compute. discriminate.
Defined.

Lemma main_saves_what_it_prints_witness :
  let m :=
    scripted_machine
      (scripted_world (Some (py "k"))
         (Some (py "{\x22marketing_summary\x22: \x22s\x22, \x22image_prompt\x22: \x22p\x22}"))
         NO_IMAGE)
      (Ok EMPTY_RECORD_TEXT) in
  exists p data rq result summary image_prompt,
    (Some (py "menu.json") = Some p
     \/ exists answer,
          Some (py "menu.json") = None
          /\ EnrichMain.file_picker m = EnrichMain.Selected answer
          /\ p = EnrichMain.Path m answer)
    /\ EnrichMain.load_json PyJson.loads m p = Ok data
    /\ EnrichFromJson.generate_summary_and_prompt
         PyJson.loads PyJson.dumps (EnrichMain.gemini m) data
       = ([rq], Ok result)
    /\ @EnrichMain.getitem text result (py "marketing_summary")
       = done (JString summary)
    /\ @EnrichMain.getitem text result (py "image_prompt")
       = done (JString image_prompt)
    /\ effects (EnrichMain.main PyJson.loads PyJson.dumps m
                  (Some (py "menu.json")) (Some (py "out")))
       = [EnrichMain.Sent rq;
          EnrichMain.Stdout (py "--- Marketing summary ---");
          EnrichMain.Stdout summary;
          EnrichMain.Stdout (py "\n--- Image prompt ---");
          EnrichMain.Stdout image_prompt;
          EnrichMain.Mkdir (py "out");
          EnrichMain.WriteText
            (EnrichMain.joinpath m (py "out") (py "summary.txt")) summary;
          EnrichMain.WriteText
            (EnrichMain.joinpath m (py "out") (py "image_prompt.txt"))
            image_prompt;
          EnrichMain.Stdout
            (py "\nSaved to "
             ++ EnrichMain.path_str m
                  (EnrichMain.joinpath m (py "out") (py "summary.txt"))
             ++ py " and "
             ++ EnrichMain.path_str m
                  (EnrichMain.joinpath m (py "out") (py "image_prompt.txt")))].
Proof.
  exact (main_saves_what_it_prints PyJson.loads PyJson.dumps text
           (scripted_machine
              (scripted_world (Some (py "k"))
                 (Some (py "{\x22marketing_summary\x22: \x22s\x22, \x22image_prompt\x22: \x22p\x22}"))
                 NO_IMAGE)
              (Ok EMPTY_RECORD_TEXT))
           (Some (py "menu.json")) (py "out") eq_refl).
Defined.

Lemma main_on_non_object_result_witness :
  exists rq msg,
    EnrichMain.main PyJson.loads PyJson.dumps
      (scripted_machine
         (scripted_world (Some (py "k"))
            (Some (py "[\x22marketing_summary\x22, \x22image_prompt\x22]"))
            NO_IMAGE)
         (Ok EMPTY_RECORD_TEXT))
      (Some (py "menu.json")) None
    = ([EnrichMain.Sent rq], Raised (EnrichMain.Exn (TypeError msg))).
Proof.
  exact (main_on_non_object_result PyJson.loads PyJson.dumps text
           (scripted_machine
              (scripted_world (Some (py "k"))
                 (Some (py "[\x22marketing_summary\x22, \x22image_prompt\x22]"))
                 NO_IMAGE)
              (Ok EMPTY_RECORD_TEXT))
           (py "menu.json") None
           (JObject [(py "menu_items", JArray []); (py "event", JObject [])])
           (JArray [JString (py "marketing_summary"); JString (py "image_prompt")])
           eq_refl eq_refl eq_refl eq_refl).
Defined.

(** ** The PDF extractor *)

Section PdfFacts.
Import PdfExtractor.
Variable path : Type.
Implicit Types (s : system path) (p : path).

(** [extract_text] hands a file to the converter exactly when the resolved
    path exists, is a file, and has the suffix [.pdf] in some letter case;
    the converter gets the resolved path and the two flags. *)
Theorem extract_text_converts_pdf_files s (pdf_path : path)
        (output_path : option path) (page_separators show_progress : bool)
        (file : text) (a b : bool) :
  In (ToMarkdown file a b)
     (effects (extract_text s pdf_path output_path page_separators
                            show_progress))
  <-> (path_exists s (resolve s pdf_path) = true
       /\ is_file s (resolve s pdf_path) = true
       /\ str_lower (suffix s (resolve s pdf_path)) = py ".pdf")
      /\ file = path_str s (resolve s pdf_path)
      /\ a = page_separators /\ b = show_progress.
Proof.
  unfold extract_text. cbv zeta.
  destruct (path_exists s (resolve s pdf_path));
    [|simpl; split; [intros []|intros [[H _] _]; discriminate]].
  destruct (is_file s (resolve s pdf_path));
    [|simpl; split; [intros []|intros [[_ [H _]] _]; discriminate]].
  destruct (text_eqb _ _) eqn:E.
  - apply text_eqb_eq in E. cbn [negb].
    unfold andthen, effects.
    destruct (to_markdown s _ _ _) as [text|e].
    + destruct output_path as [o|]; simpl.
      * destruct (write s (resolve s o) text); simpl;
          (split; [intros [H|[H|[]]]; [injection H as <- <- <-; auto|
                                       discriminate]|
                   intros (_ & -> & -> & ->); auto]).
      * split; [intros [H|[]]; injection H as <- <- <-; auto|
                intros (_ & -> & -> & ->); auto].
    + simpl. split; [intros [H|[]]; injection H as <- <- <-; auto|
                     intros (_ & -> & -> & ->); auto].
  - simpl. split; [intros []|]. intros [(_ & _ & H) _].
    apply text_eqb_eq in H. congruence.
Qed.

(** What [extract_text] returns is the converter's text; with an output
    path that very text has been written to the resolved output path, and
    without one nothing has been written. *)
Lemma extract_text_returns s (pdf_path : path) (output_path : option path)
        (page_separators show_progress : bool) (text : text) :
  ending (extract_text s pdf_path output_path page_separators show_progress)
    = Returned text ->
  to_markdown s (path_str s (resolve s pdf_path)) page_separators
              show_progress = Returned text
  /\ effects (extract_text s pdf_path output_path page_separators
                           show_progress)
     = ToMarkdown (path_str s (resolve s pdf_path)) page_separators
                  show_progress
       :: match output_path with
          | Some o => [WriteText (resolve s o) text]
          | None => []
          end.
Proof.
  unfold extract_text. cbv zeta.
  destruct (path_exists s (resolve s pdf_path)); [|discriminate].
  destruct (is_file s (resolve s pdf_path)); [|discriminate].
  destruct (text_eqb _ _); [|discriminate]. cbn [negb].
  unfold andthen, effects, ending, done.
  destruct (to_markdown s _ _ _) as [t|e]; [|discriminate].
  destruct output_path as [o|]; simpl.
  - destruct (write s (resolve s o) t); simpl; [discriminate|].
    intros H. injection H as ->. auto.
  - intros H. injection H as ->. auto.
Qed.

(** Where [main] returns 0 it has converted the file and then either
    printed (no [-o]) or written ([-o]), never both, the very text the
    converter returned for the resolved input path. *)
Theorem pdf_main_prints_or_writes s (input_pdf : path) (output : option path)
        (page_separators progress : bool) :
  ending (main s input_pdf output page_separators progress) = Returned 0 ->
  exists text,
    to_markdown s (path_str s (resolve s input_pdf)) page_separators progress
    = Returned text
    /\ effects (main s input_pdf output page_separators progress)
       = [ToMarkdown (path_str s (resolve s input_pdf)) page_separators
                     progress;
          match output with
          | Some o => WriteText (resolve s o) text
          | None => Stdout text
          end].
Proof.
  unfold main.
  destruct (extract_text s input_pdf output page_separators progress)
    as [log r] eqn:X.
  destruct r as [text|e].
  - destruct (extract_text_returns s input_pdf output page_separators progress
                text) as [M E]; [rewrite X; reflexivity|].
    rewrite X in E. simpl in E. subst log. exists text.
    split; [exact M|]. destruct output; reflexivity.
  - destruct (caught e); discriminate.
Qed.

(** [main] returns 1 exactly for the two exceptions it catches, wherever
    they come from: its own checks, the converter or the write. *)
Lemma pdf_main_returns_1 s (input_pdf : path) (output : option path)
      (page_separators progress : bool) :
  ending (main s input_pdf output page_separators progress) = Returned 1
  <-> exists e msg,
        ending (extract_text s input_pdf output page_separators progress)
          = Raised e
        /\ caught e = Some msg.
Proof.
  unfold main.
  destruct (extract_text s input_pdf output page_separators progress)
    as [log r].
  destruct r as [text|e]; simpl.
  - destruct output; split; try discriminate; intros (e & msg & H & _);
      discriminate.
  - destruct (caught e) as [msg|] eqn:C; simpl.
    + split; [eauto|reflexivity].
    + split; [discriminate|]. intros (e' & msg & H & C').
      injection H as <-. congruence.
Qed.

End PdfFacts.

Lemma pdf_main_prints_or_writes_witness :
  let s := scripted_system [py "/tmp/Menu.PDF"] (py "# Menu") in
  exists text,
    PdfExtractor.to_markdown s
      (PdfExtractor.path_str s (PdfExtractor.resolve s (py "/tmp/Menu.PDF")))
      false false
    = Returned text
    /\ effects (PdfExtractor.main s (py "/tmp/Menu.PDF") None false false)
       = [PdfExtractor.ToMarkdown
            (PdfExtractor.path_str s
               (PdfExtractor.resolve s (py "/tmp/Menu.PDF")))
            false false;
          PdfExtractor.Stdout text].
Proof.
  exact (pdf_main_prints_or_writes text
           (scripted_system [py "/tmp/Menu.PDF"] (py "# Menu"))
           (py "/tmp/Menu.PDF") None false false eq_refl).
Defined.

(** ** The heading styles of the first window *)

Section Headings.
Import UiJsonGeneration.

Lemma count_hashes_split t :
  exists rest, t = repeat HASH (count_hashes t) ++ rest
               /\ stops (fun c => c =? HASH) rest.
Proof.
  induction t as [|c t (rest & E & S)]; cbn [count_hashes].
  - exists []. split; [reflexivity|exact I].
  - destruct (c =? HASH) eqn:C.
    + apply N.eqb_eq in C. subst c. exists rest. cbn [repeat Datatypes.app].
      split; [f_equal; exact E|exact S].
    + exists (c :: t). split; [reflexivity|exact C].
Qed.

Lemma count_hashes_repeat k rest :
  stops (fun c => c =? HASH) rest ->
  count_hashes (repeat HASH k ++ rest) = k.
Proof.
  intros S. induction k as [|k IH]; cbn [repeat Datatypes.app count_hashes].
  - destruct rest as [|c rest]; [reflexivity|]. cbn [stops] in S.
    cbn [count_hashes]. rewrite S. reflexivity.
  - rewrite N.eqb_refl. f_equal. exact IH.
Qed.

Lemma nth_repeat_app k (rest : text) :
  nth k (repeat HASH k ++ rest) 0 = nth 0 rest 0.
Proof. induction k; simpl; auto. Qed.

(** The level a line gets: the number of its hashes, when they are one to
    six, stand right after the leading blanks and are followed by a
    space. *)
Lemma heading_level_spec line level :
  heading_level line = Some level
  <-> (1 <= level <= 6)%nat /\ heading_line level line.
Proof.
  unfold heading_level, heading_line. cbv zeta. split.
  - destruct (lstrip_by_split is_space line) as (w & E & F & _).
    set (stripped := lstrip_by is_space line) in *.
    destruct (startswith stripped HASH); [|discriminate]. cbn [negb].
    destruct (count_hashes_split stripped) as (rest & Es & _).
    set (k := count_hashes stripped) in *.
    destruct ((1 <=? k)%nat && (k <=? 6)%nat && (k <? length stripped)%nat
              && (nth k stripped 0 =? SPACE)) eqn:C; [|discriminate].
    intros H. injection H as <-.
    repeat rewrite andb_true_iff in C. destruct C as [[[C1 C2] C3] C4].
    apply Nat.leb_le in C1, C2. apply Nat.ltb_lt in C3. apply N.eqb_eq in C4.
    split; [lia|]. rewrite Es in C3, C4.
    rewrite nth_repeat_app in C4.
    rewrite length_app, repeat_length in C3.
    destruct rest as [|c rest]; [simpl in C3; lia|]. simpl in C4. subst c.
    exists w, rest. split; [|exact F]. rewrite <- Es. exact E.
  - intros [[L1 L2] (w & rest & -> & F)].
    rewrite lstrip_by_app, F.
    assert (E : lstrip_by is_space (repeat HASH level ++ SPACE :: rest)
                = repeat HASH level ++ SPACE :: rest).
    { destruct level as [|k]; [lia|]. reflexivity. }
    rewrite E.
    assert (St : startswith (repeat HASH level ++ SPACE :: rest) HASH = true).
    { destruct level as [|k]; [lia|]. reflexivity. }
    rewrite St. cbn [negb].
    rewrite count_hashes_repeat by reflexivity.
    rewrite nth_repeat_app. cbn [nth].
    rewrite length_app, repeat_length. cbn [length].
    replace (1 <=? level)%nat with true by (symmetry; apply Nat.leb_le; lia).
    replace (level <=? 6)%nat with true by (symmetry; apply Nat.leb_le; lia).
    replace (level <? level + S (length rest))%nat with true
      by (symmetry; apply Nat.ltb_lt; lia).
    reflexivity.
Qed.

Lemma tag_lines_spec lines : forall i0 level i,
  In (TagAdd level i) (tag_lines i0 lines)
  <-> (i0 <= i)%nat
      /\ exists line, nth_error lines (i - i0) = Some line
                      /\ heading_level line = Some level.
Proof.
  induction lines as [|l ls IH]; intros i0 level i; simpl.
  - split; [intros []|]. intros (_ & line & H & _).
    destruct (i - i0)%nat; discriminate.
  - rewrite in_app_iff, IH. split.
    + intros [H|(Hi & line & N & L)].
      * destruct (heading_level l) as [k|] eqn:Hl; [|destruct H].
        destruct H as [H|[]]. injection H as -> ->.
        split; [lia|]. exists l. rewrite Nat.sub_diag. auto.
      * split; [lia|]. exists line.
        replace (i - i0)%nat with (S (i - S i0)) by lia. auto.
    + intros (Hi & line & N & L).
      destruct (i - i0)%nat as [|n] eqn:D.
      * left. simpl in N. injection N as ->. rewrite L.
        replace i with i0 by lia. now left.
      * right. split; [lia|]. exists line.
        replace (i - S i0)%nat with n by lia. auto.
Qed.

Lemma tags_added (base_family : text) (base_size : Z) (content : text)
      (level i : nat) :
  In (TagAdd level i) (_apply_heading_styles base_family base_size content)
  <-> (1 <= level <= 6)%nat /\ (1 <= i)%nat
      /\ exists line, nth_error (split NL content) (i - 1) = Some line
                      /\ heading_line level line.
Proof.
  unfold _apply_heading_styles. rewrite in_app_iff, tag_lines_spec. split.
  - intros [H|(Hi & line & N & L)].
    + apply in_map_iff in H. destruct H as (k & H & _). discriminate.
    + apply heading_level_spec in L. destruct L as [L1 L2].
      split; [exact L1|]. split; [exact Hi|]. exists line. auto.
  - intros (L1 & Hi & line & N & L2). right. split; [exact Hi|].
    exists line. split; [exact N|]. apply heading_level_spec. auto.
Qed.

(** The tags [_apply_heading_styles] adds: line [i] of the content (from 1)
    is tagged [h<level>] exactly when [level] is 1 to 6 and the line is,
    after any leading whitespace, [level] hashes, a space and the rest. *)
Theorem heading_tags (base_family : text) (base_size : Z) (content : text)
        (level i : nat) :
  In (TagAdd level i) (_apply_heading_styles base_family base_size content)
  <-> (1 <= level <= 6)%nat /\ (1 <= i)%nat
      /\ exists line, nth_error (split NL content) (i - 1) = Some line
                      /\ heading_line level line.
Proof. apply tags_added. Qed.

(** The newline the widget ends with adds an empty line, which is no
    heading. *)
Lemma split_not_nil sep t : split sep t <> [].
Proof.
  destruct t as [|c t]; simpl; [discriminate|].
  destruct (c =? sep); [discriminate|].
  destruct (split sep t); discriminate.
Qed.

Lemma split_snoc_newline t : split NL (t ++ [NL]) = split NL t ++ [[]].
Proof.
  induction t as [|c t IH]; [reflexivity|]. cbn [Datatypes.app split].
  rewrite IH. destruct (c =? NL); [reflexivity|].
  pose proof (split_not_nil NL t) as N.
  destruct (split NL t) as [|l ls]; [contradiction|reflexivity].
Qed.

Lemma empty_line_no_heading level : ~ heading_line level [].
Proof.
  intros (w & rest & E & _). symmetry in E.
  apply app_eq_nil in E. destruct E as [_ E].
  apply app_eq_nil in E. destruct E as [_ E]. discriminate.
Qed.

Lemma tags_of_widget (base_family : text) (base_size : Z) (text : text)
      (level i : nat) :
  In (TagAdd level i)
     (_apply_heading_styles base_family base_size (widget_get text))
  <-> (1 <= level <= 6)%nat /\ (1 <= i)%nat
      /\ exists line, nth_error (split NL text) (i - 1) = Some line
                      /\ heading_line level line.
Proof.
  rewrite tags_added. unfold widget_get. rewrite split_snoc_newline.
  split; intros (L & Hi & line & N & H); (split; [exact L|]);
    (split; [exact Hi|]); exists line; (split; [|exact H]).
  - destruct (Nat.lt_ge_cases (i - 1) (length (split NL text))) as [Lt|Ge].
    + rewrite nth_error_app1 in N by exact Lt. exact N.
    + rewrite nth_error_app2 in N by exact Ge. exfalso.
      destruct (i - 1 - length (split NL text))%nat as [|n]; simpl in N.
      * injection N as <-. exact (empty_line_no_heading level H).
      * destruct n; discriminate.
  - rewrite nth_error_app1; [exact N|].
    apply nth_error_Some. congruence.
Qed.

End Headings.

(** ** The contracts: what they send and what they give back *)

Section ContractFacts.
Context {U : UnicodeClasses}.
Variable json_loads : text -> option json.
Variable json_dumps : json -> text.

(** What [_strip_json_block] returns (either copy) has no whitespace at its
    ends: stripping it again changes nothing. *)
Theorem strip_json_block_trimmed (raw : text) :
  strip (ReceiveJson._strip_json_block raw) = ReceiveJson._strip_json_block raw
  /\ strip (EnrichFromJson._strip_json_block raw)
     = EnrichFromJson._strip_json_block raw.
Proof.
  unfold ReceiveJson._strip_json_block, EnrichFromJson._strip_json_block.
  cbv zeta. split.
  - destruct (re_search false ReceiveJson.FENCE (strip raw));
      apply strip_by_idem.
  - destruct (re_search false EnrichFromJson.FENCE (strip raw));
      apply strip_by_idem.
Qed.

Lemma key_set (w : world) raw_key :
  GEMINI_API_KEY w = Some raw_key -> whitespace_only raw_key = false ->
  ReceiveJson._get_api_key w = Ok (strip raw_key)
  /\ EnrichFromJson._get_api_key w = Ok (strip raw_key)
  /\ ImageGeneration._get_api_key w = Ok (strip raw_key).
Proof.
  intros K B. unfold ReceiveJson._get_api_key, EnrichFromJson._get_api_key,
    ImageGeneration._get_api_key. rewrite K, blank_test, B. auto.
Qed.

(** With the key set, each contract submits exactly one request, whatever
    the generator answers: with the key trimmed, its model, and as contents
    the prompt followed by the text as given (the record as [json.dumps]
    writes it; the image prompt trimmed).  A blank image prompt submits
    none. *)
Theorem contracts_send_one_request (w : world) (raw_key cleaned_text : text)
        (json_data : json) (prompt : text) :
  GEMINI_API_KEY w = Some raw_key -> whitespace_only raw_key = false ->
  requests (ReceiveJson.extract_structured_data json_loads w cleaned_text)
    = [Request (strip raw_key) ReceiveJson.MODEL_ID
               (ReceiveJson.STRUCTURED_PROMPT ++ cleaned_text)
               "response_mime_type: application/json"]
  /\ requests (EnrichFromJson.generate_summary_and_prompt
                 json_loads json_dumps w json_data)
     = [Request (strip raw_key) EnrichFromJson.MODEL_ID
                (EnrichFromJson.ENRICH_PROMPT ++ json_dumps json_data)
                "response_mime_type: application/json"]
  /\ requests (ImageGeneration.generate_image w prompt)
     = if whitespace_only prompt then []
       else [Request (strip raw_key) ImageGeneration.MODEL_ID (strip prompt)
                     "response_modalities: IMAGE"].
Proof.
  intros K B. destruct (key_set w raw_key K B) as (K1 & K2 & K3).
  repeat split.
  - unfold ReceiveJson.extract_structured_data. rewrite K1.
    unfold lift, bind, submit, requests. cbn [fst snd app].
    destruct (text_generator w _) as [[[|c t]|]|code]; try reflexivity.
    unfold raise, ret. destruct (json_loads _); reflexivity.
  - unfold EnrichFromJson.generate_summary_and_prompt. rewrite K2.
    unfold lift, bind, submit, requests. cbn [fst snd app].
    destruct (text_generator w _) as [[[|c t]|]|code]; try reflexivity.
    unfold raise, ret. destruct (json_loads _) as [out|]; [|reflexivity].
    destruct (EnrichFromJson.lacks_a_key out) as [[|]|e]; reflexivity.
  - unfold ImageGeneration.generate_image. rewrite blank_test.
    destruct (whitespace_only prompt); [reflexivity|]. rewrite K3.
    unfold lift, bind, submit, requests. cbn [fst snd app].
    destruct (image_generator w _) as [r|code]; [|reflexivity].
    destruct (candidates r) as [[|c cs]|]; try reflexivity.
    destruct (content c) as [ct|]; [|reflexivity].
    destruct (parts ct); reflexivity.
Qed.

End ContractFacts.

Section ImageData.
Import ImageGeneration.

(** The loop over the parts stops at the first part with data that is
    there and not empty. *)
Lemma first_inline_data_spec (ps : list part) (raw : bytes) :
  first_inline_data ps = Some raw
  <-> raw <> []
      /\ exists before p after b,
           ps = before ++ p :: after
           /\ inline_data p = Some b /\ data b = Some raw
           /\ Forall no_inline_data before.
Proof.
  induction ps as [|q ps IH]; simpl.
  - split; [discriminate|]. intros (_ & before & p & after & b & E & _).
    destruct before; discriminate.
  - assert (Skip : no_inline_data q ->
              (first_inline_data ps = Some raw
               <-> raw <> []
                   /\ exists before p after b,
                        q :: ps = before ++ p :: after
                        /\ inline_data p = Some b /\ data b = Some raw
                        /\ Forall no_inline_data before)).
    { intros Hq. rewrite IH. split.
      - intros (N & before & p & after & b & -> & I & D & F). split; [exact N|].
        exists (q :: before), p, after, b. repeat split; auto.
      - intros (N & before & p & after & b & E & I & D & F). split; [exact N|].
        destruct before as [|q' before].
        + simpl in E. injection E as <- ->. exfalso.
          destruct Hq as [Hq|(b' & Hq & [Hd|Hd])]; congruence.
        + simpl in E. injection E as <- ->. inversion F; subst.
          exists before, p, after, b. auto. }
    destruct (inline_data q) as [bq|] eqn:Iq;
      [|apply Skip; left; exact Iq].
    destruct (data bq) as [[|x raw']|] eqn:Dq;
      [apply Skip; right; exists bq; auto| |apply Skip; right; exists bq; auto].
    split.
    + intros E. injection E as <-. split; [discriminate|].
      exists [], q, ps, bq. repeat split; auto.
    + intros (N & before & p & after & b & E & I & D & F).
      destruct before as [|q' before].
      * simpl in E. injection E as <- ->. congruence.
      * simpl in E. injection E as <- ->. inversion F as [|? ? Hq]; subst.
        exfalso. destruct Hq as [Hq|(b' & Hq & [Hd|Hd])]; congruence.
Qed.

(** What [generate_image] returns as the image is the data of the first
    part of the first candidate that carries data that is not empty; the
    other candidates are not looked at. *)
Theorem generate_image_first_data (w : world) (prompt key : text)
        (response : image_response) (raw : bytes) :
  whitespace_only prompt = false ->
  _get_api_key w = Ok key ->
  image_generator w (Request key MODEL_ID (strip prompt)
                             "response_modalities: IMAGE")
    = Answer response ->
  (outcome (generate_image w prompt) = Ok (Some raw)
   <-> raw <> []
       /\ exists c cs ct before p after b,
            candidates response = Some (c :: cs)
            /\ content c = Some ct
            /\ parts ct = Some (before ++ p :: after)
            /\ inline_data p = Some b /\ data b = Some raw
            /\ Forall no_inline_data before).
Proof.
  intros B K G. unfold generate_image. rewrite blank_test, B, K.
  unfold lift, bind, submit, outcome. rewrite G. cbn [fst snd].
  destruct (candidates response) as [[|c cs]|] eqn:C; unfold ret; simpl.
  - split; [discriminate|].
    intros (_ & c & cs & ? & ? & ? & ? & ? & E & _). discriminate.
  - destruct (content c) as [ct|] eqn:Ct; simpl.
    + destruct (parts ct) as [ps|] eqn:Ps; simpl.
      * split.
        -- intros E. injection E as E. apply first_inline_data_spec in E.
           destruct E as (N & before & p & after & b & -> & E).
           split; [exact N|]. exists c, cs, ct, before, p, after, b. tauto.
        -- intros (N & c' & cs' & ct' & before & p & after & b & E & E1 & E2 & R).
           injection E as <- <-. rewrite Ct in E1. injection E1 as <-.
           rewrite Ps in E2. injection E2 as ->. f_equal.
           apply first_inline_data_spec. split; [exact N|].
           exists before, p, after, b. tauto.
      * split; [discriminate|].
        intros (_ & c' & cs' & ct' & ? & ? & ? & ? & E & E1 & E2 & _).
        injection E as <- <-. rewrite Ct in E1. injection E1 as <-.
        rewrite Ps in E2. discriminate.
    + split; [discriminate|].
      intros (_ & c' & cs' & ct' & ? & ? & ? & ? & E & E1 & _).
      injection E as <- <-. rewrite Ct in E1. discriminate.
  - split; [discriminate|].
    intros (_ & c & cs & ? & ? & ? & ? & ? & E & _). discriminate.
Qed.

End ImageData.

Lemma contracts_send_one_request_witness :
  let w := scripted_world (Some (py " k\n")) None NO_IMAGE in
  requests (ReceiveJson.extract_structured_data PyJson.loads w (py "Paloma"))
    = [Request (py "k") ReceiveJson.MODEL_ID
               (ReceiveJson.STRUCTURED_PROMPT ++ py "Paloma")
               "response_mime_type: application/json"]
  /\ requests (EnrichFromJson.generate_summary_and_prompt
                 PyJson.loads PyJson.dumps w EMPTY_RECORD)
     = [Request (py "k") EnrichFromJson.MODEL_ID
                (EnrichFromJson.ENRICH_PROMPT ++ PyJson.dumps EMPTY_RECORD)
                "response_mime_type: application/json"]
  /\ requests (ImageGeneration.generate_image w (py " a poster "))
     = [Request (py "k") ImageGeneration.MODEL_ID (py "a poster")
                "response_modalities: IMAGE"].
Proof.
  exact (contracts_send_one_request PyJson.loads PyJson.dumps
           (scripted_world (Some (py " k\n")) None NO_IMAGE)
           (py " k\n") (py "Paloma") EMPTY_RECORD (py " a poster ")
           eq_refl eq_refl).
Defined.

Lemma generate_image_first_data_witness :
  let response :=
    ImageResponse
      (Some [Candidate
               (Some (Content
                  (Some [Part None; Part (Some (Blob (Some [])));
                         Part (Some (Blob (Some [Byte.x89; Byte.x50])));
                         Part (Some (Blob (Some [Byte.x01])))])));
             Candidate None]) in
  outcome (ImageGeneration.generate_image
             (scripted_world (Some (py "k")) None response) (py "a poster"))
    = Ok (Some [Byte.x89; Byte.x50])
  <-> [Byte.x89; Byte.x50] <> []
      /\ exists c cs ct before p after b,
           candidates response = Some (c :: cs)
           /\ content c = Some ct
           /\ parts ct = Some (before ++ p :: after)
           /\ inline_data p = Some b /\ data b = Some [Byte.x89; Byte.x50]
           /\ Forall no_inline_data before.
Proof.
  exact (generate_image_first_data
           (scripted_world (Some (py "k")) None
              (ImageResponse
                 (Some [Candidate
                          (Some (Content
                             (Some [Part None; Part (Some (Blob (Some [])));
                                    Part (Some (Blob (Some [Byte.x89; Byte.x50])));
                                    Part (Some (Blob (Some [Byte.x01])))])));
                        Candidate None])))
           (py "a poster") (py "k") _ [Byte.x89; Byte.x50]
           eq_refl eq_refl eq_refl).
Defined.

(** ** More on what the normalizer returns *)

Section OutcomeLines.
Context {U : UnicodeClasses}.

(** No line of what [normalize_for_llm] returns ends in whitespace:
    right-stripping the lines again changes none. *)
Theorem normalize_lines_rstripped (raw : text) :
  map rstrip (split NL (normalize_for_llm raw))
  = split NL (normalize_for_llm raw).
Proof.
  apply rstrip_trimmed_lines.
  destruct raw as [|c raw]; [reflexivity|].
  rewrite normalize_nonempty by discriminate.
  rewrite normalize_whitespace_eq.
  apply trimmed_strip_newlines, trimmed_collapse, trimmed_join.
  apply Forall_map.
  assert (H : Forall (fun l => ~ In NL l)
                (merge_lines (split NL (repaired (c :: raw)))))
    by apply merge_lines_no_newline, split_no_sep.
  revert H. apply Forall_impl. intros l. apply rstrip_neat.
Qed.

(** *** The words through steps 4 and 5 *)

Lemma words_lines ls : words (normalize_whitespace ls) = concat (map words ls).
Proof.
  rewrite normalize_whitespace_eq, words_strip_newlines.
  unfold words at 1. rewrite words_collapse.
  fold (words (join [NL] (map rstrip ls))).
  rewrite words_join, map_map. apply f_equal. apply map_ext.
  intros l. apply words_rstrip.
Qed.

Lemma words_strip t : words (strip t) = words t.
Proof.
  unfold strip.
  destruct (strip_by_split is_space t) as (w1 & w2 & E & F1 & F2 & _).
  rewrite E at 2. rewrite words_head by (apply blank_nonword, F1).
  unfold words. rewrite words_tail by (apply blank_nonword, F2). reflexivity.
Qed.

Lemma words_merge_step merged line :
  concat (map words (merge_step merged line))
  = concat (map words merged) ++ words line.
Proof.
  unfold merge_step. cbv zeta. destruct (_ && _ && _) eqn:C.
  - apply andb_true_iff in C. destruct C as [_ C].
    apply negb_true_iff, Nat.eqb_neq in C.
    assert (Hm : merged <> []) by (destruct merged; [contradiction|discriminate]).
    destruct (exists_last Hm) as (done & prev & ->).
    rewrite removelast_last, last_last.
    rewrite !map_app, !concat_app. simpl. rewrite !app_nil_r.
    rewrite <- app_assoc. f_equal.
    unfold words at 1. rewrite words_sep by (apply space_not_word; reflexivity).
    f_equal. apply words_strip.
  - rewrite map_app, concat_app. simpl. rewrite app_nil_r. reflexivity.
Qed.

Lemma words_merge_lines lines :
  concat (map words (merge_lines lines)) = concat (map words lines).
Proof.
  induction lines as [|l ls IH] using rev_ind; [reflexivity|].
  rewrite merge_lines_snoc, words_merge_step, IH.
  rewrite map_app, concat_app. simpl. rewrite app_nil_r. reflexivity.
Qed.

(** In what [normalize_for_llm] returns every word that reads [eur] in
    some letter case is spelled [EUR]. *)
Theorem normalize_spells_the_code (raw : text) :
  Forall upper_ok (words (normalize_for_llm raw)).
Proof.
  destruct raw as [|c raw]; [constructor|].
  rewrite normalize_nonempty by discriminate.
  rewrite words_lines, words_merge_lines, <- words_join, join_split.
  unfold repaired, normalize_currency, re_sub. cbv zeta.
  apply amount_euro_words. apply eur_token_words. left. reflexivity.
Qed.

(** *** Text without markers *)







End OutcomeLines.


(** ** The first window: text, then JSON *)

Section WidgetText.

Lemma strip_by_snoc p x c : p c = true -> strip_by p (x ++ [c]) = strip_by p x.
Proof.
  intros Hc. unfold strip_by. rewrite lstrip_by_app.
  destruct (forallb p x) eqn:F.
  - simpl. rewrite Hc. apply lstrip_by_nil in F. rewrite F. reflexivity.
  - unfold rstrip_by. rewrite rev_app_distr. simpl. rewrite Hc. reflexivity.
Qed.

(** The newline a text widget ends with is stripped away again. *)
Lemma strip_widget_get content : strip (widget_get content) = strip content.
Proof. apply strip_by_snoc. reflexivity. Qed.

End WidgetText.

Section FirstWindow.
Import UiJsonGeneration.
Context {U : UnicodeClasses}.
Variable json_loads : text -> option json.
Variable json_dumps : json -> text.
Variable path : Type.
Implicit Types (d : desk path) (a : app).

Lemma extract_requests (w : world) (text : text) :
  requests (ReceiveJson.extract_structured_data json_loads w text) = []
  \/ exists key,
       ReceiveJson._get_api_key w = Ok key
       /\ requests (ReceiveJson.extract_structured_data json_loads w text)
          = [Request key ReceiveJson.MODEL_ID
                     (ReceiveJson.STRUCTURED_PROMPT ++ text)
                     "response_mime_type: application/json"].
Proof.
  unfold ReceiveJson.extract_structured_data.
  destruct (ReceiveJson._get_api_key w) as [key|e]; [|left; reflexivity].
  right. exists key. split; [reflexivity|].
  unfold lift, bind, submit, requests. cbn [fst snd Datatypes.app].
  destruct (text_generator w _) as [[[|c t]|]|code]; try reflexivity.
  unfold raise, ret. destruct (json_loads _); reflexivity.
Qed.

(** What [do_get_json] sends is the content of the result area, trimmed,
    behind the prompt; a blank area sends nothing. *)
Theorem do_get_json_sends_the_area d a :
  Forall (fun e => match e with
                   | Sent rq =>
                       whitespace_only (result_text a) = false
                       /\ req_contents rq
                          = ReceiveJson.STRUCTURED_PROMPT
                            ++ strip (result_text a)
                   | _ => True
                   end)
         (do_get_json json_loads json_dumps d a).
Proof.
  unfold do_get_json. cbv zeta. rewrite strip_widget_get.
  destruct (is_empty (strip (result_text a))) eqn:B;
    [repeat constructor|].
  assert (W : whitespace_only (result_text a) = false).
  { destruct (whitespace_only (result_text a)) eqn:W; [|reflexivity].
    apply strip_by_nil in W. unfold strip in B. rewrite W in B.
    discriminate. }
  destruct (extract_requests (gemini d) (strip (result_text a)))
    as [R|(key & _ & R)];
    destruct (ReceiveJson.extract_structured_data json_loads (gemini d)
                (strip (result_text a))) as [log r];
    unfold requests in R; simpl in R; subst log;
    destruct r; simpl; repeat constructor; auto.
Qed.

(** After an extraction that failed the result area holds the placeholder,
    and [do_get_json] then sends the placeholder as the document. *)
Theorem placeholder_sent_as_document d a (e : PdfExtractor.error)
        (key : text) :
  whitespace_only (selected_path a) = false ->
  ending (PdfExtractor.extract_text (files d)
            (Path d (strip (selected_path a))) None false false)
    = Raised e ->
  ReceiveJson._get_api_key (gemini d) = Ok key ->
  result_text (state_of (do_extract d a)) = EXTRACTING
  /\ exists rest,
       do_get_json json_loads json_dumps d (state_of (do_extract d a))
       = Sent (Request key ReceiveJson.MODEL_ID
                       (ReceiveJson.STRUCTURED_PROMPT ++ EXTRACTING)
                       "response_mime_type: application/json")
         :: rest.
Proof.
  intros W X K.
  assert (S : result_text (state_of (do_extract d a)) = EXTRACTING).
  { unfold do_extract. cbv zeta.
    destruct (is_empty (strip (selected_path a))) eqn:B.
    - destruct (strip (selected_path a)) eqn:E; [|discriminate].
      apply strip_by_nil in E. unfold whitespace_only in W. congruence.
    - destruct (PdfExtractor.extract_text _ _ _ _ _) as [log r].
      simpl in X. subst r. destruct (PdfExtractor.caught e); reflexivity. }
  split; [exact S|].
  unfold do_get_json. cbv zeta. rewrite strip_widget_get, S.
  change (strip EXTRACTING) with EXTRACTING.
  change (is_empty EXTRACTING) with false. cbv iota.
  destruct (extract_requests (gemini d) EXTRACTING) as [R|(key' & K' & R)].
  - exfalso. revert R. unfold ReceiveJson.extract_structured_data.
    rewrite K. unfold lift, bind, submit, requests. simpl.
    destruct (text_generator _ _) as [[[|c t]|]|code]; try discriminate.
    unfold raise, ret. destruct (json_loads _); discriminate.
  - assert (key' = key) by congruence. subst key'.
    destruct (ReceiveJson.extract_structured_data json_loads (gemini d)
                EXTRACTING) as [log r].
    unfold requests in R. simpl in R. subst log.
    destruct r; simpl; eauto.
Qed.

(** Where the converter gives a text, [do_extract] leaves the normalized
    text in the result area, and the lines it styles as headings are the
    heading lines of that normalized text. *)
Theorem do_extract_shows_normalized_text d a (text : text) :
  whitespace_only (selected_path a) = false ->
  ending (PdfExtractor.extract_text (files d)
            (Path d (strip (selected_path a))) None false false)
    = Returned text ->
  exists file calls,
    do_extract d a
    = ([Update; Pdf (PdfExtractor.ToMarkdown file false false); Styled calls],
       App (selected_path a) (normalize_for_llm text), None)
    /\ forall level i,
         In (TagAdd level i) calls
         <-> (1 <= level <= 6)%nat /\ (1 <= i)%nat
             /\ exists line,
                  nth_error (split NL (normalize_for_llm text)) (i - 1)
                    = Some line
                  /\ heading_line level line.
Proof.
  intros W X.
  destruct (extract_text_returns path (files d) _ None false false text X)
    as [_ E].
  unfold do_extract. cbv zeta.
  destruct (is_empty (strip (selected_path a))) eqn:B.
  { destruct (strip (selected_path a)) eqn:E'; [|discriminate].
    apply strip_by_nil in E'. unfold whitespace_only in W. congruence. }
  destruct (PdfExtractor.extract_text _ _ _ _ _) as [log r].
  simpl in X, E. subst r log.
  eexists. eexists. split; [reflexivity|].
  intros level i. apply tags_of_widget.
Qed.

End FirstWindow.

Lemma do_extract_shows_normalized_text_witness :
  let d := scripted_desk (scripted_system [py "menu.pdf"]
                            (py "# Menu\n\nBeer 7\u20AC<br>##Tea"))
                         (scripted_world None None NO_IMAGE) in
  let a := UiJsonGeneration.App (py " menu.pdf ") [] in
  exists file calls,
    UiJsonGeneration.do_extract d a
    = ([UiJsonGeneration.Update;
        UiJsonGeneration.Pdf (PdfExtractor.ToMarkdown file false false);
        UiJsonGeneration.Styled calls],
       UiJsonGeneration.App (py " menu.pdf ")
         (normalize_for_llm (py "# Menu\n\nBeer 7\u20AC<br>##Tea")), None)
    /\ forall level i,
         In (UiJsonGeneration.TagAdd level i) calls
         <-> (1 <= level <= 6)%nat /\ (1 <= i)%nat
             /\ exists line,
                  nth_error
                    (split NL (normalize_for_llm
                                 (py "# Menu\n\nBeer 7\u20AC<br>##Tea")))
                    (i - 1) = Some line
                  /\ heading_line level line.
Proof.
  exact (do_extract_shows_normalized_text text
           (scripted_desk (scripted_system [py "menu.pdf"]
                             (py "# Menu\n\nBeer 7\u20AC<br>##Tea"))
                          (scripted_world None None NO_IMAGE))
           (UiJsonGeneration.App (py " menu.pdf ") [])
           (py "# Menu\n\nBeer 7\u20AC<br>##Tea") eq_refl eq_refl).
Defined.

Lemma placeholder_sent_as_document_witness :
  let d := scripted_desk (scripted_system [] (py "# Menu"))
                         (scripted_world (Some (py "k")) None NO_IMAGE) in
  let a := UiJsonGeneration.App (py "missing.pdf") [] in
  UiJsonGeneration.result_text (state_of (UiJsonGeneration.do_extract d a))
    = UiJsonGeneration.EXTRACTING
  /\ exists rest,
       UiJsonGeneration.do_get_json PyJson.loads PyJson.dumps d
         (state_of (UiJsonGeneration.do_extract d a))
       = UiJsonGeneration.Sent
           (Request (py "k") ReceiveJson.MODEL_ID
                    (ReceiveJson.STRUCTURED_PROMPT
                     ++ UiJsonGeneration.EXTRACTING)
                    "response_mime_type: application/json")
         :: rest.
Proof.
  exact (placeholder_sent_as_document PyJson.loads PyJson.dumps text
           (scripted_desk (scripted_system [] (py "# Menu"))
                          (scripted_world (Some (py "k")) None NO_IMAGE))
           (UiJsonGeneration.App (py "missing.pdf") [])
           (PdfExtractor.FileNotFoundError
              (py "PDF file not found: " ++ py "missing.pdf"))
           (py "k") eq_refl eq_refl eq_refl).
Defined.

(** ** The second window: summary and image prompt *)

Section SecondWindow.
Import UiEnrich.
Context {U : UnicodeClasses}.
Variable json_loads : text -> option json.
Variable json_dumps : json -> text.
Variable path : Type.
Implicit Types (d : desk path) (a : app).

(** [do_save] writes no empty file: what it writes to [summary.txt] and
    [image_prompt.txt] of the chosen directory is the trimmed content of
    the area, and only when that is not empty. *)
Theorem do_save_writes_no_empty_file d (answer : text) a :
  Forall (fun e =>
            match e with
            | WriteText file data =>
                data <> []
                /\ ((file = EnrichMain.joinpath (machine d)
                              (EnrichMain.Path (machine d) answer)
                              (py "summary.txt")
                     /\ data = strip (summary_text a))
                    \/ (file = EnrichMain.joinpath (machine d)
                                 (EnrichMain.Path (machine d) answer)
                                 (py "image_prompt.txt")
                        /\ data = strip (prompt_text a)))
            | _ => True
            end)
         (fst (do_save d answer a)).
Proof.
  unfold do_save. cbv zeta. rewrite !strip_widget_get.
  destruct (is_empty (strip (summary_text a))
            && is_empty (strip (prompt_text a))); [repeat constructor|].
  destruct (is_empty answer); [repeat constructor|].
  unfold write_text.
  destruct (strip (summary_text a)) as [|c1 s1] eqn:E1;
    destruct (strip (prompt_text a)) as [|c2 s2] eqn:E2; cbn [is_empty];
    repeat match goal with
           | |- context [EnrichMain.write ?m ?f ?x] =>
               destruct (EnrichMain.write m f x)
           end;
    cbn [fst Datatypes.app];
    repeat (constructor; try (split; [discriminate|]); auto).
Qed.

(** After a generation that failed in [load_json] or in the contract the
    summary area holds the placeholder; [do_save] then writes the
    placeholder to [summary.txt] and reports the files as saved. *)
Theorem placeholder_saved_as_summary d a (answer : text) (e : exn) :
  let m := machine d in
  let file := EnrichMain.Path m (strip (selected_path a)) in
  let summary_txt :=
    EnrichMain.joinpath m (EnrichMain.Path m answer) (py "summary.txt") in
  whitespace_only (selected_path a) = false ->
  EnrichMain.path_exists m file = true ->
  outcome (data <- lift (EnrichMain.load_json json_loads m file) ;;
           EnrichFromJson.generate_summary_and_prompt
             json_loads json_dumps (EnrichMain.gemini m) data) = Raise e ->
  answer <> [] ->
  EnrichMain.write m summary_txt GENERATING = None ->
  summary_text (snd (do_generate json_loads json_dumps d a)) = GENERATING
  /\ prompt_text (snd (do_generate json_loads json_dumps d a)) = []
  /\ do_save d answer (snd (do_generate json_loads json_dumps d a))
     = ([AskDirectory; WriteText summary_txt GENERATING;
         Box (ShowInfo (py "Saved")
                (py "Saved to "
                 ++ EnrichMain.path_str m (EnrichMain.Path m answer)))],
        None).
Proof.
  intros m file summary_txt W He O Na Hw.
  assert (S : snd (do_generate json_loads json_dumps d a)
              = App (selected_path a) GENERATING []).
  { unfold do_generate. cbv zeta.
    destruct (is_empty (strip (selected_path a))) eqn:B.
    { destruct (strip (selected_path a)) eqn:E'; [|discriminate].
      apply strip_by_nil in E'. unfold whitespace_only in W. congruence. }
    fold m. fold file. rewrite He. cbn [negb].
    destruct (bind _ _) as [log r]. simpl in O. subst r. reflexivity. }
  rewrite S. cbn [summary_text prompt_text]. repeat split.
  unfold do_save. cbv zeta. cbn [summary_text prompt_text].
  rewrite !strip_widget_get.
  change (strip GENERATING) with GENERATING.
  change (strip []) with (@nil char).
  change (is_empty GENERATING) with false. cbn [is_empty andb].
  destruct answer as [|c answer]; [contradiction|]. cbn [is_empty].
  unfold write_text. fold m. fold summary_txt. rewrite Hw. reflexivity.
Qed.

(** Where the contract returns an object, [do_generate] sends its one
    request and puts into the two areas the values stored under the two
    keys, with no box; but a value that is [null] cannot be inserted: the
    area it was meant for stays empty, what follows is not done, and the
    box reports the [TclError]. *)
Theorem do_generate_shows_the_result d a (members : list (text * json)) :
  let m := machine d in
  let file := EnrichMain.Path m (strip (selected_path a)) in
  let box w := Box (ShowError (py "Error") (tcl_error_str d w)) in
  whitespace_only (selected_path a) = false ->
  EnrichMain.path_exists m file = true ->
  outcome (data <- lift (EnrichMain.load_json json_loads m file) ;;
           EnrichFromJson.generate_summary_and_prompt
             json_loads json_dumps (EnrichMain.gemini m) data)
    = Ok (JObject members) ->
  exists rq summary image_prompt,
    index path (JObject members) (py "marketing_summary") = Returned summary
    /\ index path (JObject members) (py "image_prompt")
       = Returned image_prompt
    /\ do_generate json_loads json_dumps d a
       = match summary, image_prompt with
         | JNull, _ =>
             ([Update; Sent rq; box SummaryArea],
              App (selected_path a) [] [])
         | _, JNull =>
             ([Update; Sent rq; box PromptArea],
              App (selected_path a) (widget_text d summary) [])
         | _, _ =>
             ([Update; Sent rq],
              App (selected_path a) (widget_text d summary)
                  (widget_text d image_prompt))
         end.
Proof.
  intros m file box W He O.
  assert (G : exists rq,
            bind (lift (EnrichMain.load_json json_loads m file))
                 (fun data => EnrichFromJson.generate_summary_and_prompt
                                json_loads json_dumps (EnrichMain.gemini m) data)
            = ([rq], Ok (JObject members))
            /\ EnrichFromJson.lacks_a_key (JObject members) = Ok false).
  { revert O. unfold lift, bind, outcome.
    destruct (EnrichMain.load_json json_loads m file) as [data|e0];
      [|discriminate]. cbn [fst snd Datatypes.app].
    destruct (EnrichFromJson.generate_summary_and_prompt
                json_loads json_dumps (EnrichMain.gemini m) data)
      as [log r] eqn:G. cbn [snd]. intros ->.
    destruct (enrich_returns json_loads json_dumps (EnrichMain.gemini m) data
                (JObject members)) as [[rq R] L]; [rewrite G; reflexivity|].
    rewrite G in R. unfold requests in R. simpl in R. subst log.
    exists rq. auto. }
  destruct G as (rq & G & L).
  destruct (lacks_none_object members L) as [H1 H2].
  destruct (find_member _ _ H1) as ([k1 summary] & F1).
  destruct (find_member _ _ H2) as ([k2 image_prompt] & F2).
  exists rq, summary, image_prompt.
  assert (I1 : index path (JObject members) (py "marketing_summary")
               = Returned summary)
    by (unfold index, EnrichMain.getitem; rewrite F1; reflexivity).
  assert (I2 : index path (JObject members) (py "image_prompt")
               = Returned image_prompt)
    by (unfold index, EnrichMain.getitem; rewrite F2; reflexivity).
  split; [exact I1|]. split; [exact I2|].
  unfold do_generate. cbv zeta.
  destruct (is_empty (strip (selected_path a))) eqn:B.
  { destruct (strip (selected_path a)) eqn:E'; [|discriminate].
    apply strip_by_nil in E'. unfold whitespace_only in W. congruence. }
  fold m. fold file. rewrite He. cbn [negb]. rewrite G, I1, I2.
  destruct summary, image_prompt; reflexivity.
Qed.

End SecondWindow.

Lemma placeholder_saved_as_summary_witness :
  let d := scripted_enrich_desk (scripted_world (Some (py "k")) None NO_IMAGE)
                                (Ok (py "[1, 2]")) in
  let a := UiEnrich.App (py "menu.json") [] [] in
  UiEnrich.summary_text (snd (UiEnrich.do_generate PyJson.loads PyJson.dumps d a))
    = UiEnrich.GENERATING
  /\ UiEnrich.prompt_text (snd (UiEnrich.do_generate PyJson.loads PyJson.dumps d a))
     = []
  /\ UiEnrich.do_save d (py "out")
       (snd (UiEnrich.do_generate PyJson.loads PyJson.dumps d a))
     = ([UiEnrich.AskDirectory;
         UiEnrich.WriteText (py "out/summary.txt") UiEnrich.GENERATING;
         UiEnrich.Box (ShowInfo (py "Saved") (py "Saved to out"))],
        None).
Proof.
  apply (placeholder_saved_as_summary PyJson.loads PyJson.dumps text
           (scripted_enrich_desk (scripted_world (Some (py "k")) None NO_IMAGE)
                                 (Ok (py "[1, 2]")))
           (UiEnrich.App (py "menu.json") [] []) (py "out")
           EnrichMain.ROOT_NOT_OBJECT eq_refl eq_refl eq_refl);
    [discriminate|reflexivity].
Defined.

Lemma do_generate_shows_the_result_witness :
  let d :=
    scripted_enrich_desk
      (scripted_world (Some (py "k"))
         (Some (py "{\x22marketing_summary\x22: \x22s\x22, \x22image_prompt\x22: null}"))
         NO_IMAGE)
      (Ok EMPTY_RECORD_TEXT) in
  let a := UiEnrich.App (py "menu.json") [] [] in
  let members := [(py "marketing_summary", JString (py "s"));
                  (py "image_prompt", JNull)] in
  exists rq summary image_prompt,
    UiEnrich.index text (JObject members) (py "marketing_summary")
    = Returned summary
    /\ UiEnrich.index text (JObject members) (py "image_prompt")
       = Returned image_prompt
    /\ UiEnrich.do_generate PyJson.loads PyJson.dumps d a
       = match summary, image_prompt with
         | JNull, _ =>
             ([UiEnrich.Update; UiEnrich.Sent rq;
               UiEnrich.Box
                 (ShowError (py "Error")
                    (UiEnrich.tcl_error_str d UiEnrich.SummaryArea))],
              UiEnrich.App (py "menu.json") [] [])
         | _, JNull =>
             ([UiEnrich.Update; UiEnrich.Sent rq;
               UiEnrich.Box
                 (ShowError (py "Error")
                    (UiEnrich.tcl_error_str d UiEnrich.PromptArea))],
              UiEnrich.App (py "menu.json") (UiEnrich.widget_text d summary)
                           [])
         | _, _ =>
             ([UiEnrich.Update; UiEnrich.Sent rq],
              UiEnrich.App (py "menu.json") (UiEnrich.widget_text d summary)
                           (UiEnrich.widget_text d image_prompt))
         end.
Proof.
  exact (do_generate_shows_the_result PyJson.loads PyJson.dumps text
           (scripted_enrich_desk
              (scripted_world (Some (py "k"))
                 (Some (py "{\x22marketing_summary\x22: \x22s\x22, \x22image_prompt\x22: null}"))
                 NO_IMAGE)
              (Ok EMPTY_RECORD_TEXT))
           (UiEnrich.App (py "menu.json") [] [])
           [(py "marketing_summary", JString (py "s"));
            (py "image_prompt", JNull)]
           eq_refl eq_refl eq_refl).
Defined.

(** ** The third window: the image *)

Section ThirdWindow.
Import UiImageGeneration.
Variable photo : Type.
Implicit Types (d : desk photo) (a : app photo).

Lemma strip_not_blank (x : text) :
  whitespace_only x = false -> whitespace_only (strip x) = false.
Proof.
  unfold whitespace_only, strip. intros W.
  destruct (strip_by_split is_space x) as (w1 & w2 & _ & _ & _ & S & _).
  destruct (strip_by is_space x) as [|c t] eqn:E.
  - apply strip_by_nil in E. congruence.
  - simpl in S. simpl. rewrite S. reflexivity.
Qed.

Lemma strip_not_empty (x : text) :
  whitespace_only x = false -> is_empty (strip x) = false.
Proof.
  intros W. destruct (strip x) eqn:E; [|reflexivity].
  apply strip_by_nil in E. unfold whitespace_only in W. congruence.
Qed.

(** The window never makes [generate_image] raise its prompt error.  A
    blank prompt area ends in the warning, and the contract is not called.
    Any other content goes to the contract trimmed: the requests
    [do_generate] sends are those of [generate_image] on the trimmed
    content, followed by boxes only; that call does not end in the prompt
    error; and the exception it does raise is the one the error box
    reports. *)
Theorem window_prompt_is_never_blank d (content : text) a :
  let run := ImageGeneration.generate_image (gemini d) (strip content) in
  (whitespace_only content = true
   /\ do_generate d content a
      = ([Box (ShowWarning (py "Empty prompt")
                                 (py "Please enter a text prompt."))], a))
  \/ (whitespace_only content = false
      /\ outcome run <> Raise ImageGeneration.PROMPT_EMPTY
      /\ (exists shown,
            fst (do_generate d content a)
            = Update :: map Sent (requests run) ++ map Box shown)
      /\ forall e,
           outcome run = Raise e ->
           do_generate d content a
           = (Update :: map Sent (requests run)
                ++ [Box (ShowError (if is_value_error e then py "Error"
                                    else error_title (exn_str d e))
                                   (exn_str d e))],
              App (current_photo a) (current_image_bytes a) None
                  PLACEHOLDER)).
Proof.
  intros run. subst run.
  destruct (whitespace_only content) eqn:W; [left|right]; split; auto.
  - unfold do_generate. cbv zeta. rewrite strip_widget_get.
    unfold whitespace_only in W. apply strip_by_nil in W.
    unfold strip. rewrite W. reflexivity.
  - pose proof (image_past_guard (gemini d) (strip content)
                  (strip_not_blank content W)) as P.
    split; [exact P|].
    unfold do_generate. cbv zeta. rewrite strip_widget_get.
    rewrite (strip_not_empty content W).
    destruct (ImageGeneration.generate_image (gemini d) (strip content))
      as [log r].
    unfold outcome, requests. cbn [fst snd]. split.
    + destruct r as [[[|x raw]|]|e]; cbn [fst].
      * exists [ShowInfo (py "No image")
                  (py "The model did not return an image (e.g. safety filter).")].
        reflexivity.
      * destruct (display d (x :: raw)) as [shown|msg]; cbn [fst].
        -- exists []. cbn [map]. rewrite app_nil_r. reflexivity.
        -- exists [ShowError (py "Error")
                     (py "Could not display image: " ++ msg)].
           reflexivity.
      * exists [ShowInfo (py "No image")
                  (py "The model did not return an image (e.g. safety filter).")].
        reflexivity.
      * exists [ShowError (if is_value_error e then py "Error"
                           else error_title (exn_str d e)) (exn_str d e)].
        reflexivity.
    + intros e ->. reflexivity.
Qed.

(** What the contract gives back is never an empty image. *)
Lemma first_inline_data_not_empty (ps : list part) :
  ImageGeneration.first_inline_data ps <> Some [].
Proof.
  induction ps as [|p ps IH]; simpl; [discriminate|].
  destruct (inline_data p) as [b|]; [|exact IH].
  destruct (data b) as [[|x raw]|]; [exact IH|discriminate|exact IH].
Qed.

(** What [do_save] writes after a [do_generate]: the new image, where the
    contract returned one and it could be displayed; the image the window
    held before, where the contract raised; nothing in the other cases (no
    image returned, or an image that could not be displayed). *)
Theorem save_after_generate d (content answer : text) a (file : text)
        (data : bytes) :
  whitespace_only content = false ->
  let generated :=
    outcome (ImageGeneration.generate_image (gemini d) (strip content)) in
  In (WriteBytes file data)
     (fst (do_save d answer (snd (do_generate d content a))))
  <-> file = answer /\ answer <> [] /\ data <> []
      /\ ((exists e, generated = Raise e
                     /\ current_image_bytes a = Some data)
          \/ (generated = Ok (Some data)
              /\ exists shown, display d data = Returned shown)).
Proof.
  intros W generated. subst generated.
  unfold do_generate. cbv zeta. rewrite strip_widget_get.
  rewrite (strip_not_empty content W).
  destruct (ImageGeneration.generate_image (gemini d) (strip content))
    as [log r] eqn:G.
  unfold outcome. cbn [snd].
  assert (Saves : forall (st : app photo) (raw : bytes),
            current_image_bytes st = Some raw -> raw <> [] ->
            (In (WriteBytes file data) (fst (do_save d answer st))
             <-> file = answer /\ answer <> [] /\ data = raw)).
  { intros st raw C N. unfold do_save. rewrite C.
    destruct raw as [|x raw]; [contradiction|].
    destruct answer as [|c answer]; cbn [is_empty].
    - simpl. split; [intros [H|[]]; discriminate|intros (_ & H & _); contradiction].
    - destruct (write_bytes d (c :: answer) (x :: raw)); simpl; split;
        try (intros [H|[H|[]]]; try discriminate;
             injection H as <- <-; repeat split; discriminate);
        try (intros [H|[H|[H|[]]]]; try discriminate;
             injection H as <- <-; repeat split; discriminate);
        intros (-> & _ & ->); auto. }
  assert (Nothing : forall (st : app photo),
            current_image_bytes st = None ->
            ~ In (WriteBytes file data) (fst (do_save d answer st))).
  { intros st C. unfold do_save. rewrite C. simpl. intros [H|[]]. discriminate. }
  destruct r as [[[|x raw]|]|e].
  - cbn [snd]. split; [intros H; exfalso; revert H; apply Nothing; reflexivity|].
    intros (_ & _ & N & [(e & H & _)|(H & _)]); [discriminate|].
    injection H as <-. contradiction.
  - destruct (display d (x :: raw)) as [shown|msg] eqn:D; cbn [snd].
    + rewrite (Saves (App (Some shown) (Some (x :: raw)) (Some shown) [])
                     (x :: raw) eq_refl) by discriminate. split.
      * intros (-> & Na & ->). repeat split; auto; [discriminate|]. right. eauto.
      * intros (-> & Na & _ & [(e & H & _)|(H & _)]); [discriminate|].
        injection H as <-. auto.
    + split; [intros H; exfalso; revert H; apply Nothing; reflexivity|].
      intros (_ & _ & _ & [(e & H & _)|(H & shown & D')]); [discriminate|].
      injection H as <-. congruence.
  - cbn [snd]. split; [intros H; exfalso; revert H; apply Nothing; reflexivity|].
    intros (_ & _ & _ & [(e & H & _)|(H & _)]); discriminate.
  - cbn [snd current_image_bytes].
    destruct (current_image_bytes a) as [[|y old]|] eqn:C.
    + split.
      * unfold do_save. cbn [current_image_bytes]. simpl.
        intros [H|[]]. discriminate.
      * intros (_ & _ & N & [(e' & _ & H)|(H & _)]); [|discriminate].
        injection H as <-. contradiction.
    + rewrite (Saves (App (current_photo a) (Some (y :: old)) None PLACEHOLDER)
                     (y :: old) eq_refl) by discriminate. split.
      * intros (-> & Na & ->). repeat split; auto; [discriminate|]. left. eauto.
      * intros (-> & Na & _ & [(e' & _ & H)|(H & _)]); [|discriminate].
        injection H as <-. auto.
    + split; [intros H; exfalso; revert H; apply Nothing; reflexivity|].
      intros (_ & _ & _ & [(e' & _ & H)|(H & _)]); discriminate.
Qed.

End ThirdWindow.

Lemma save_after_generate_witness :
  let d := scripted_image_desk
             (World (Some (py "k")) (fun _ => Answer None)
                    (fun _ => Failure 429)) in
  let a := UiImageGeneration.App (Some 2%nat) (Some [Byte.x89; Byte.x50])
                                 (Some 2%nat) [] in
  In (UiImageGeneration.WriteBytes (py "old.png") [Byte.x89; Byte.x50])
     (fst (UiImageGeneration.do_save d (py "old.png")
             (snd (UiImageGeneration.do_generate d (py "a poster") a))))
  <-> py "old.png" = py "old.png" /\ py "old.png" <> []
      /\ [Byte.x89; Byte.x50] <> []
      /\ ((exists e,
             outcome (ImageGeneration.generate_image
                        (UiImageGeneration.gemini d) (strip (py "a poster")))
               = Raise e
             /\ UiImageGeneration.current_image_bytes a
                = Some [Byte.x89; Byte.x50])
          \/ (outcome (ImageGeneration.generate_image
                         (UiImageGeneration.gemini d) (strip (py "a poster")))
                = Ok (Some [Byte.x89; Byte.x50])
              /\ exists shown,
                   UiImageGeneration.display d [Byte.x89; Byte.x50]
                   = Returned shown)).
Proof.
  exact (save_after_generate nat
           (scripted_image_desk
              (World (Some (py "k")) (fun _ => Answer None)
                     (fun _ => Failure 429)))
           (py "a poster") (py "old.png")
           (UiImageGeneration.App (Some 2%nat) (Some [Byte.x89; Byte.x50])
                                  (Some 2%nat) [])
           (py "old.png") [Byte.x89; Byte.x50] eq_refl).
Defined.

(** ** The enrichment contract on a response that is no object *)

Section EnrichNonObject.
Context {U : UnicodeClasses}.
Variable json_loads : text -> option json.
Variable json_dumps : json -> text.

Lemma in_list key xs :
  existsb (fun x => match x with
                    | JString s => text_eqb s key
                    | _ => false
                    end) xs = true
  <-> In (JString key) xs.
Proof.
  rewrite existsb_exists. split.
  - intros (x & Hin & E). destruct x; try discriminate.
    apply text_eqb_eq in E. subst. exact Hin.
  - intros H. exists (JString key). split; [exact H|]. now apply text_eqb_eq.
Qed.

Lemma py_in_named key v b :
  is_object v = false -> py_in key v = Ok b -> (b = true <-> named_in key v).
Proof.
  destruct v as [| | |s|xs|members]; simpl; try discriminate; intros _ E;
    injection E as <-.
  - reflexivity.
  - apply in_list.
Qed.

(** A response that parses to a value that is no object: a scalar ends the
    contract in a [TypeError] (of [in]), not in its own [ValueError]; a
    list or a string is returned when [in] finds both key names in it, as
    elements or as substrings, and ends in the missing-keys error
    otherwise. *)
Theorem enrich_on_non_object_response (w : world) (json_data : json)
        (key t : text) (v : json) :
  EnrichFromJson._get_api_key w = Ok key ->
  text_generator w (Request key EnrichFromJson.MODEL_ID
                            (EnrichFromJson.ENRICH_PROMPT ++ json_dumps json_data)
                            "response_mime_type: application/json")
    = Answer (Some t) ->
  t <> [] ->
  json_loads (EnrichFromJson._strip_json_block t) = Some v ->
  is_object v = false ->
  let ended := outcome (EnrichFromJson.generate_summary_and_prompt
                          json_loads json_dumps w json_data) in
  (scalar v = true -> ended = Raise (TypeError "argument is not iterable"))
  /\ (scalar v = false ->
      (ended = Ok v
       <-> named_in (py "marketing_summary") v
           /\ named_in (py "image_prompt") v)
      /\ (ended <> Ok v -> ended = Raise EnrichFromJson.MISSING_KEYS)).
Proof.
  intros K G N L O ended. subst ended.
  unfold EnrichFromJson.generate_summary_and_prompt.
  rewrite K. unfold lift, bind, submit, outcome. rewrite G.
  destruct t as [|c t]; [contradiction|]. cbn [fst snd]. rewrite L.
  unfold EnrichFromJson.lacks_a_key.
  destruct v as [| | |s|xs|members]; try discriminate; simpl scalar;
    (split; [try reflexivity; discriminate|]); try discriminate; intros _.
  - pose proof (py_in_named (py "marketing_summary") (JString s)) as P1.
    pose proof (py_in_named (py "image_prompt") (JString s)) as P2.
    destruct (py_in (py "marketing_summary") (JString s)) as [b1|e] eqn:E1;
      [|discriminate].
    destruct (py_in (py "image_prompt") (JString s)) as [b2|e] eqn:E2;
      [|discriminate].
    specialize (P1 b1 eq_refl eq_refl). specialize (P2 b2 eq_refl eq_refl).
    destruct b1, b2; simpl; (split; [split|]);
      try reflexivity; try discriminate; try tauto;
      try (intros [H1 H2]; exfalso;
           first [apply P1 in H1; discriminate|apply P2 in H2; discriminate]);
      try (intros _; split; [now apply P1|now apply P2]).
  - pose proof (py_in_named (py "marketing_summary") (JArray xs)) as P1.
    pose proof (py_in_named (py "image_prompt") (JArray xs)) as P2.
    destruct (py_in (py "marketing_summary") (JArray xs)) as [b1|e] eqn:E1;
      [|discriminate].
    destruct (py_in (py "image_prompt") (JArray xs)) as [b2|e] eqn:E2;
      [|discriminate].
    specialize (P1 b1 eq_refl eq_refl). specialize (P2 b2 eq_refl eq_refl).
    destruct b1, b2; simpl; (split; [split|]);
      try reflexivity; try discriminate; try tauto;
      try (intros [H1 H2]; exfalso;
           first [apply P1 in H1; discriminate|apply P2 in H2; discriminate]);
      try (intros _; split; [now apply P1|now apply P2]).
Qed.

End EnrichNonObject.

Lemma enrich_on_non_object_response_witness :
  let ended :=
    outcome (EnrichFromJson.generate_summary_and_prompt
               PyJson.loads PyJson.dumps
               (scripted_world (Some (py "k")) (Some (py "5")) NO_IMAGE)
               EMPTY_RECORD) in
  (scalar (JNumber (py "5")) = true ->
   ended = Raise (TypeError "argument is not iterable"))
  /\ (scalar (JNumber (py "5")) = false ->
      (ended = Ok (JNumber (py "5"))
       <-> named_in (py "marketing_summary") (JNumber (py "5"))
           /\ named_in (py "image_prompt") (JNumber (py "5")))
      /\ (ended <> Ok (JNumber (py "5")) ->
          ended = Raise EnrichFromJson.MISSING_KEYS)).
Proof.
  apply (enrich_on_non_object_response PyJson.loads PyJson.dumps
           (scripted_world (Some (py "k")) (Some (py "5")) NO_IMAGE)
           EMPTY_RECORD (py "k") (py "5") (JNumber (py "5"))
           eq_refl eq_refl);
    [discriminate|reflexivity|reflexivity].
Defined.

(** ** Step 1: line breaks *)

Section LineBreaks.
Context {U : UnicodeClasses}.

Lemma sub_scan_first ic r tpl prev prev' t :
  match_at ic r prev t = match_at ic r prev' t ->
  sub_scan ic r tpl prev 0 t = sub_scan ic r tpl prev' 0 t.
Proof. intros E. destruct t; cbn [sub_scan]; rewrite E; reflexivity. Qed.

(** The pattern begins with a literal: what stands before the position
    plays no role. *)
Lemma br_match_prev prev prev' t :
  match_at true BR_PATTERN prev t = match_at true BR_PATTERN prev' t.
Proof.
  unfold match_at, BR_PATTERN. cbn [Seq].
  change (rmatch true (Cat (Lit 60) ?R) ?s)
    with (flat_map (rmatch true R) (rmatch true (Lit 60) s)).
  destruct t as [|c t]; [reflexivity|].
  cbn [rmatch rest]. destruct (lower c =? lower 60); reflexivity.
Qed.

Lemma br_none prev c t :
  lit_eq true 60 c = false -> match_at true BR_PATTERN prev (c :: t) = None.
Proof.
  unfold lit_eq. intros H. unfold match_at, BR_PATTERN. cbn [Seq].
  change (rmatch true (Cat (Lit 60) ?R) ?s)
    with (flat_map (rmatch true R) (rmatch true (Lit 60) s)).
  cbn [rmatch rest]. rewrite H. reflexivity.
Qed.

Lemma br_first prev b r w slash rest :
  lower b = 98 -> lower r = 114 -> forallb is_space w = true ->
  slash = [] \/ slash = [47] ->
  match_at true BR_PATTERN prev ([60; b; r] ++ w ++ slash ++ 62 :: rest)
  = Some (MState (Some 62) rest []).
Proof.
  intros Hb Hr Hw Hs. unfold match_at, BR_PATTERN. cbn [Seq]. fold ws.
  cbn [Datatypes.app].
  apply (first_Cat _ _ _ _ (MState (Some 60) (b :: r :: w ++ slash ++ 62 :: rest) [])).
  { apply first_Lit. reflexivity. }
  apply (first_Cat _ _ _ _ (MState (Some b) (r :: w ++ slash ++ 62 :: rest) [])).
  { apply first_Lit. unfold lit_eq. rewrite Hb. reflexivity. }
  apply (first_Cat _ _ _ _ (MState (Some r) (w ++ slash ++ 62 :: rest) [])).
  { apply first_Lit. unfold lit_eq. rewrite Hr. reflexivity. }
  apply (first_Cat _ _ _ _
           (MState (last_or (Some r) w) (slash ++ 62 :: rest) [])).
  { apply first_Star; [exact Hw|]. destruct Hs as [-> | ->]; reflexivity. }
  destruct Hs as [-> | ->]; cbn [Datatypes.app].
  - apply (first_Cat _ _ _ _ (MState (last_or (Some r) w) (62 :: rest) [])).
    { apply first_Opt_none_hd. reflexivity. }
    apply first_Lit. reflexivity.
  - apply (first_Cat _ _ _ _ (MState (Some 47) (62 :: rest) [])).
    { apply first_Opt. apply first_Lit. reflexivity. }
    apply first_Lit. reflexivity.
Qed.

(** Step 1 turns a line break into a newline: in front of the first [<] of
    a text, where a break [<br>], [<br/>], [<BR />], ... stands, the text
    before it is kept, the break becomes one newline, and the step goes on
    behind it. *)
Theorem html_break_becomes_newline (a tag rest : text) :
  Forall (fun c => c <> 60) a ->
  br_tag tag ->
  html_breaks (a ++ tag ++ rest) = a ++ NL :: html_breaks rest.
Proof.
  intros Ha (b & r & w & slash & -> & Hb & Hr & Hw & Hs).
  unfold html_breaks, re_sub.
  assert (E' : 60 :: (b :: r :: w ++ slash ++ [62]) ++ rest
               = [60; b; r] ++ w ++ slash ++ 62 :: rest)
    by (cbn [Datatypes.app]; rewrite <- !app_assoc; reflexivity).
  rewrite sub_scan_copy_run.
  - f_equal.
    change (([60; b; r] ++ w ++ slash ++ [62]) ++ rest)
      with (60 :: (b :: r :: w ++ slash ++ [62]) ++ rest).
    rewrite (sub_scan_match true BR_PATTERN _ _ 60
               (b :: r :: w ++ slash ++ [62]) rest
               (MState (Some 62) rest [])).
    + cbn [expand groups Datatypes.app]. f_equal.
      apply sub_scan_first, br_match_prev.
    + unfold text, char in *. rewrite E'. apply br_first; assumption.
    + reflexivity.
  - intros a1 c a2 Ea. apply br_none.
    rewrite Forall_forall in Ha. apply lit_lt, Ha. rewrite Ea.
    apply in_or_app. right. now left.
Qed.

End LineBreaks.

Lemma html_break_becomes_newline_witness :
  Forall (fun c => c <> 60) (py "Beer 7 EUR")
  /\ br_tag (py "<BR />")
  /\ html_breaks (py "Beer 7 EUR" ++ py "<BR />" ++ py "Tea<br>2")
     = py "Beer 7 EUR" ++ NL :: html_breaks (py "Tea<br>2").
Proof.
  assert (H1 : Forall (fun c => c <> 60) (py "Beer 7 EUR"))
    by (repeat constructor; discriminate).
  assert (H2 : br_tag (py "<BR />")).
  { exists 66, 82, [SPACE], [47]. repeat split. now right. }
  split; [exact H1|]. split; [exact H2|].
  apply (html_break_becomes_newline _ _ _ H1 H2).
Defined.

(** ** Step 2: one replacement character *)

Section IsolatedMarker.
Context {U : UnicodeClasses}.

(** *** Where the marker stands *)

Lemma unique_marker (x y : text) : forall p s,
  ~ In REPLACEMENT_CHAR x -> ~ In REPLACEMENT_CHAR y ->
  p ++ REPLACEMENT_CHAR :: s = x ++ REPLACEMENT_CHAR :: y -> p = x /\ s = y.
Proof.
  induction x as [|c x IH]; intros p s Hx Hy E.
  - destruct p as [|c p]; simpl in E.
    + injection E as ->. auto.
    + injection E as -> E. exfalso. apply Hy. rewrite <- E.
      apply in_or_app. right. now left.
  - destruct p as [|c' p]; simpl in E.
    + injection E as <- E. exfalso. apply Hx. now left.
    + injection E as -> E. destruct (IH p s) as [-> ->]; auto.
      intros H; apply Hx; now right.
Qed.

Lemma marker_position (x y a1 s K r : text) :
  ~ In REPLACEMENT_CHAR x -> ~ In REPLACEMENT_CHAR y ->
  a1 ++ s = x ++ REPLACEMENT_CHAR :: y -> s = K ++ REPLACEMENT_CHAR :: r ->
  x = a1 ++ K /\ y = r.
Proof.
  intros Hx Hy E ->. rewrite app_assoc in E.
  destruct (unique_marker x y _ _ Hx Hy E) as [<- <-]. auto.
Qed.

Lemma no_marker (t : text) :
  ~ In REPLACEMENT_CHAR t ->
  existsb (lit_eq false REPLACEMENT_CHAR) t = false.
Proof.
  intros H. apply existsb_none. intros c Hc. unfold lit_eq.
  apply N.eqb_neq. intros ->. auto.
Qed.

Lemma word_not_space c : is_word c = true -> is_space c = false.
Proof.
  intros H. destruct (is_space c) eqn:E; [|reflexivity].
  apply space_not_word in E. congruence.
Qed.

Lemma lstrip_blanks k a r :
  forallb is_space k = true -> is_space a = false ->
  lstrip_by is_space (k ++ a :: r) = a :: r.
Proof.
  intros F H. rewrite lstrip_by_app, F. simpl. rewrite H. reflexivity.
Qed.

Lemma rstrip_blanks a c k :
  forallb is_space k = true -> is_space c = false ->
  rstrip (a ++ c :: k) = a ++ [c].
Proof.
  intros F H. unfold rstrip. rewrite rstrip_by_after by exact H.
  rewrite rstrip_by_all by exact F. reflexivity.
Qed.

Lemma rstrip_in c (a : text) : In c (rstrip a) -> In c a.
Proof.
  destruct (rstrip_by_split is_space a) as (w & E & _).
  fold (rstrip a) in E. intros H. rewrite E. apply in_or_app. now left.
Qed.

Lemma lstrip_in c (a : text) : In c (lstrip_by is_space a) -> In c a.
Proof.
  destruct (lstrip_by_split is_space a) as (w & E & _).
  intros H. rewrite E. apply in_or_app. now right.
Qed.

(** *** What a match needs *)

Lemma hd_in {A} (l : list A) x : hd_error l = Some x -> In x l.
Proof. destruct l; simpl; [discriminate|]. intros H; injection H as ->. now left. Qed.

Lemma in_Cat ic r1 r2 s s' :
  In s' (rmatch ic (Cat r1 r2) s) ->
  exists s1, In s1 (rmatch ic r1 s) /\ In s' (rmatch ic r2 s1).
Proof. simpl. intros H. apply in_flat_map in H. exact H. Qed.

Lemma lit_next c s s' :
  In s' (rmatch false (Lit c) s) -> rest s = c :: rest s'.
Proof.
  simpl. destruct (rest s) as [|x t]; [intros []|].
  destruct (x =? c) eqn:E; [|intros []]. intros [<-|[]].
  apply N.eqb_eq in E. subst. reflexivity.
Qed.

Lemma cls_next p s s' :
  In s' (rmatch false (Cls p) s) ->
  exists x, rest s = x :: rest s' /\ p x = true.
Proof.
  simpl. destruct (rest s) as [|x t]; [intros []|].
  destruct (p x) eqn:E; [|intros []]. intros [<-|[]]. exists x. auto.
Qed.

Lemma blanks_next s s' :
  In s' (rmatch false (Star ws) s) ->
  exists w, rest s = w ++ rest s' /\ forallb is_space w = true.
Proof.
  intros H. destruct (rmatch_run _ _ _ _ H) as (w & R & _ & F).
  exists w. auto.
Qed.

Lemma grp_next i r s s' :
  In s' (rmatch false (Grp i r) s) ->
  exists s1, In s1 (rmatch false r s) /\ rest s' = rest s1.
Proof.
  simpl. intros H. apply in_map_iff in H. destruct H as (s1 & <- & H).
  exists s1. auto.
Qed.

Lemma standalone_needs prev t m :
  match_at false STANDALONE prev t = Some m ->
  exists k r, t = k ++ REPLACEMENT_CHAR :: r /\ forallb is_space k = true.
Proof.
  unfold match_at, STANDALONE. cbn [Seq]. intros H. apply hd_in in H.
  apply in_Cat in H. destruct H as (s1 & H1 & H).
  apply in_Cat in H. destruct H as (s2 & H2 & _).
  apply blanks_next in H1. destruct H1 as (k & E1 & F1).
  apply lit_next in H2. cbn [rest] in E1.
  exists k, (rest s2). rewrite E1, H2. auto.
Qed.

Lemma after_digit_needs prev t m :
  match_at false AFTER_DIGIT prev t = Some m ->
  exists d k r, t = d :: k ++ REPLACEMENT_CHAR :: r
                /\ is_digit d = true /\ forallb is_space k = true.
Proof.
  unfold match_at, AFTER_DIGIT. cbn [Seq]. intros H. apply hd_in in H.
  apply in_Cat in H. destruct H as (s1 & H1 & H).
  apply in_Cat in H. destruct H as (s2 & H2 & H).
  apply in_Cat in H. destruct H as (s3 & H3 & _).
  apply grp_next in H1. destruct H1 as (s1' & H1 & R1).
  apply cls_next in H1. destruct H1 as (d & E0 & D).
  apply blanks_next in H2. destruct H2 as (k & E1 & F1).
  apply lit_next in H3. cbn [rest] in E0.
  exists d, k, (rest s3). rewrite E0, <- R1, E1, H3. auto.
Qed.

Lemma between_needs prev t m :
  match_at false BETWEEN_WORDS prev t = Some m ->
  exists c k1 k2 c2 r,
    t = c :: k1 ++ REPLACEMENT_CHAR :: k2 ++ c2 :: r
    /\ is_word c = true /\ forallb is_space k1 = true
    /\ forallb is_space k2 = true /\ is_word c2 = true.
Proof.
  unfold match_at, BETWEEN_WORDS. cbn [Seq]. intros H. apply hd_in in H.
  apply in_Cat in H. destruct H as (s1 & H1 & H).
  apply in_Cat in H. destruct H as (s2 & H2 & H).
  apply in_Cat in H. destruct H as (s3 & H3 & H).
  apply in_Cat in H. destruct H as (s4 & H4 & H5).
  apply grp_next in H1. destruct H1 as (s1' & H1 & R1).
  apply cls_next in H1. destruct H1 as (c & E0 & C).
  apply blanks_next in H2. destruct H2 as (k1 & E1 & F1).
  apply lit_next in H3.
  apply blanks_next in H4. destruct H4 as (k2 & E3 & F3).
  apply grp_next in H5. destruct H5 as (s5 & H5 & _).
  apply cls_next in H5. destruct H5 as (c2 & E4 & C2).
  cbn [rest] in E0.
  exists c, k1, k2, c2, (rest s5).
  rewrite E0, <- R1, E1, H3, E3, E4. auto.
Qed.

(** *** The match at the marker *)

Lemma standalone_first prev w1 w2 t :
  forallb is_space w1 = true -> forallb is_space w2 = true ->
  stops is_space t ->
  match_at false STANDALONE prev (w1 ++ REPLACEMENT_CHAR :: w2 ++ t)
  = Some (MState (last_or (Some REPLACEMENT_CHAR) w2) t []).
Proof.
  intros F1 F2 St. unfold match_at, STANDALONE. cbn [Seq]. fold ws.
  apply (first_Cat _ _ _ _
           (MState (last_or prev w1) (REPLACEMENT_CHAR :: w2 ++ t) [])).
  - apply first_Star; auto. reflexivity.
  - apply (first_Cat _ _ _ _ (MState (Some REPLACEMENT_CHAR) (w2 ++ t) [])).
    + apply first_Lit. reflexivity.
    + apply first_Star; auto.
Qed.

Lemma after_digit_first prev d w1 w2 t :
  is_digit d = true ->
  forallb is_space w1 = true -> forallb is_space w2 = true ->
  stops is_space t ->
  match_at false AFTER_DIGIT prev (d :: w1 ++ REPLACEMENT_CHAR :: w2 ++ t)
  = Some (MState (last_or (Some REPLACEMENT_CHAR) w2) t [(1%nat, [d])]).
Proof.
  intros D F1 F2 St. unfold match_at, AFTER_DIGIT. cbn [Seq]. fold ws.
  set (T := w1 ++ REPLACEMENT_CHAR :: w2 ++ t).
  apply (first_Cat _ _ _ _
           (capture 1 (MState prev (d :: T) []) (MState (Some d) T []))).
  - apply first_Grp. apply first_Cls. exact D.
  - unfold capture. cbn [before rest groups].
    replace (length (d :: T) - length T)%nat with 1%nat
      by (cbn [length]; lia).
    cbn [firstn]. subst T.
    apply (first_Cat _ _ _ _
             (MState (last_or (Some d) w1) (REPLACEMENT_CHAR :: w2 ++ t)
                     [(1%nat, [d])])).
    + apply first_Star; auto. reflexivity.
    + apply (first_Cat _ _ _ _
               (MState (Some REPLACEMENT_CHAR) (w2 ++ t) [(1%nat, [d])])).
      * apply first_Lit. reflexivity.
      * apply first_Star; auto.
Qed.

Lemma between_first prev c1 w1 w2 c2 t :
  is_word c1 = true ->
  forallb is_space w1 = true -> forallb is_space w2 = true ->
  is_word c2 = true ->
  match_at false BETWEEN_WORDS prev
           (c1 :: w1 ++ REPLACEMENT_CHAR :: w2 ++ c2 :: t)
  = Some (MState (Some c2) t [(2%nat, [c2]); (1%nat, [c1])]).
Proof.
  intros C1 F1 F2 C2. unfold match_at, BETWEEN_WORDS. cbn [Seq]. fold ws.
  set (T := w1 ++ REPLACEMENT_CHAR :: w2 ++ c2 :: t).
  apply (first_Cat _ _ _ _
           (capture 1 (MState prev (c1 :: T) []) (MState (Some c1) T []))).
  - apply first_Grp. apply first_Cls. exact C1.
  - unfold capture. cbn [before rest groups].
    replace (length (c1 :: T) - length T)%nat with 1%nat
      by (cbn [length]; lia).
    cbn [firstn]. subst T.
    apply (first_Cat _ _ _ _
             (MState (last_or (Some c1) w1)
                     (REPLACEMENT_CHAR :: w2 ++ c2 :: t) [(1%nat, [c1])])).
    + apply first_Star; auto. reflexivity.
    + apply (first_Cat _ _ _ _
               (MState (Some REPLACEMENT_CHAR) (w2 ++ c2 :: t)
                       [(1%nat, [c1])])).
      * apply first_Lit. reflexivity.
      * apply (first_Cat _ _ _ _
                 (MState (last_or (Some REPLACEMENT_CHAR) w2) (c2 :: t)
                         [(1%nat, [c1])])).
        -- apply first_Star; auto. simpl. apply word_not_space, C2.
        -- erewrite first_Grp by (apply first_Cls; exact C2).
           unfold capture. cbn [before rest groups].
           replace (length (c2 :: t) - length t)%nat with 1%nat
             by (cbn [length]; lia).
           reflexivity.
Qed.

(** *** One substitution over a text with one match *)

Lemma scan_nowhere r tpl t :
  demands false (lit_eq false REPLACEMENT_CHAR) r ->
  (forall a1 c a2 m, t = a1 ++ c :: a2 ->
     match_at false r (last_or None a1) (c :: a2) = Some m -> False) ->
  re_sub false r tpl t = t.
Proof.
  intros D H. unfold re_sub.
  replace (sub_scan false r tpl None 0 t)
    with (sub_scan false r tpl None 0 (t ++ []))
    by (rewrite app_nil_r; reflexivity).
  rewrite sub_scan_copy_run.
  - rewrite (sub_scan_nil false r tpl _ D). apply app_nil_r.
  - intros a1 c a2 E. rewrite app_nil_r.
    destruct (match_at false r (last_or None a1) (c :: a2)) as [m|] eqn:M;
      [|reflexivity].
    exfalso. eapply H; eauto.
Qed.

Lemma scan_once r tpl pre mid tail m :
  demands false (lit_eq false REPLACEMENT_CHAR) r ->
  mid <> [] ->
  (forall a1 c a2 m', pre = a1 ++ c :: a2 ->
     match_at false r (last_or None a1) (c :: a2 ++ mid ++ tail) = Some m' ->
     False) ->
  match_at false r (last_or None pre) (mid ++ tail) = Some m ->
  rest m = tail ->
  ~ In REPLACEMENT_CHAR tail ->
  re_sub false r tpl (pre ++ mid ++ tail)
  = pre ++ expand tpl (groups m) ++ tail.
Proof.
  intros D N H M R T. unfold re_sub. rewrite sub_scan_copy_run.
  - destruct mid as [|c a]; [contradiction|]. cbn [app] in *.
    rewrite (sub_scan_match false r tpl _ c a tail m M R).
    rewrite (sub_scan_inert false r tpl (lit_eq false REPLACEMENT_CHAR));
      [reflexivity|exact D|apply no_marker; exact T].
  - intros a1 c a2 E.
    destruct (match_at false r (last_or None a1) (c :: a2 ++ mid ++ tail))
      as [m'|] eqn:M'; [|reflexivity].
    exfalso. eapply H; eauto.
Qed.

Lemma last_visible (p : char -> bool) (a1 : text) c a2 :
  stops p (rev (a1 ++ c :: a2)) -> forallb p (c :: a2) = true -> False.
Proof.
  rewrite rev_app_distr. intros S F.
  assert (F' : forallb p (rev (c :: a2)) = true)
    by (rewrite forallb_rev; exact F).
  destruct (rev (c :: a2)) as [|h l] eqn:R.
  - apply (f_equal (@length char)) in R. rewrite length_rev in R. discriminate.
  - simpl in S, F'. rewrite S in F'. discriminate.
Qed.

Lemma between_demands :
  demands false (lit_eq false REPLACEMENT_CHAR) BETWEEN_WORDS.
Proof. simpl. right. right. left. auto. Qed.

Lemma after_digit_demands :
  demands false (lit_eq false REPLACEMENT_CHAR) AFTER_DIGIT.
Proof. simpl. right. right. left. auto. Qed.

(** *** The three substitutions of the step *)

Lemma standalone_single x y :
  ~ In REPLACEMENT_CHAR x -> ~ In REPLACEMENT_CHAR y ->
  re_sub false STANDALONE [TLit [SPACE; EM_DASH; SPACE]]
         (x ++ REPLACEMENT_CHAR :: y)
  = rstrip x ++ [SPACE; EM_DASH; SPACE] ++ lstrip_by is_space y.
Proof.
  intros Hx Hy.
  destruct (rstrip_by_split is_space x) as (w1 & Ex & F1 & S1).
  destruct (lstrip_by_split is_space y) as (w2 & Ey & F2 & S2).
  fold (rstrip x) in Ex, S1.
  remember (rstrip x) as x' eqn:Hx'. remember (lstrip_by is_space y) as y0 eqn:Hy0.
  assert (T : ~ In REPLACEMENT_CHAR y0)
    by (intros H; apply Hy; rewrite Ey; apply in_or_app; now right).
  assert (W : x ++ REPLACEMENT_CHAR :: y
              = x' ++ (w1 ++ REPLACEMENT_CHAR :: w2) ++ y0).
  { transitivity ((x' ++ w1) ++ REPLACEMENT_CHAR :: (w2 ++ y0));
      [congruence|]. rewrite <- !app_assoc. reflexivity. }
  rewrite W.
  rewrite (scan_once STANDALONE _ x' (w1 ++ REPLACEMENT_CHAR :: w2) y0
             (MState (last_or (Some REPLACEMENT_CHAR) w2) y0 [])).
  - reflexivity.
  - exact standalone_demands.
  - destruct w1; discriminate.
  - intros a1 c a2 m' E M.
    destruct (standalone_needs _ _ _ M) as (k & r & Ek & Fk).
    assert (E1 : a1 ++ c :: a2 ++ (w1 ++ REPLACEMENT_CHAR :: w2) ++ y0
                 = x ++ REPLACEMENT_CHAR :: y)
      by (rewrite W, E, <- !app_assoc; reflexivity).
    destruct (marker_position x y a1 _ k r Hx Hy E1 Ek) as [Ea _].
    { rewrite Ex, E, <- app_assoc in Ea. apply app_inv_head in Ea.
      cbn [app] in Ea. rewrite <- Ea in Fk.
      rewrite E in S1. apply (last_visible _ _ _ _ S1).
      change (c :: a2 ++ w1) with ((c :: a2) ++ w1) in Fk.
      rewrite forallb_app in Fk. apply andb_true_iff in Fk. tauto. }
  - rewrite <- app_assoc. apply standalone_first; auto.
  - reflexivity.
  - exact T.
Qed.

Lemma after_digit_single x y :
  ~ In REPLACEMENT_CHAR x -> ~ In REPLACEMENT_CHAR y ->
  re_sub false AFTER_DIGIT [TGrp 1; TLit [EURO; SPACE]]
         (x ++ REPLACEMENT_CHAR :: y)
  = if digit_before x
    then rstrip x ++ [EURO; SPACE] ++ lstrip_by is_space y
    else x ++ REPLACEMENT_CHAR :: y.
Proof.
  intros Hx Hy. destruct (digit_before x) eqn:DB.
  - unfold digit_before in DB.
    destruct (rstrip_by_split is_space x) as (w1 & Ex & F1 & _).
    destruct (lstrip_by_split is_space y) as (w2 & Ey & F2 & S2).
    fold (rstrip x) in Ex.
    destruct (rev (rstrip x)) as [|d rx] eqn:Rv; [discriminate|].
    assert (Ex' : rstrip x = rev rx ++ [d])
      by (rewrite <- (rev_involutive (rstrip x)), Rv; reflexivity).
    rewrite Ex' in *.
    remember (lstrip_by is_space y) as y0 eqn:Hy0.
    assert (T : ~ In REPLACEMENT_CHAR y0)
      by (intros H; apply Hy; rewrite Ey; apply in_or_app; now right).
    assert (W : x ++ REPLACEMENT_CHAR :: y
                = rev rx ++ (d :: w1 ++ REPLACEMENT_CHAR :: w2) ++ y0).
    { transitivity (((rev rx ++ [d]) ++ w1) ++ REPLACEMENT_CHAR :: (w2 ++ y0));
        [congruence|]. cbn [app]. rewrite <- !app_assoc. reflexivity. }
    rewrite W.
    rewrite (scan_once AFTER_DIGIT _ (rev rx)
               (d :: w1 ++ REPLACEMENT_CHAR :: w2) y0
               (MState (last_or (Some REPLACEMENT_CHAR) w2) y0 [(1%nat, [d])])).
    + cbn [expand group groups Nat.eqb app]. rewrite <- app_assoc. reflexivity.
    + exact after_digit_demands.
    + discriminate.
    + intros a1 c a2 m' E M.
      destruct (after_digit_needs _ _ _ M) as (d' & k & r & Ek & Dd & Fk).
      assert (E1 : a1 ++ c :: a2 ++ (d :: w1 ++ REPLACEMENT_CHAR :: w2) ++ y0
                   = x ++ REPLACEMENT_CHAR :: y)
        by (rewrite W, E, <- !app_assoc; reflexivity).
      destruct (marker_position x y a1 _ (d' :: k) r Hx Hy E1 Ek) as [Ea _].
      * assert (R : rstrip x = a1 ++ [d'])
          by (rewrite Ea; apply rstrip_blanks;
              [exact Fk|apply digit_not_space, Dd]).
        rewrite Ex', E in R. apply (f_equal (@length char)) in R.
        rewrite !length_app in R. simpl in R. lia.
    + cbn [app]. rewrite <- app_assoc. apply after_digit_first; auto.
    + reflexivity.
    + exact T.
  - apply scan_nowhere; [exact after_digit_demands|].
    intros a1 c a2 m E M.
    destruct (after_digit_needs _ _ _ M) as (d' & k & r & Ek & Dd & Fk).
    destruct (marker_position x y a1 _ (d' :: k) r Hx Hy (eq_sym E) Ek)
      as [Ea _].
    unfold digit_before in DB.
    rewrite Ea, rstrip_blanks, rev_app_distr in DB;
      [|exact Fk|apply digit_not_space, Dd].
    simpl in DB. congruence.
Qed.

Lemma between_single x y :
  ~ In REPLACEMENT_CHAR x -> ~ In REPLACEMENT_CHAR y ->
  re_sub false BETWEEN_WORDS
         [TGrp 1; TLit [SPACE; EM_DASH; SPACE]; TGrp 2]
         (x ++ REPLACEMENT_CHAR :: y)
  = if wordchar_before x && word_after y
    then rstrip x ++ [SPACE; EM_DASH; SPACE] ++ lstrip_by is_space y
    else x ++ REPLACEMENT_CHAR :: y.
Proof.
  intros Hx Hy. destruct (wordchar_before x && word_after y) eqn:WW.
  - apply andb_true_iff in WW. destruct WW as [WB WA].
    unfold wordchar_before in WB. unfold word_after in WA.
    destruct (rstrip_by_split is_space x) as (w1 & Ex & F1 & _).
    destruct (lstrip_by_split is_space y) as (w2 & Ey & F2 & _).
    fold (rstrip x) in Ex.
    destruct (rev (rstrip x)) as [|c1 rx] eqn:Rv; [discriminate|].
    assert (Ex' : rstrip x = rev rx ++ [c1])
      by (rewrite <- (rev_involutive (rstrip x)), Rv; reflexivity).
    rewrite Ex' in *.
    destruct (lstrip_by is_space y) as [|c2 y1] eqn:Ly; [discriminate|].
    assert (T : ~ In REPLACEMENT_CHAR y1).
    { intros H; apply Hy; rewrite Ey; apply in_or_app; right; now right. }
    assert (W : x ++ REPLACEMENT_CHAR :: y
                = rev rx
                  ++ (c1 :: w1 ++ REPLACEMENT_CHAR :: w2 ++ [c2]) ++ y1).
    { transitivity (((rev rx ++ [c1]) ++ w1)
                      ++ REPLACEMENT_CHAR :: (w2 ++ c2 :: y1));
        [congruence|]. repeat (cbn [app]; rewrite <- app_assoc).
      reflexivity. }
    rewrite W.
    rewrite (scan_once BETWEEN_WORDS _ (rev rx)
               (c1 :: w1 ++ REPLACEMENT_CHAR :: w2 ++ [c2]) y1
               (MState (Some c2) y1 [(2%nat, [c2]); (1%nat, [c1])])).
    + cbn [expand group groups Nat.eqb app]. rewrite <- app_assoc.
      reflexivity.
    + exact between_demands.
    + discriminate.
    + intros a1 c a2 m' E M.
      destruct (between_needs _ _ _ M)
        as (c' & k1 & k2 & c2' & r & Ek & Cc & Fk & _).
      assert (E1 : a1 ++ c :: a2
                      ++ (c1 :: w1 ++ REPLACEMENT_CHAR :: w2 ++ [c2]) ++ y1
                   = x ++ REPLACEMENT_CHAR :: y)
        by (rewrite W, E, <- !app_assoc; reflexivity).
      destruct (marker_position x y a1 _ (c' :: k1) (k2 ++ c2' :: r)
                  Hx Hy E1 Ek) as [Ea _].
      * assert (R : rstrip x = a1 ++ [c'])
          by (rewrite Ea; apply rstrip_blanks;
              [exact Fk|apply word_not_space, Cc]).
        rewrite Ex', E in R. apply (f_equal (@length char)) in R.
        rewrite !length_app in R. simpl in R. lia.
    + repeat (cbn [app]; rewrite <- app_assoc). cbn [app].
      apply between_first; auto.
    + reflexivity.
    + exact T.
  - apply scan_nowhere; [exact between_demands|].
    intros a1 c a2 m E M.
    destruct (between_needs _ _ _ M)
      as (c' & k1 & k2 & c2 & r & Ek & Cc & Fk1 & Fk2 & C2).
    destruct (marker_position x y a1 _ (c' :: k1) (k2 ++ c2 :: r)
                Hx Hy (eq_sym E) Ek) as [Ea Eb].
    assert (WB : wordchar_before x = true).
    { unfold wordchar_before.
      rewrite Ea, rstrip_blanks, rev_app_distr;
        [exact Cc|exact Fk1|apply word_not_space, Cc]. }
    assert (WA : word_after y = true).
    { unfold word_after.
      rewrite Eb, lstrip_blanks;
        [exact C2|exact Fk2|apply word_not_space, C2]. }
    rewrite WB, WA in WW. discriminate.
Qed.

(** Step 2 on a text with one replacement character: the whitespace
    around the character goes, and in its place stands the euro sign and a
    space if the last visible character before it is a digit and the first
    visible character after it is not a word character, and a spaced em
    dash in every other case -- also after a digit when a word character
    follows. *)
Theorem isolated_marker (x y : text) :
  ~ In REPLACEMENT_CHAR x -> ~ In REPLACEMENT_CHAR y ->
  fix_replacement (x ++ REPLACEMENT_CHAR :: y)
  = rstrip x
    ++ (if digit_before x && negb (word_after y)
        then [EURO; SPACE] else [SPACE; EM_DASH; SPACE])
    ++ lstrip_by is_space y.
Proof.
  intros Hx Hy. unfold fix_replacement. cbv zeta.
  assert (Clean : forall mark : text,
             ~ In REPLACEMENT_CHAR mark ->
             existsb (lit_eq false REPLACEMENT_CHAR)
                     (rstrip x ++ mark ++ lstrip_by is_space y) = false).
  { intros mark Hm. apply no_marker. intros H.
    apply in_app_or in H. destruct H as [H|H];
      [apply Hx, rstrip_in, H|].
    apply in_app_or in H. destruct H as [H|H];
      [exact (Hm H)|apply Hy, lstrip_in, H]. }
  assert (Dash : ~ In REPLACEMENT_CHAR [SPACE; EM_DASH; SPACE])
    by (intros [H|[H|[H|[]]]]; discriminate).
  assert (Euro : ~ In REPLACEMENT_CHAR [EURO; SPACE])
    by (intros [H|[H|[]]]; discriminate).
  rewrite between_single by assumption.
  destruct (wordchar_before x && word_after y) eqn:WW.
  - apply andb_true_iff in WW. destruct WW as [_ WA].
    rewrite WA, andb_false_r. unfold re_sub.
    rewrite (sub_scan_inert false AFTER_DIGIT _
               (lit_eq false REPLACEMENT_CHAR));
      [|exact after_digit_demands|exact (Clean [SPACE; EM_DASH; SPACE] Dash)].
    apply (sub_scan_inert false STANDALONE _
             (lit_eq false REPLACEMENT_CHAR));
      [exact standalone_demands|exact (Clean [SPACE; EM_DASH; SPACE] Dash)].
  - rewrite after_digit_single by assumption.
    destruct (digit_before x) eqn:DB.
    + assert (WB : wordchar_before x = true).
      { unfold digit_before in DB. unfold wordchar_before.
        destruct (rev (rstrip x)); [discriminate|].
        apply digit_is_word, DB. }
      rewrite WB in WW. simpl in WW. rewrite WW. simpl.
      apply (sub_scan_inert false STANDALONE _
               (lit_eq false REPLACEMENT_CHAR));
        [exact standalone_demands|exact (Clean [EURO; SPACE] Euro)].
    + simpl. apply standalone_single; assumption.
Qed.

End IsolatedMarker.

Lemma isolated_marker_witness :
  ~ In REPLACEMENT_CHAR (py "Beer 15 ")
  /\ ~ In REPLACEMENT_CHAR (py " | Tea")
  /\ fix_replacement (py "Beer 15 " ++ REPLACEMENT_CHAR :: py " | Tea")
     = py "Beer 15\u20AC | Tea".
Proof.
  assert (H1 : ~ In REPLACEMENT_CHAR (py "Beer 15 "))
    by (intros H; repeat (destruct H as [H|H]; [discriminate|]); exact H).
  assert (H2 : ~ In REPLACEMENT_CHAR (py " | Tea"))
    by (intros H; repeat (destruct H as [H|H]; [discriminate|]); exact H).
  split; [exact H1|]. split; [exact H2|].
  rewrite (isolated_marker _ _ H1 H2). reflexivity.
Defined.

(** ** A second run *)

Section SecondRun.
Context {U : UnicodeClasses}.

(** Where a pattern matches nowhere the substitution changes nothing. *)
Lemma search_none_fixed ic r tpl : forall t prev,
  search_from ic r prev t = None -> sub_scan ic r tpl prev 0 t = t.
Proof.
  induction t as [|c t IH]; intros prev H; cbn [search_from] in H.
  - apply sub_scan_end. destruct (match_at ic r prev []); [discriminate|].
    reflexivity.
  - destruct (match_at ic r prev (c :: t)) eqn:M; [discriminate|].
    rewrite sub_scan_copy by exact M. f_equal. apply IH, H.
Qed.

(** Without a continuation line after the first line the loop of step 4
    returns the lines as they are. *)
Lemma merge_lines_settled lines :
  existsb is_continuation (tl lines) = false -> merge_lines lines = lines.
Proof.
  induction lines as [|l ls IH] using rev_ind; intros H; [reflexivity|].
  rewrite merge_lines_snoc. destruct ls as [|l0 ls].
  - unfold merge_step. cbv zeta. cbn [merge_lines fold_left length Nat.eqb negb].
    rewrite andb_false_r. reflexivity.
  - cbn [app tl] in H. rewrite existsb_app in H.
    apply orb_false_iff in H. destruct H as [H1 H2].
    rewrite IH by exact H1. cbn [existsb] in H2. rewrite orb_false_r in H2.
    unfold is_continuation in H2. cbv zeta in H2.
    unfold merge_step. cbv zeta. rewrite H2. reflexivity.
Qed.

(** What every run leaves behind: no replacement character, the currency
    code spelled [EUR], no euro sign behind an amount. *)
Lemma output_facts raw :
  Forall (fun c => c <> REPLACEMENT_CHAR) (normalize_for_llm raw)
  /\ Forall upper_ok (words (normalize_for_llm raw))
  /\ euro_clean false (normalize_for_llm raw) = true.
Proof.
  destruct raw as [|c raw]; [repeat split; constructor|].
  rewrite normalize_nonempty by discriminate. repeat split.
  - apply normalize_whitespace_chars; [discriminate|].
    apply merge_lines_chars; [discriminate|]. apply split_chars.
    unfold repaired. apply normalize_currency_chars; try discriminate.
    apply fix_replacement_cleans.
  - rewrite words_lines, words_merge_lines, <- words_join, join_split.
    unfold repaired, normalize_currency, re_sub. cbv zeta.
    apply amount_euro_words. apply eur_token_words. left. reflexivity.
  - rewrite euro_clean_visible, visible_lines, visible_merge_lines.
    rewrite <- visible_join, join_split, <- euro_clean_visible.
    unfold repaired, normalize_currency, re_sub. cbv zeta.
    apply amount_euro_cleans. discriminate.
Qed.

(** Steps 1 to 3 leave alone a text in which step 1 finds no break and
    which has these three properties. *)
Lemma repaired_settled (o : text) :
  has_break o = false ->
  Forall (fun c => c <> REPLACEMENT_CHAR) o ->
  Forall upper_ok (words o) ->
  euro_clean false o = true ->
  repaired o = o.
Proof.
  intros Hb Y2 Y3 Y4. unfold repaired.
  assert (B : html_breaks o = o).
  { unfold html_breaks, re_sub. apply search_none_fixed.
    unfold has_break, re_search in Hb.
    destruct (search_from true BR_PATTERN None o); [discriminate|reflexivity]. }
  rewrite B.
  rewrite fix_replacement_inert
    by (apply (absent_existsb REPLACEMENT_CHAR); [apply lit_exact|exact Y2]).
  unfold normalize_currency, re_sub. cbv zeta.
  rewrite (eur_token_fixed o None) by (auto; left; reflexivity).
  apply (amount_euro_fixed _ o None false Y4).
Qed.

(** C1, as the code has it: a second run of [normalize_for_llm] returns
    what the first run returned whenever that holds no line break for step
    1 to find and, after its first line, no continuation line for step 4
    to merge.  Tables and breaks in the input do not matter. *)
Theorem normalize_idempotent_when_settled (raw : text) :
  has_break (normalize_for_llm raw) = false ->
  has_continuation (normalize_for_llm raw) = false ->
  normalize_for_llm (normalize_for_llm raw) = normalize_for_llm raw.
Proof.
  intros Hb Hc. destruct (output_facts raw) as (Y2 & Y3 & Y4).
  destruct raw as [|c raw]; [reflexivity|].
  assert (E : normalize_for_llm (c :: raw)
              = normalize_whitespace
                  (merge_lines (split NL (repaired (c :: raw)))))
    by (apply normalize_nonempty; discriminate).
  set (o := normalize_for_llm (c :: raw)) in *.
  destruct o as [|c' o'] eqn:Eo; [reflexivity|]. rewrite <- Eo in *.
  rewrite (normalize_nonempty o) by (rewrite Eo; discriminate).
  rewrite (repaired_settled o Hb Y2 Y3 Y4).
  rewrite merge_lines_settled by exact Hc.
  rewrite E. apply normalize_whitespace_fixed.
  apply merge_lines_no_newline, split_no_sep.
Qed.

End SecondRun.

Lemma normalize_idempotent_when_settled_witness :
  has_break
    (normalize_for_llm
       (py "Menu<br/>| Beer | 7 \u20AC |\nserved cold |\n| Tea | 2 eur |"))
  = false
  /\ has_continuation
       (normalize_for_llm
          (py "Menu<br/>| Beer | 7 \u20AC |\nserved cold |\n| Tea | 2 eur |"))
     = false
  /\ normalize_for_llm
       (normalize_for_llm
          (py "Menu<br/>| Beer | 7 \u20AC |\nserved cold |\n| Tea | 2 eur |"))
     = normalize_for_llm
         (py "Menu<br/>| Beer | 7 \u20AC |\nserved cold |\n| Tea | 2 eur |").
Proof.
  assert (H1 : has_break
                 (normalize_for_llm
                    (py "Menu<br/>| Beer | 7 \u20AC |\nserved cold |\n| Tea | 2 eur |"))
               = false) by (vm_compute; reflexivity).
  assert (H2 : has_continuation
                 (normalize_for_llm
                    (py "Menu<br/>| Beer | 7 \u20AC |\nserved cold |\n| Tea | 2 eur |"))
               = false) by (vm_compute; reflexivity).
  split; [exact H1|]. split; [exact H2|].
  apply (normalize_idempotent_when_settled _ H1 H2).
Defined.

(** The first run can put a break together: of [<br<br>>] it leaves [<br],
    a newline and [>], which a second run takes for a break. *)
Lemma normalize_assembles_a_break :
  normalize_for_llm (py "<br<br>>") = py "<br\n>"
  /\ has_break (normalize_for_llm (py "<br<br>>")) = true
  /\ normalize_for_llm (normalize_for_llm (py "<br<br>>")) = [].
Proof. repeat split; vm_compute; reflexivity. Qed.

(** The line merged by the first run is a continuation line for the
    second. *)
Lemma normalize_leaves_a_continuation :
  normalize_for_llm (py "a\nb\nc |") = py "a\nb c |"
  /\ has_continuation (normalize_for_llm (py "a\nb\nc |")) = true.
Proof. repeat split; vm_compute; reflexivity. Qed.
